(** * Drift-detection engine of gha-atlantis-drift-detection

    A shallow embedding of package [drifter] (the [Drifter] type, its two
    passes [FindDriftedWorkspaces] and [FindExtraWorkspaces], the scheduler
    [drainAndExecute] and the entry point [Drift]) together with the
    [notification] interface it talks to.

    The Go code is effectful: it calls a cache, the Atlantis plan endpoint,
    terraform and a notification sink, and it bumps one shared counter.  The
    embedding keeps the code as a program over these calls ([prog]), gives
    the calls a meaning over an explicit [World] ([handle], [run]) and gives
    the worker pool of [drainAndExecute] an interleaving semantics
    ([pool_act], [pool_acts]).

    The sinks of package [notification] ([Multi], [Zap], [SlackWebhook])
    and the generation of the Atlantis configuration
    ([generateAtlantisProjectsFile] and what it calls) are embedded as
    functions over what they act on: the log and the HTTP requests, the
    files of the checkout. *)

From stdpp Require Import base option list gmap strings sorting.
From Stdlib Require Import ZArith Lia.

Open Scope string_scope.
Open Scope Z_scope.

(** ** Go values *)

Module Go.

(** A Go [error] value.  [temporary = Some b] says that the dynamic type of
    the value implements [atlantis.TemporaryError] and that its [Temporary()]
    method answers [b].  [Wrap] is an error with an [Unwrap] method; the
    value built by [fmt.Errorf] with the verb [%w] is [Wrap _ None _]. *)
Inductive error : Type :=
| Leaf (msg : string) (temporary : option bool)
| Wrap (msg : string) (temporary : option bool) (inner : error).

Definition error_Error (e : error) : string :=
  match e with
  | Leaf msg _ => msg
  | Wrap msg _ _ => msg
  end.

(** [fmt.Errorf(prefix + ": %w", err)], the prefix given in pieces (the
    literal parts of the format and the [%s] arguments, in order). *)
Definition fmt_Errorf (prefix : list string) (err : error) : error :=
  Wrap (foldr String.append (": " +:+ error_Error err) prefix) None err.
Arguments fmt_Errorf : simpl never.

(** [errors.As(err, &tmp) && tmp.Temporary()] for [tmp] of the interface
    type [atlantis.TemporaryError]: the first value of the chain that
    implements the interface is taken, and its [Temporary()] is the answer. *)
Fixpoint errors_As_Temporary (e : error) : bool :=
  match e with
  | Leaf _ (Some b) => b
  | Leaf _ None => false
  | Wrap _ (Some b) _ => b
  | Wrap _ None inner => errors_As_Temporary inner
  end.

(** [errors.Is]-style reachability through [Unwrap]. *)
Fixpoint unwraps_to (e target : error) : Prop :=
  e = target \/
  match e with
  | Leaf _ _ => False
  | Wrap _ _ inner => unwraps_to inner target
  end.

(** A Go [(T, error)] pair where the value is only looked at when the error
    is nil. *)
Inductive result (T : Type) : Type :=
| Ok (v : T)
| Err (e : error).
Arguments Ok {T} v.
Arguments Err {T} e.

(** [int32] arithmetic as [atomic.AddInt32] performs it. *)
Definition wrap32 (z : Z) : Z := (z + 2 ^ 31) mod 2 ^ 32 - 2 ^ 31.
Definition add32 (a b : Z) : Z := wrap32 (a + b).

(** Instants are nanoseconds on the clock; [time.Time.Sub] saturates to the
    range of [time.Duration] (an int64). *)
Definition minDuration : Z := - 2 ^ 63.
Definition maxDuration : Z := 2 ^ 63 - 1.
Definition time_Sub (t u : Z) : Z := Z.max minDuration (Z.min maxDuration (t - u)).

(** [strings.Contains(s, substr)] *)
Fixpoint strings_Contains (s substr : string) : bool :=
  if String.prefix substr s then true
  else match s with
       | EmptyString => false
       | String _ s' => strings_Contains s' substr
       end.

(** [sort.Strings]: insertion into a list ordered by byte-wise comparison. *)
Fixpoint insert_sorted (x : string) (l : list string) : list string :=
  match l with
  | [] => [x]
  | y :: l' => if String.leb x y then x :: y :: l' else y :: insert_sorted x l'
  end.

Definition sort_Strings (l : list string) : list string :=
  foldr insert_sorted [] l.

End Go.
Import Go.

(** ** Collaborator data *)

(** [processedcache.ConsiderDriftChecked] *)
Record ConsiderDriftChecked : Type := {
  Dir : string;
  Workspace : string;
}.

(** [processedcache.DriftCheckValue] *)
Record DriftCheckValue : Type := {
  When : Z;
  Error : string;
  Drift : bool;
}.

(** [processedcache.ConsiderWorkspacesChecked] has the one field [Dir]; the
    directory itself stands for the key. *)

(** [processedcache.WorkspacesCheckedValue] *)
Record WorkspacesCheckedValue : Type := {
  Workspaces : list string;
  WsWhen : Z;
}.

(** [atlantis.PlanSummaryRequest] *)
Record PlanSummaryRequest : Type := {
  Repo : string;
  Ref : string;
  Type_ : string;
  ReqDir : string;
  ReqWorkspace : string;
}.

(** Modelled from the spec: the result type of [atlantis.Client.PlanSummary]
    is not part of the sources; the engine only uses its methods
    [IsLocked()], [HasChanges()] and [GetPlanResultSummary()], which the
    interface section of the specification gives as
    [{locked: bool, hasChanges: bool, summaryText: string}]. *)
Record PlanResult : Type := {
  IsLocked : bool;
  HasChanges : bool;
  GetPlanResultSummary : string;
}.

(** [atlantis.DirectoriesWithWorkspaces], a Go [map[string][]string]. *)
Abbreviation DirectoriesWithWorkspaces := (gmap string (list string)).

(** Modelled from the spec: [DirectoriesWithWorkspaces.SortedKeys] is not part
    of the sources; the specification says the directory names are sorted
    lexicographically before the work list is built. *)
Definition SortedKeys (ws : DirectoriesWithWorkspaces) : list string :=
  sort_Strings (map_to_list ws).*1.

(** [ws[dir]]: a missing key reads as the nil slice. *)
Definition ws_index (ws : DirectoriesWithWorkspaces) (dir : string) : list string :=
  default [] (ws !! dir).

(** ** The calls the engine makes *)

(** One constructor per call the engine makes on a collaborator or on the
    shared counter.  [NotifyWorkspaceDriftSummary] carries the argument list
    as written at the call site. *)
Inductive op : Type :=
| CheckOutTerraformRepo (repo : string)
| GenerateAtlantisProjectsFile
| ParseRepoConfigFromDir (path : string)
| GetDriftCheckResult (key : ConsiderDriftChecked)
| DeleteDriftCheckResult (key : ConsiderDriftChecked)
| StoreDriftCheckResult (key : ConsiderDriftChecked) (val : DriftCheckValue)
| GetRemoteWorkspaces (dir : string)
| DeleteRemoteWorkspaces (dir : string)
| StoreRemoteWorkspaces (dir : string) (val : WorkspacesCheckedValue)
| PlanSummary (req : PlanSummaryRequest)
| TerraformInit (dir : string)
| TerraformListWorkspaces (dir : string)
| NotifyPlanDrift (dir workspace cliffnote : string)
| NotifyExtraWorkspaceInRemote (dir workspace : string)
| NotifyWorkspaceDriftSummary (args : list Z)
| AtomicAddInt32 (delta : Z)
| LoadDriftedWorkspaceCount
| TimeNow.

(** What each call hands back to the engine. *)
Definition resp (o : op) : Type :=
  match o with
  | CheckOutTerraformRepo _ => option error
  | GenerateAtlantisProjectsFile => option error
  | ParseRepoConfigFromDir _ => result DirectoriesWithWorkspaces
  | GetDriftCheckResult _ => result (option DriftCheckValue)
  | DeleteDriftCheckResult _ => option error
  | StoreDriftCheckResult _ _ => option error
  | GetRemoteWorkspaces _ => result (option WorkspacesCheckedValue)
  | DeleteRemoteWorkspaces _ => option error
  | StoreRemoteWorkspaces _ _ => option error
  | PlanSummary _ => result PlanResult
  | TerraformInit _ => option error
  | TerraformListWorkspaces _ => result (list string)
  | NotifyPlanDrift _ _ _ => option error
  | NotifyExtraWorkspaceInRemote _ _ => option error
  | NotifyWorkspaceDriftSummary _ => option error
  | AtomicAddInt32 _ => unit
  | LoadDriftedWorkspaceCount => Z
  | TimeNow => Z
  end.

(** Programs over the calls: the engine's functions are finite trees of
    calls, each continuing with the answer. *)
Inductive prog (A : Type) : Type :=
| Ret (a : A)
| Vis (o : op) (k : resp o -> prog A).
Arguments Ret {A} a.
Arguments Vis {A} o k.

Fixpoint bind {A B : Type} (m : prog A) (f : A -> prog B) : prog B :=
  match m with
  | Ret a => f a
  | Vis o k => Vis o (fun x => bind (k x) f)
  end.

Definition call (o : op) : prog (resp o) := Vis o Ret.

Notation "'do' x <- m ; k" := (bind m (fun x => k))
  (at level 10, x name, m at level 100, k at level 200,
   format "'[v' 'do'  x  <-  m ; '/' k ']'").

(** An [errFunc]: [None] is the nil error. *)
Abbreviation errFunc := (prog (option error)).

(** ** The world the calls act on *)

(** Modelled from the spec: package [processedcache] is not part of the
    sources.  The two stores of the cache are finite maps, [get] reads a
    key, [store] overwrites it and [delete] removes it, each unless the
    backing store fails.  [trace] lists the calls made so far, oldest
    first. *)
Record World : Type := {
  driftCache : gmap (string * string) DriftCheckValue;
  workspacesCache : gmap string WorkspacesCheckedValue;
  DriftedWorkspaceCount : Z;
  trace : list op;
}.

Definition driftKey (k : ConsiderDriftChecked) : string * string :=
  (Dir k, Workspace k).

(** The deterministic behaviour of the collaborators: each call fails or
    answers as a function of its arguments; the cache answers from the
    stores of the [World]. *)
Record Stubs : Type := {
  clock : Z;
  checkOut : string -> option error;
  generateConfig : option error;
  parseRepoConfig : string -> result DirectoriesWithWorkspaces;
  getDriftFails : ConsiderDriftChecked -> option error;
  deleteDriftFails : ConsiderDriftChecked -> option error;
  storeDriftFails : ConsiderDriftChecked -> option error;
  getRemoteFails : string -> option error;
  deleteRemoteFails : string -> option error;
  storeRemoteFails : string -> option error;
  planSummary : PlanSummaryRequest -> result PlanResult;
  terraformInit : string -> option error;
  terraformListWorkspaces : string -> result (list string);
  planDrift : string -> string -> string -> option error;
  extraWorkspaceInRemote : string -> string -> option error;
  workspaceDriftSummary : list Z -> option error;
}.

Definition set_driftCache (f : gmap (string * string) DriftCheckValue ->
                               gmap (string * string) DriftCheckValue) (w : World) : World :=
  {| driftCache := f (driftCache w); workspacesCache := workspacesCache w;
     DriftedWorkspaceCount := DriftedWorkspaceCount w; trace := trace w |}.

Definition set_workspacesCache (f : gmap string WorkspacesCheckedValue ->
                                    gmap string WorkspacesCheckedValue) (w : World) : World :=
  {| driftCache := driftCache w; workspacesCache := f (workspacesCache w);
     DriftedWorkspaceCount := DriftedWorkspaceCount w; trace := trace w |}.

Definition set_count (f : Z -> Z) (w : World) : World :=
  {| driftCache := driftCache w; workspacesCache := workspacesCache w;
     DriftedWorkspaceCount := f (DriftedWorkspaceCount w); trace := trace w |}.

Definition log (o : op) (w : World) : World :=
  {| driftCache := driftCache w; workspacesCache := workspacesCache w;
     DriftedWorkspaceCount := DriftedWorkspaceCount w; trace := trace w ++ [o] |}.

(** A failing cache write leaves the store as it was. *)
Definition unless_fails (e : option error) (f : World -> World) (w : World) : World :=
  match e with
  | Some _ => w
  | None => f w
  end.

Definition answer_get {V : Type} (e : option error) (v : option V) : result (option V) :=
  match e with
  | Some err => Err err
  | None => Ok v
  end.

(** The meaning of one call.  Reading the clock and reading the counter
    leave no entry in the trace; every other call does. *)
Definition handle (st : Stubs) (o : op) (w : World) : resp o * World :=
  match o return resp o * World with
  | CheckOutTerraformRepo repo => (checkOut st repo, log o w)
  | GenerateAtlantisProjectsFile => (generateConfig st, log o w)
  | ParseRepoConfigFromDir path => (parseRepoConfig st path, log o w)
  | GetDriftCheckResult key =>
      (answer_get (getDriftFails st key) (driftCache w !! driftKey key), log o w)
  | DeleteDriftCheckResult key =>
      (deleteDriftFails st key,
       unless_fails (deleteDriftFails st key) (set_driftCache (delete (driftKey key))) (log o w))
  | StoreDriftCheckResult key val =>
      (storeDriftFails st key,
       unless_fails (storeDriftFails st key) (set_driftCache (<[driftKey key := val]>)) (log o w))
  | GetRemoteWorkspaces dir =>
      (answer_get (getRemoteFails st dir) (workspacesCache w !! dir), log o w)
  | DeleteRemoteWorkspaces dir =>
      (deleteRemoteFails st dir,
       unless_fails (deleteRemoteFails st dir) (set_workspacesCache (delete dir)) (log o w))
  | StoreRemoteWorkspaces dir val =>
      (storeRemoteFails st dir,
       unless_fails (storeRemoteFails st dir) (set_workspacesCache (<[dir := val]>)) (log o w))
  | PlanSummary req => (planSummary st req, log o w)
  | TerraformInit dir => (terraformInit st dir, log o w)
  | TerraformListWorkspaces dir => (terraformListWorkspaces st dir, log o w)
  | NotifyPlanDrift dir workspace cliffnote => (planDrift st dir workspace cliffnote, log o w)
  | NotifyExtraWorkspaceInRemote dir workspace => (extraWorkspaceInRemote st dir workspace, log o w)
  | NotifyWorkspaceDriftSummary args => (workspaceDriftSummary st args, log o w)
  | AtomicAddInt32 delta => (tt, set_count (fun c => add32 c delta) (log o w))
  | LoadDriftedWorkspaceCount => (DriftedWorkspaceCount w, w)
  | TimeNow => (clock st, w)
  end.

(** Running a program to its end on one goroutine. *)
Fixpoint run {A : Type} (st : Stubs) (p : prog A) (w : World) : A * World :=
  match p with
  | Ret a => (a, w)
  | Vis o k => let (x, w') := handle st o w in run st (k x) w'
  end.

(** ** Package drifter *)

(** The settings of [Drifter]; its collaborators are the [Stubs] and its
    field [DriftedWorkspaceCount] lives in the [World]. *)
Record Drifter : Type := {
  DRepo : string;
  AtlantisRepoYmlPath : string;
  CacheValidDuration : Z;
  DirectoryAllowlist : list string;
  SkipWorkspaceCheck : bool;
  ParallelRuns : Z;
  AutoGenerateConfig : bool;
}.

(** [Drifter.shouldSkipDirectory] *)
Definition shouldSkipDirectory (d : Drifter) (dir : string) : bool :=
  match DirectoryAllowlist d with
  | [] => false
  | _ => negb (existsb (fun allowedDirectoryPattern =>
                          strings_Contains dir allowedDirectoryPattern)
                       (DirectoryAllowlist d))
  end.

(** [contains] *)
Fixpoint contains (workspaces : list string) (w : string) : bool :=
  match workspaces with
  | [] => false
  | workspace :: rest => if String.eqb workspace w then true else contains rest w
  end.

(** A [for ... range] loop whose body either goes on to the next element
    ([None]: the body fell through or hit [continue]) or leaves the
    enclosing function with an error; after the loop the function returns
    nil. *)
Fixpoint forRange {T : Type} (l : list T) (body : T -> errFunc) : errFunc :=
  match l with
  | [] => Ret None
  | x :: rest =>
      do r <- body x;
      match r with
      | Some err => Ret (Some err)
      | None => forRange rest body
      end
  end.

(** [Drifter.drainAndExecute], the branch [d.ParallelRuns <= 1]. *)
Definition drainAndExecute_sequential (toRun : list errFunc) : errFunc :=
  forRange toRun (fun r => r).

Definition planSummaryRequest (d : Drifter) (dir workspace : string) : PlanSummaryRequest :=
  {| Repo := DRepo d; Ref := "master"; Type_ := "Github";
     ReqDir := dir; ReqWorkspace := workspace |}.

(** [FindDriftedWorkspaces], the loop body from the plan query on: what is
    left of an iteration once the cache gate has let the workspace through. *)
Definition queryAndClassify (d : Drifter) (dir workspace : string) : errFunc :=
  let cacheKey := {| Dir := dir; Workspace := workspace |} in
  do pr <- call (PlanSummary (planSummaryRequest d dir workspace));
  match pr with
  | Err err =>
      if errors_As_Temporary err then Ret None
      else Ret (Some (fmt_Errorf ["failed to get plan summary for ("; dir; "#"; workspace; ")"] err))
  | Ok pr =>
      do now <- call TimeNow;
      do serr <- call (StoreDriftCheckResult cacheKey
                         {| When := now; Error := ""; Drift := HasChanges pr |});
      match serr with
      | Some err =>
          Ret (Some (fmt_Errorf ["failed to store cache value for "; dir; "/"; workspace] err))
      | None =>
          if IsLocked pr then Ret None
          else if HasChanges pr then
            do _ <- call (AtomicAddInt32 1);
            let cliffnote := GetPlanResultSummary pr in
            do nerr <- call (NotifyPlanDrift dir workspace cliffnote);
            match nerr with
            | Some err => Ret (Some (fmt_Errorf ["failed to notify of plan drift in "; dir] err))
            | None => Ret None
            end
          else Ret None
      end
  end.

(** [FindDriftedWorkspaces], one iteration of the loop over the workspaces
    of a directory. *)
Definition checkWorkspace (d : Drifter) (dir workspace : string) : errFunc :=
  let cacheKey := {| Dir := dir; Workspace := workspace |} in
  do got <- call (GetDriftCheckResult cacheKey);
  match got with
  | Err err =>
      Ret (Some (fmt_Errorf ["failed to get cache value for "; dir; "/"; workspace] err))
  | Ok None => queryAndClassify d dir workspace
  | Ok (Some cacheVal) =>
      do now <- call TimeNow;
      if time_Sub now (When cacheVal) <? CacheValidDuration d then Ret None
      else
        do derr <- call (DeleteDriftCheckResult cacheKey);
        match derr with
        | Some err =>
            Ret (Some (fmt_Errorf ["failed to delete cache value for "; dir; "/"; workspace] err))
        | None => queryAndClassify d dir workspace
        end
  end.

(** [FindDriftedWorkspaces], the closure [runningFunc(dir)]. *)
Definition runningFunc (d : Drifter) (ws : DirectoriesWithWorkspaces) (dir : string) : errFunc :=
  if shouldSkipDirectory d dir then Ret None
  else
    let workspaces := ws_index ws dir in
    forRange workspaces (checkWorkspace d dir).

(** [FindDriftedWorkspaces], the list [runs] handed to the scheduler. *)
Definition driftRuns (d : Drifter) (ws : DirectoriesWithWorkspaces) : list errFunc :=
  map (runningFunc d ws) (SortedKeys ws).

(** [FindExtraWorkspaces], the body of the loop over the remote workspaces. *)
Definition reportIfExtra (dir : string) (expectedWorkspaces : list string) (w : string) : errFunc :=
  if negb (contains expectedWorkspaces w) then
    do nerr <- call (NotifyExtraWorkspaceInRemote dir w);
    match nerr with
    | Some err =>
        Ret (Some (fmt_Errorf ["failed to notify of extra workspace "; w; " in "; dir] err))
    | None => Ret None
    end
  else Ret None.

(** [FindExtraWorkspaces], the loop over the remote workspaces. *)
Definition reportExtraWorkspaces (dir : string) (expectedWorkspaces remoteWorkspaces : list string)
    : errFunc :=
  forRange remoteWorkspaces (reportIfExtra dir expectedWorkspaces).

(** [FindExtraWorkspaces], from [Terraform.Init] on. *)
Definition listAndNotify (d : Drifter) (ws : DirectoriesWithWorkspaces) (dir : string) : errFunc :=
  let workspaces := ws_index ws dir in
  do ierr <- call (TerraformInit dir);
  match ierr with
  | Some err => Ret (Some (fmt_Errorf ["failed to init workspace "; dir] err))
  | None =>
      let expectedWorkspaces := (workspaces ++ ["default"])%list in
      do listed <- call (TerraformListWorkspaces dir);
      match listed with
      | Err err => Ret (Some (fmt_Errorf ["failed to list workspaces in "; dir] err))
      | Ok remoteWorkspaces =>
          do looped <- reportExtraWorkspaces dir expectedWorkspaces remoteWorkspaces;
          match looped with
          | Some err => Ret (Some err)
          | None =>
              do now <- call TimeNow;
              do serr <- call (StoreRemoteWorkspaces dir
                                 {| Workspaces := remoteWorkspaces; WsWhen := now |});
              match serr with
              | Some err => Ret (Some (fmt_Errorf ["failed to store cache value for "; dir] err))
              | None => Ret None
              end
          end
      end
  end.

(** [FindExtraWorkspaces], the closure [runFunc(dir)]. *)
Definition runFunc (d : Drifter) (ws : DirectoriesWithWorkspaces) (dir : string) : errFunc :=
  if shouldSkipDirectory d dir then Ret None
  else
    do got <- call (GetRemoteWorkspaces dir);
    match got with
    | Err err => Ret (Some (fmt_Errorf ["failed to get cache value for "; dir] err))
    | Ok None => listAndNotify d ws dir
    | Ok (Some cacheVal) =>
        do now <- call TimeNow;
        if time_Sub now (WsWhen cacheVal) <? CacheValidDuration d then Ret None
        else
          do derr <- call (DeleteRemoteWorkspaces dir);
          match derr with
          | Some err => Ret (Some (fmt_Errorf ["failed to delete cache value for "; dir] err))
          | None => listAndNotify d ws dir
          end
    end.

(** [FindExtraWorkspaces], the list [runs] handed to the scheduler. *)
Definition extraRuns (d : Drifter) (ws : DirectoriesWithWorkspaces) : list errFunc :=
  map (runFunc d ws) (SortedKeys ws).

(** [Drift], from the checkout to the parsed workspaces.  The config parser
    and [atlantis.ConfigToWorkspaces] are one collaborator here; the deferred
    cleanup of the clone only logs. *)
Definition checkOutAndParse (d : Drifter) : prog (result DirectoriesWithWorkspaces) :=
  do cerr <- call (CheckOutTerraformRepo (DRepo d));
  match cerr with
  | Some err => Ret (Err (fmt_Errorf ["failed to checkout repo "; DRepo d] err))
  | None =>
      do gerr <- (if AutoGenerateConfig d
                  then call GenerateAtlantisProjectsFile
                  else Ret None);
      match gerr with
      | Some err => Ret (Err err)
      | None =>
          do cfg <- call (ParseRepoConfigFromDir (AtlantisRepoYmlPath d));
          match cfg with
          | Err err => Ret (Err (fmt_Errorf ["failed to parse repo config"] err))
          | Ok workspaces => Ret (Ok workspaces)
          end
      end
  end.

(** [Drift], the statement
    [d.Notification.WorkspaceDriftSummary(ctx, d.DriftedWorkspaceCount)] and
    the [return nil] after it: one argument is passed and the returned error
    is dropped. *)
Definition summarize : errFunc :=
  do count <- call LoadDriftedWorkspaceCount;
  do _ <- call (NotifyWorkspaceDriftSummary [count]);
  Ret None.

(** [Drift] when [d.ParallelRuns <= 1], where both passes run on the calling
    goroutine. *)
Definition FindDriftedWorkspaces_sequential (d : Drifter) (ws : DirectoriesWithWorkspaces) : errFunc :=
  drainAndExecute_sequential (driftRuns d ws).

Definition FindExtraWorkspaces_sequential (d : Drifter) (ws : DirectoriesWithWorkspaces) : errFunc :=
  if SkipWorkspaceCheck d then Ret None
  else drainAndExecute_sequential (extraRuns d ws).

Definition Drift_sequential (d : Drifter) : errFunc :=
  do parsed <- checkOutAndParse d;
  match parsed with
  | Err err => Ret (Some err)
  | Ok workspaces =>
      do derr <- FindDriftedWorkspaces_sequential d workspaces;
      match derr with
      | Some err => Ret (Some (fmt_Errorf ["failed to find drifted workspaces"] err))
      | None =>
          do eerr <- FindExtraWorkspaces_sequential d workspaces;
          match eerr with
          | Some err => Ret (Some (fmt_Errorf ["failed to find extra workspaces"] err))
          | None => summarize
          end
      end
  end.

(** ** The worker pool of [drainAndExecute] *)

(** A worker goroutine is at its [select], inside a work function, or has
    returned. *)
Inductive worker : Type :=
| Idle
| Busy (r : errFunc)
| Exited.

(** The goroutines of one [drainAndExecute] call with [ParallelRuns > 1].
    [feeder = Some rest]: the feeding goroutine still has [rest] to send;
    [None]: it has returned.  [closed]: [close(from)] has happened.
    [firstErr] is the error the errgroup keeps; [egctx] is cancelled
    exactly when it is set (the caller's context is taken to stay live, and
    the collaborators answer as the [Stubs] say whatever the state of the
    context they are handed).  Workers interleave at their calls: a call is
    one step. *)
Record pool : Type := {
  feeder : option (list errFunc);
  closed : bool;
  workers : list worker;
  firstErr : option error;
  world : World;
}.

(** What the Go scheduler may pick next. *)
Inductive action : Type :=
| Send (i : nat)          (* [from <- r] meets [<-from] of idle worker [i] *)
| Close                   (* the feeder is through its list: [close(from)] *)
| FeederCancelled         (* the feeder takes [<-egctx.Done()] *)
| RecvClosed (i : nat)    (* idle worker [i] reads [!ok] *)
| WorkerCancelled (i : nat) (* idle worker [i] takes [<-egctx.Done()] *)
| Step (i : nat).         (* worker [i] makes its next call or returns from [r] *)

Definition keep_first (old : option error) (e : error) : option error :=
  match old with
  | Some e0 => Some e0
  | None => Some e
  end.

Definition pool_act (st : Stubs) (a : action) (p : pool) : option pool :=
  match a with
  | Send i =>
      match feeder p, workers p !! i with
      | Some (r :: rest), Some Idle =>
          Some {| feeder := Some rest; closed := closed p;
                  workers := <[i := Busy r]> (workers p);
                  firstErr := firstErr p; world := world p |}
      | _, _ => None
      end
  | Close =>
      match feeder p with
      | Some [] =>
          Some {| feeder := None; closed := true; workers := workers p;
                  firstErr := firstErr p; world := world p |}
      | _ => None
      end
  | FeederCancelled =>
      match feeder p, firstErr p with
      | Some _, Some _ =>
          Some {| feeder := None; closed := closed p; workers := workers p;
                  firstErr := firstErr p; world := world p |}
      | _, _ => None
      end
  | RecvClosed i =>
      match workers p !! i with
      | Some Idle =>
          if closed p then
            Some {| feeder := feeder p; closed := closed p;
                    workers := <[i := Exited]> (workers p);
                    firstErr := firstErr p; world := world p |}
          else None
      | _ => None
      end
  | WorkerCancelled i =>
      match workers p !! i, firstErr p with
      | Some Idle, Some _ =>
          Some {| feeder := feeder p; closed := closed p;
                  workers := <[i := Exited]> (workers p);
                  firstErr := firstErr p; world := world p |}
      | _, _ => None
      end
  | Step i =>
      match workers p !! i with
      | Some (Busy (Vis o k)) =>
          let (x, w') := handle st o (world p) in
          Some {| feeder := feeder p; closed := closed p;
                  workers := <[i := Busy (k x)]> (workers p);
                  firstErr := firstErr p; world := w' |}
      | Some (Busy (Ret None)) =>
          Some {| feeder := feeder p; closed := closed p;
                  workers := <[i := Idle]> (workers p);
                  firstErr := firstErr p; world := world p |}
      | Some (Busy (Ret (Some err))) =>
          Some {| feeder := feeder p; closed := closed p;
                  workers := <[i := Exited]> (workers p);
                  firstErr := keep_first (firstErr p) err; world := world p |}
      | _ => None
      end
  end.

(** A schedule, played from the left. *)
Fixpoint pool_acts (st : Stubs) (sched : list action) (p : pool) : option pool :=
  match sched with
  | [] => Some p
  | a :: rest =>
      match pool_act st a p with
      | Some p' => pool_acts st rest p'
      | None => None
      end
  end.

Definition pool_init (d : Drifter) (toRun : list errFunc) (w : World) : pool :=
  {| feeder := Some toRun; closed := false;
     workers := replicate (Z.to_nat (ParallelRuns d)) Idle;
     firstErr := None; world := w |}.

(** [eg.Wait()] returns once every goroutine has. *)
Definition pool_done (p : pool) : Prop :=
  feeder p = None /\ Forall (fun wk => wk = Exited) (workers p).

(** [drainAndExecute]: the outcomes it can have from a world. *)
Inductive drainAndExecute (st : Stubs) (d : Drifter) (toRun : list errFunc) (w : World)
  : option error -> World -> Prop :=
| drain_sequential res w' :
    ParallelRuns d <= 1 ->
    run st (drainAndExecute_sequential toRun) w = (res, w') ->
    drainAndExecute st d toRun w res w'
| drain_pool sched p :
    1 < ParallelRuns d ->
    pool_acts st sched (pool_init d toRun w) = Some p ->
    pool_done p ->
    drainAndExecute st d toRun w (firstErr p) (world p).

(** [FindDriftedWorkspaces] *)
Definition FindDriftedWorkspaces (st : Stubs) (d : Drifter) (ws : DirectoriesWithWorkspaces)
    (w : World) (res : option error) (w' : World) : Prop :=
  drainAndExecute st d (driftRuns d ws) w res w'.

(** [FindExtraWorkspaces] *)
Definition FindExtraWorkspaces (st : Stubs) (d : Drifter) (ws : DirectoriesWithWorkspaces)
    (w : World) (res : option error) (w' : World) : Prop :=
  if SkipWorkspaceCheck d then res = None /\ w' = w
  else drainAndExecute st d (extraRuns d ws) w res w'.

(** [Drifter.Drift]: the outcomes of a run from a world. *)
Inductive Drifter_Drift (st : Stubs) (d : Drifter) (w : World) : option error -> World -> Prop :=
| Drift_no_workspaces err w1 :
    run st (checkOutAndParse d) w = (Err err, w1) ->
    Drifter_Drift st d w (Some err) w1
| Drift_drift_failed workspaces w1 err w2 :
    run st (checkOutAndParse d) w = (Ok workspaces, w1) ->
    FindDriftedWorkspaces st d workspaces w1 (Some err) w2 ->
    Drifter_Drift st d w (Some (fmt_Errorf ["failed to find drifted workspaces"] err)) w2
| Drift_extra_failed workspaces w1 w2 err w3 :
    run st (checkOutAndParse d) w = (Ok workspaces, w1) ->
    FindDriftedWorkspaces st d workspaces w1 None w2 ->
    FindExtraWorkspaces st d workspaces w2 (Some err) w3 ->
    Drifter_Drift st d w (Some (fmt_Errorf ["failed to find extra workspaces"] err)) w3
| Drift_finished workspaces w1 w2 w3 res w4 :
    run st (checkOutAndParse d) w = (Ok workspaces, w1) ->
    FindDriftedWorkspaces st d workspaces w1 None w2 ->
    FindExtraWorkspaces st d workspaces w2 None w3 ->
    run st summarize w3 = (res, w4) ->
    Drifter_Drift st d w res w4.

(** ** Observing a run *)

(** The entry a call leaves in the trace. *)
Definition logged (o : op) : list op :=
  match o with
  | LoadDriftedWorkspaceCount | TimeNow => []
  | _ => [o]
  end.

(** The calls a program makes when it runs from a world, in order. *)
Fixpoint calls_of {A : Type} (st : Stubs) (p : prog A) (w : World) : list op :=
  match p with
  | Ret _ => []
  | Vis o k => logged o ++ (let (x, w') := handle st o w in calls_of st (k x) w')
  end.

Definition isPlanSummary (o : op) : bool :=
  match o with PlanSummary _ => true | _ => false end.

Definition isStore (o : op) : bool :=
  match o with
  | StoreDriftCheckResult _ _ | StoreRemoteWorkspaces _ _ => true
  | _ => false
  end.

Definition isPlanDrift (o : op) : bool :=
  match o with NotifyPlanDrift _ _ _ => true | _ => false end.

Definition isExtraWorkspace (o : op) : bool :=
  match o with NotifyExtraWorkspaceInRemote _ _ => true | _ => false end.

Definition isSummary (o : op) : bool :=
  match o with NotifyWorkspaceDriftSummary _ => true | _ => false end.

Definition isNotification (o : op) : bool :=
  isPlanDrift o || isExtraWorkspace o || isSummary o.

(** The notifications among a list of calls, in order. *)
Definition notifications (tr : list op) : list op := List.filter isNotification tr.

(** ** The sequential scheduler in the words of the specification *)

(** "Execute items strictly in order, return immediately on the first
    non-nil error (no further items run)"; with no error, nil. *)
Inductive in_order (st : Stubs) : list errFunc -> World -> option error -> World -> Prop :=
| in_order_done w :
    in_order st [] w None w
| in_order_stop r rest w err w' :
    run st r w = (Some err, w') ->
    in_order st (r :: rest) w (Some err) w'
| in_order_next r rest w w1 res w' :
    run st r w = (None, w1) ->
    in_order st rest w1 res w' ->
    in_order st (r :: rest) w res w'.


(** ** Names for the statements about the drift checker *)

Definition driftCacheKey (dir workspace : string) : ConsiderDriftChecked :=
  {| Dir := dir; Workspace := workspace |}.

(** [time.Since(cacheVal.When)] on the clock of the stubs. *)
Definition age (st : Stubs) (when : Z) : Z := time_Sub (clock st) when.

(** The world in which the plan query runs after the cache gate has found a
    stale record and deleted it. *)
Definition evicted (dir workspace : string) (w : World) : World :=
  set_driftCache (delete (dir, workspace))
    (log (DeleteDriftCheckResult (driftCacheKey dir workspace))
       (log (GetDriftCheckResult (driftCacheKey dir workspace)) w)).

(** The record [FindDriftedWorkspaces] stores for a plan result. *)
Definition driftRecord (st : Stubs) (pr : PlanResult) : DriftCheckValue :=
  {| When := clock st; Error := ""; Drift := HasChanges pr |}.

(** The world once the record of a plan result is stored. *)
Definition recorded (st : Stubs) (d : Drifter) (dir workspace : string)
    (pr : PlanResult) (w : World) : World :=
  set_driftCache (<[(dir, workspace) := driftRecord st pr]>)
    (log (StoreDriftCheckResult (driftCacheKey dir workspace) (driftRecord st pr))
       (log (PlanSummary (planSummaryRequest d dir workspace)) w)).

(** ** Names for the statements about the reconciler *)

(** The remote workspaces the reconciler reports: those [contains] does not
    find among the expected ones, in the order of the listing. *)
Definition extras (expected remote : list string) : list string :=
  List.filter (fun w => negb (contains expected w)) remote.

(** The same in the words of the specification: a remote workspace "that is
    neither in the directory's declared workspace list nor equal to
    default". *)
Definition undeclared (declared remote : list string) : list string :=
  List.filter (fun w => negb (bool_decide (w ∈ declared)) && negb (bool_decide (w = "default")))
              remote.

(** The record [FindExtraWorkspaces] stores for a listing. *)
Definition listingRecord (st : Stubs) (remote : list string) : WorkspacesCheckedValue :=
  {| Workspaces := remote; WsWhen := clock st |}.

(** ** Concrete runs *)

(** The end-to-end scenario of the specification: two directories with
    the workspace "prod" each. *)
Definition twoDirectories : DirectoriesWithWorkspaces :=
  {[ "infra/network" := ["prod"]; "infra/db" := ["prod"] ]}.

Definition changedPlan : PlanResult :=
  {| IsLocked := false; HasChanges := true;
     GetPlanResultSummary := "Plan: 0 to add, 1 to change, 0 to destroy." |}.

Definition cleanPlan : PlanResult :=
  {| IsLocked := false; HasChanges := false; GetPlanResultSummary := "No changes." |}.

Definition lockedPlan : PlanResult :=
  {| IsLocked := true; HasChanges := true;
     GetPlanResultSummary := "Plan: 0 to add, 1 to change, 0 to destroy." |}.

(** Collaborators that never fail: the plan of "infra/db" has changes, every
    other plan is clean, and terraform lists "default" and "prod". *)
Definition calm : Stubs := {|
  clock := 1700000000000000000;
  checkOut := fun _ => None;
  generateConfig := None;
  parseRepoConfig := fun _ => Ok twoDirectories;
  getDriftFails := fun _ => None;
  deleteDriftFails := fun _ => None;
  storeDriftFails := fun _ => None;
  getRemoteFails := fun _ => None;
  deleteRemoteFails := fun _ => None;
  storeRemoteFails := fun _ => None;
  planSummary := fun req =>
    if String.eqb (ReqDir req) "infra/db" then Ok changedPlan else Ok cleanPlan;
  terraformInit := fun _ => None;
  terraformListWorkspaces := fun _ => Ok ["default"; "prod"];
  planDrift := fun _ _ _ => None;
  extraWorkspaceInRemote := fun _ _ => None;
  workspaceDriftSummary := fun _ => None;
|}.

Definition with_planSummary (f : PlanSummaryRequest -> result PlanResult) (st : Stubs) : Stubs := {|
  clock := clock st; checkOut := checkOut st; generateConfig := generateConfig st;
  parseRepoConfig := parseRepoConfig st;
  getDriftFails := getDriftFails st; deleteDriftFails := deleteDriftFails st;
  storeDriftFails := storeDriftFails st;
  getRemoteFails := getRemoteFails st; deleteRemoteFails := deleteRemoteFails st;
  storeRemoteFails := storeRemoteFails st;
  planSummary := f;
  terraformInit := terraformInit st; terraformListWorkspaces := terraformListWorkspaces st;
  planDrift := planDrift st; extraWorkspaceInRemote := extraWorkspaceInRemote st;
  workspaceDriftSummary := workspaceDriftSummary st;
|}.

Definition with_listing (f : string -> result (list string)) (st : Stubs) : Stubs := {|
  clock := clock st; checkOut := checkOut st; generateConfig := generateConfig st;
  parseRepoConfig := parseRepoConfig st;
  getDriftFails := getDriftFails st; deleteDriftFails := deleteDriftFails st;
  storeDriftFails := storeDriftFails st;
  getRemoteFails := getRemoteFails st; deleteRemoteFails := deleteRemoteFails st;
  storeRemoteFails := storeRemoteFails st;
  planSummary := planSummary st;
  terraformInit := terraformInit st; terraformListWorkspaces := f;
  planDrift := planDrift st; extraWorkspaceInRemote := extraWorkspaceInRemote st;
  workspaceDriftSummary := workspaceDriftSummary st;
|}.

Definition with_parsed (ws : DirectoriesWithWorkspaces) (st : Stubs) : Stubs := {|
  clock := clock st; checkOut := checkOut st; generateConfig := generateConfig st;
  parseRepoConfig := fun _ => Ok ws;
  getDriftFails := getDriftFails st; deleteDriftFails := deleteDriftFails st;
  storeDriftFails := storeDriftFails st;
  getRemoteFails := getRemoteFails st; deleteRemoteFails := deleteRemoteFails st;
  storeRemoteFails := storeRemoteFails st;
  planSummary := planSummary st;
  terraformInit := terraformInit st; terraformListWorkspaces := terraformListWorkspaces st;
  planDrift := planDrift st; extraWorkspaceInRemote := extraWorkspaceInRemote st;
  workspaceDriftSummary := workspaceDriftSummary st;
|}.

(** A sink as the three methods the engine calls. *)
Definition with_sink (drift : string -> string -> string -> option error)
    (extra : string -> string -> option error) (summary : list Z -> option error)
    (st : Stubs) : Stubs := {|
  clock := clock st; checkOut := checkOut st; generateConfig := generateConfig st;
  parseRepoConfig := parseRepoConfig st;
  getDriftFails := getDriftFails st; deleteDriftFails := deleteDriftFails st;
  storeDriftFails := storeDriftFails st;
  getRemoteFails := getRemoteFails st; deleteRemoteFails := deleteRemoteFails st;
  storeRemoteFails := storeRemoteFails st;
  planSummary := planSummary st;
  terraformInit := terraformInit st; terraformListWorkspaces := terraformListWorkspaces st;
  planDrift := drift; extraWorkspaceInRemote := extra;
  workspaceDriftSummary := summary;
|}.

(** A sink whose webhook is down. *)
Definition webhookDown : error := Leaf "failed to send slack webhook request" None.

(** An error of the plan endpoint that asks to be retried, and one that
    does not. *)
Definition tryLater : error := Leaf "atlantis is busy" (Some true).
Definition planBroken : error := Leaf "plan failed" None.

Definition oneDay : Z := 86400 * 10 ^ 9.

Definition drifter (parallelRuns : Z) : Drifter := {|
  DRepo := "revdotcom/infra";
  AtlantisRepoYmlPath := "atlantis.yaml";
  CacheValidDuration := oneDay;
  DirectoryAllowlist := [];
  SkipWorkspaceCheck := false;
  ParallelRuns := parallelRuns;
  AutoGenerateConfig := false;
|}.

Definition emptyWorld : World :=
  {| driftCache := ∅; workspacesCache := ∅; DriftedWorkspaceCount := 0; trace := [] |}.

(** A world whose drift cache holds a two-day-old record for
    infra/db, prod. *)
Definition staleWorld : World :=
  {| driftCache := {[ ("infra/db", "prod") :=
                        {| When := clock calm - 2 * oneDay; Error := ""; Drift := false |} ]};
     workspacesCache := ∅; DriftedWorkspaceCount := 0; trace := [] |}.

(** The arguments the specification expects the summary of the end-to-end
    scenario to carry: drifted, undrifted, total. *)
Definition expectedSummary : list Z := [1; 1; 2].

(** The record of [staleWorld]. *)
Definition staleRecord : DriftCheckValue :=
  {| When := clock calm - 2 * oneDay; Error := ""; Drift := false |}.

(** One directory that declares the workspaces a and b while the remote
    holds a, b, c and default. *)
Definition declaredAB : DirectoriesWithWorkspaces := {[ "infra/app" := ["a"; "b"] ]}.

Definition remoteABC : Stubs := with_listing (fun _ => Ok ["a"; "b"; "c"; "default"]) calm.

Definition listingBroken : Stubs :=
  with_listing (fun _ => Err (Leaf "terraform workspace list failed" None)) calm.

Definition busyAtlantis : Stubs := with_planSummary (fun _ => Err tryLater) calm.

Definition lockedEverywhere : Stubs := with_planSummary (fun _ => Ok lockedPlan) calm.

Definition deafSink : Stubs :=
  with_sink (fun _ _ _ => Some webhookDown) (fun _ _ => Some webhookDown)
            (fun _ => Some webhookDown) calm.

(** The end of the end-to-end scenario on one goroutine. *)
Definition calmEnd : World :=
  (run calm (Drift_sequential (drifter 1)) emptyWorld).2.

(** The end-to-end scenario with a sink that refuses the summary only, and
    the end of its run on one goroutine. *)
Definition summaryRefused : Stubs :=
  with_sink (fun _ _ _ => None) (fun _ _ => None) (fun _ => Some webhookDown) calm.

Definition refusedEnd : World :=
  (run summaryRefused (Drift_sequential (drifter 1)) emptyWorld).2.

(** ** Names for the statements about the worker pool *)

(** A call stays within a directory when the cache entries it reads or
    writes, if any, are those of the directory, and it does not read the
    shared counter. *)
Definition op_within (dir : string) (o : op) : Prop :=
  match o with
  | GetDriftCheckResult key | DeleteDriftCheckResult key | StoreDriftCheckResult key _ =>
      Dir key = dir
  | GetRemoteWorkspaces dir' | DeleteRemoteWorkspaces dir' | StoreRemoteWorkspaces dir' _ =>
      dir' = dir
  | LoadDriftedWorkspaceCount => False
  | _ => True
  end.

Fixpoint within {A : Type} (dir : string) (p : prog A) : Prop :=
  match p with
  | Ret _ => True
  | Vis o k => op_within dir o /\ forall x, within dir (k x)
  end.

(** Two worlds look the same from a directory when the cache entries of
    the directory agree. *)
Definition same_view (dir : string) (w1 w2 : World) : Prop :=
  (forall workspace, driftCache w1 !! (dir, workspace) = driftCache w2 !! (dir, workspace)) /\
  workspacesCache w1 !! dir = workspacesCache w2 !! dir.

(** The counter after the calls of a trace. *)
Definition counted (c : Z) (tr : list op) : Z :=
  foldl (fun c o => match o with AtomicAddInt32 delta => add32 c delta | _ => c end) c tr.

(** Two worlds with the same caches and counter whose traces hold the same
    calls, in some order. *)
Definition same_outcome (w1 w2 : World) : Prop :=
  driftCache w1 = driftCache w2 /\
  workspacesCache w1 = workspacesCache w2 /\
  DriftedWorkspaceCount w1 = DriftedWorkspaceCount w2 /\
  trace w1 ≡ₚ trace w2.

Definition busy_prog (wk : worker) : option errFunc :=
  match wk with
  | Busy r => Some r
  | _ => None
  end.

Definition with_ParallelRuns (n : Z) (d : Drifter) : Drifter := {|
  DRepo := DRepo d;
  AtlantisRepoYmlPath := AtlantisRepoYmlPath d;
  CacheValidDuration := CacheValidDuration d;
  DirectoryAllowlist := DirectoryAllowlist d;
  SkipWorkspaceCheck := SkipWorkspaceCheck d;
  ParallelRuns := n;
  AutoGenerateConfig := AutoGenerateConfig d;
|}.

(** The calls of several programs or directories, one after the other. *)
Definition gather {X : Type} (g : X -> list op) (l : list X) : list op :=
  foldr (fun x acc => (g x ++ acc)%list) [] l.

(** What holds of a pool over the work functions [f dir], [dir] in [ds],
    started in [w0], as long as no work function fails: every directory is
    finished ([fin]), on a worker ([act], with what is left of its work
    function) or still with the feeder ([pend]); what a directory's work
    function has done and will do is what it does alone from [w0]. *)
Definition pool_inv (st : Stubs) (f : string -> errFunc) (w0 : World) (ds : list string)
    (P : pool) : Prop :=
  exists (fin : list string) (act : list (string * errFunc)) (pend : list string)
         (T : list op),
    ds ≡ₚ fin ++ act.*1 ++ pend /\
    match feeder P with
    | Some l => l = map f pend
    | None => pend = []
    end /\
    omap busy_prog (workers P) ≡ₚ act.*2 /\
    firstErr P = None /\
    Forall (fun a => within a.1 a.2 /\
                     (run st a.2 (world P)).1 = None /\
                     same_view a.1 (run st a.2 (world P)).2 (run st (f a.1) w0).2) act /\
    Forall (fun dir => same_view dir (world P) w0) pend /\
    Forall (fun dir => same_view dir (world P) (run st (f dir) w0).2) fin /\
    (forall dir, dir ∉ ds -> same_view dir (world P) w0) /\
    trace (world P) = (trace w0 ++ T)%list /\
    T ++ gather (fun a => calls_of st a.2 (world P)) act ++
         gather (fun dir => calls_of st (f dir) w0) pend
      ≡ₚ gather (fun dir => calls_of st (f dir) w0) ds /\
    DriftedWorkspaceCount (world P) = counted (DriftedWorkspaceCount w0) T.

(** ** The summary in the words of the specification *)

(** "The engine emits exactly one workspace-drift-summary notification, and
    that notification carries three values: the drifted workspace count, the
    undrifted workspace count, and the total workspace count", for every run
    that starts without earlier calls and ends without an error, whatever
    the three values are. *)
Definition summary_carries_three_values : Prop :=
  forall (st : Stubs) (d : Drifter) (w w' : World),
    trace w = [] ->
    Drifter_Drift st d w None w' ->
    exists drifted undrifted total,
      List.filter isSummary (trace w') =
      [NotifyWorkspaceDriftSummary [drifted; undrifted; total]].

(** ** Concurrency in the words of the specification *)

(** "Concurrency = 1 and concurrency = N (N > 1) over the same
    deterministic collaborator stubs produce the same final Drift Counter
    value and the same set of notifications (order may differ only under
    N > 1)", for every behaviour of the collaborators. *)
Definition concurrency_never_matters : Prop :=
  forall (st : Stubs) (d : Drifter) (n : Z) (w : World)
         (r1 rN : option error) (w1 wN : World),
    1 < n ->
    Drifter_Drift st (with_ParallelRuns 1 d) w r1 w1 ->
    Drifter_Drift st (with_ParallelRuns n d) w rN wN ->
    DriftedWorkspaceCount wN = DriftedWorkspaceCount w1 /\
    notifications (trace wN) ≡ₚ notifications (trace w1).

(** Collaborators for which it does matter: the plan query of infra/db
    fails for good, the plan of infra/network has changes. *)
Definition brokenDb : Stubs :=
  with_planSummary
    (fun req => if String.eqb (ReqDir req) "infra/db" then Err planBroken else Ok changedPlan)
    calm.

(** Two workers: worker 0 gets infra/db, worker 1 gets infra/network and
    is through its work function before worker 0 makes its first call. *)
Definition networkFirst : list action :=
  [Send 0; Send 1;
   Step 1; Step 1; Step 1; Step 1; Step 1; Step 1; Step 1;
   Step 0; Step 0; Step 0;
   FeederCancelled; WorkerCancelled 1].

(** The world after checkout and parsing in the concrete runs. *)
Definition parsedWorld : World :=
  {| driftCache := ∅; workspacesCache := ∅; DriftedWorkspaceCount := 0;
     trace := [CheckOutTerraformRepo "revdotcom/infra"; ParseRepoConfigFromDir "atlantis.yaml"] |}.

(** ** Names for further statements about the engine *)

(** [sub] occurs in [s]. *)
Definition occurs_in (sub s : string) : Prop :=
  exists pre post, s = pre +:+ sub +:+ post.

(** Every call a program can make, whatever the answers, satisfies [P]. *)
Fixpoint only {A : Type} (P : op -> Prop) (p : prog A) : Prop :=
  match p with
  | Ret _ => True
  | Vis o k => P o /\ forall x, only P (k x)
  end.

Definition isAdd (o : op) : bool :=
  match o with AtomicAddInt32 _ => true | _ => false end.

(** A call that neither moves the counter nor reports a drift. *)
Definition uncounted (o : op) : Prop := isAdd o = false /\ isPlanDrift o = false.

(** The counter after [k] increments by one. *)
Definition bumped (k : nat) (c : Z) : Z := Nat.iter k (fun c => add32 c 1) c.


(** A listing-cache entry that is absent or younger than the TTL. *)
Definition listing_not_stale (st : Stubs) (d : Drifter)
    (entry : option WorkspacesCheckedValue) : Prop :=
  match entry with
  | None => True
  | Some v => age st (WsWhen v) < CacheValidDuration d
  end.

(** An allow-list of two patterns. *)
Definition onlyInfra : Drifter := {|
  DRepo := "revdotcom/infra";
  AtlantisRepoYmlPath := "atlantis.yaml";
  CacheValidDuration := oneDay;
  DirectoryAllowlist := ["infra/"; "shared"];
  SkipWorkspaceCheck := false;
  ParallelRuns := 1;
  AutoGenerateConfig := false;
|}.

(** A program whose calls move the counter once per drift notification. *)
Definition paired_calls (st : Stubs) {A : Type} (p : prog A) : Prop :=
  forall w c,
    counted c (calls_of st p w) =
    bumped (length (List.filter isPlanDrift (calls_of st p w))) c.

(** What holds of a pool over the work functions [f dir], [dir] in [ds],
    started in [w0], whether or not work functions fail: besides the
    directories that are finished, on a worker or with the feeder there are
    those whose work function has returned an error ([failed]); the error
    the errgroup keeps is one of theirs. *)
Definition pool_errs (st : Stubs) (f : string -> errFunc) (w0 : World) (ds : list string)
    (P : pool) : Prop :=
  exists (fin : list string) (act : list (string * errFunc)) (pend failed : list string),
    ds ≡ₚ fin ++ act.*1 ++ pend ++ failed /\
    match feeder P with
    | Some l => l = map f pend
    | None => pend = [] \/ firstErr P <> None
    end /\
    omap busy_prog (workers P) ≡ₚ act.*2 /\
    (firstErr P = None -> failed = []) /\
    (forall err, firstErr P = Some err ->
                 exists dir, dir ∈ failed /\ (run st (f dir) w0).1 = Some err) /\
    Forall (fun a => within a.1 a.2 /\
                     (run st a.2 (world P)).1 = (run st (f a.1) w0).1) act /\
    Forall (fun dir => same_view dir (world P) w0) pend /\
    Forall (fun dir => (run st (f dir) w0).1 = None) fin.

(** What the goroutines of a pool keep true about each other: the channel
    is closed only by a feeder that has returned, a feeder returns only
    after closing or on cancellation, a worker returns only then too, and
    there is a worker. *)
Definition pool_sound (P : pool) : Prop :=
  (closed P = true -> feeder P = None) /\
  (feeder P = None -> closed P = true \/ firstErr P <> None) /\
  (Exists (fun wk => wk = Exited) (workers P) -> closed P = true \/ firstErr P <> None) /\
  (0 < length (workers P))%nat.

(** ** Package notification *)

Module notification.

(** What the sinks act on: the lines a zap logger has written and the
    requests an HTTP client has been asked to send (URL and body). *)
Record LogLine : Type := {
  level : string;
  message : string;
  fields : list (string * string);
}.

Record Outside : Type := {
  lines : list LogLine;
  requests : list (string * string);
}.

(** A method call on a sink: the error it returns and what it leaves
    outside. *)
Definition sinkM : Type := Outside -> option error * Outside.

(** The interface [Notification]. *)
Record Notification : Type := {
  ExtraWorkspaceInRemote : string -> string -> sinkM;
  MissingWorkspaceInRemote : string -> string -> sinkM;
  PlanDrift : string -> string -> string -> sinkM;
  WorkspaceDriftSummary : Z -> Z -> Z -> sinkM;
  TemporaryError : string -> string -> error -> sinkM;
}.

(** The loop of every method of [Multi]:
    [for _, n := range m.Notifications { if err := n.X(...); err != nil { return err } }]
    and [return nil] after it. *)
Fixpoint fanOut (calls : list sinkM) : sinkM :=
  fun o =>
    match calls with
    | [] => (None, o)
    | c :: rest =>
        match c o with
        | (Some err, o') => (Some err, o')
        | (None, o') => fanOut rest o'
        end
    end.

(** [Multi] *)
Definition Multi (Notifications : list Notification) : Notification := {|
  TemporaryError := fun dir workspace err =>
    fanOut (map (fun n => TemporaryError n dir workspace err) Notifications);
  ExtraWorkspaceInRemote := fun dir workspace =>
    fanOut (map (fun n => ExtraWorkspaceInRemote n dir workspace) Notifications);
  MissingWorkspaceInRemote := fun dir workspace =>
    fanOut (map (fun n => MissingWorkspaceInRemote n dir workspace) Notifications);
  PlanDrift := fun dir workspace cliffnote =>
    fanOut (map (fun n => PlanDrift n dir workspace cliffnote) Notifications);
  WorkspaceDriftSummary := fun workspacesDrifted workspacesUndrifted totalWorkspaces =>
    fanOut (map (fun n => WorkspaceDriftSummary n workspacesDrifted workspacesUndrifted
                            totalWorkspaces) Notifications);
|}.

(** One line of the logger of [Zap]. *)
Definition zap_write (lvl msg : string) (fs : list (string * string)) : sinkM :=
  fun o =>
    (None, {| lines := lines o ++ [{| level := lvl; message := msg; fields := fs |}];
              requests := requests o |}).

(** [Zap].  Its [WorkspaceDriftSummary] has the single parameter of the
    older interface and ignores it; it is given here at the three
    parameters of [Notification]. *)
Definition Zap : Notification := {|
  TemporaryError := fun dir workspace err =>
    zap_write "error" "Unknown error in remote"
      [("dir", dir); ("workspace", workspace); ("error", error_Error err)];
  PlanDrift := fun dir workspace cliffnote =>
    zap_write "info" "Plan has drifted"
      [("dir", dir); ("workspace", workspace); ("cliffnote", cliffnote)];
  ExtraWorkspaceInRemote := fun dir workspace =>
    zap_write "info" "Extra workspace in remote" [("dir", dir); ("workspace", workspace)];
  MissingWorkspaceInRemote := fun dir workspace =>
    zap_write "info" "Missing workspace in remote" [("dir", dir); ("workspace", workspace)];
  WorkspaceDriftSummary := fun _ _ _ o => (None, o);
|}.

(** What [SlackWebhook] relies on: [json.Marshal] of the message,
    [http.NewRequestWithContext] for a POST to the URL, and the client's
    [Do], which answers with a status code.  [summaryText] is the text of
    the summary, which the source formats from float32 percentages. *)
Record Web : Type := {
  jsonMarshal : string -> result string;
  newRequest : string -> string -> option error;
  clientDo : string -> string -> result Z;
  summaryText : Z -> Z -> Z -> string;
}.

(** [SlackWebhook] *)
Record SlackWebhook : Type := {
  WebhookURL : string;
}.

(** [NewSlackWebhook]: nil for the empty URL. *)
Definition NewSlackWebhook (webhookURL : string) : option SlackWebhook :=
  if String.eqb webhookURL "" then None else Some {| WebhookURL := webhookURL |}.

Definition StatusOK : Z := 200.

(** What [fmt.Errorf] makes of the verb [%w] with a nil operand: no error
    is wrapped and the text shows the bad verb. *)
Definition errorf_nil (prefix : string) : error :=
  Leaf (prefix +:+ ": %!w(<nil>)") None.

(** [SlackWebhook.sendSlackMessage] *)
Definition sendSlackMessage (web : Web) (s : SlackWebhook) (msg : string) : sinkM :=
  fun o =>
    match jsonMarshal web msg with
    | Err err => (Some (fmt_Errorf ["failed to marshal slack webhook message"] err), o)
    | Ok b =>
        match newRequest web (WebhookURL s) b with
        | Some err => (Some (fmt_Errorf ["failed to create slack webhook request"] err), o)
        | None =>
            let o' := {| lines := lines o; requests := requests o ++ [(WebhookURL s, b)] |} in
            match clientDo web (WebhookURL s) b with
            | Err err => (Some (fmt_Errorf ["failed to send slack webhook request"] err), o')
            | Ok status =>
                if negb (status =? StatusOK)
                then (Some (errorf_nil "failed to send slack webhook request"), o')
                else (None, o')
            end
        end
    end.

Definition nl : string := String (Ascii.ascii_of_nat 10) "".

(** The message of [SlackWebhook.PlanDrift]. *)
Definition planDriftMessage (dir workspace cliffnote : string) : string :=
  if (String.length workspace =? 0)%nat then
    if (50 <? String.length cliffnote)%nat then
      ":exclamation: *Drift detected*" +:+ nl +:+ ":terraform: *Root module:* `" +:+ dir +:+
      "`" +:+ nl +:+ ":pencil: *Result:* " +:+ nl +:+ "```" +:+ nl +:+ cliffnote +:+ nl +:+ "```"
    else
      ":exclamation: *Drift detected*" +:+ nl +:+ ":terraform: *Root module:* `" +:+ dir +:+
      "`" +:+ nl +:+ ":pencil: *Result:* `" +:+ cliffnote +:+ "`"
  else
    if (50 <? String.length cliffnote)%nat then
      ":exclamation: *Drift detected*" +:+ nl +:+ ":terraform: *Root module:* `" +:+ dir +:+
      "`" +:+ nl +:+ "Workspace: `" +:+ workspace +:+ "`" +:+ nl +:+ ":pencil: *Result:* " +:+
      nl +:+ "```" +:+ nl +:+ cliffnote +:+ nl +:+ "```"
    else
      ":exclamation: *Drift detected*" +:+ nl +:+ ":terraform: *Root module:* `" +:+ dir +:+
      "`" +:+ nl +:+ "Workspace: `" +:+ workspace +:+ "`" +:+ nl +:+ ":pencil: *Result:* `" +:+
      cliffnote +:+ "`".

Definition extraWorkspaceMessage (dir workspace : string) : string :=
  if (String.length workspace =? 0)%nat then
    "Extra workspace in remote" +:+ nl +:+ "Directory: `" +:+ dir +:+ "`"
  else
    "Extra workspace in remote" +:+ nl +:+ "Directory: `" +:+ dir +:+ "`" +:+ nl +:+
    "Workspace: `" +:+ workspace +:+ "`".

Definition missingWorkspaceMessage (dir workspace : string) : string :=
  if (String.length workspace =? 0)%nat then
    "Missing workspace in remote" +:+ nl +:+ "Root module: `" +:+ dir +:+ "`"
  else
    "Missing workspace in remote" +:+ nl +:+ "Root module: `" +:+ dir +:+ "`" +:+ nl +:+
    "Workspace: `" +:+ workspace +:+ "`".

Definition temporaryErrorMessage (dir workspace : string) (err : error) : string :=
  "Unknown error in remote" +:+ nl +:+ "Directory: " +:+ dir +:+ nl +:+ "Workspace: " +:+
  workspace +:+ nl +:+ "Error: " +:+ error_Error err.

(** [SlackWebhook] as a [Notification]. *)
Definition Slack (web : Web) (s : SlackWebhook) : Notification := {|
  TemporaryError := fun dir workspace err =>
    sendSlackMessage web s (temporaryErrorMessage dir workspace err);
  ExtraWorkspaceInRemote := fun dir workspace =>
    sendSlackMessage web s (extraWorkspaceMessage dir workspace);
  MissingWorkspaceInRemote := fun dir workspace =>
    sendSlackMessage web s (missingWorkspaceMessage dir workspace);
  PlanDrift := fun dir workspace cliffnote =>
    sendSlackMessage web s (planDriftMessage dir workspace cliffnote);
  WorkspaceDriftSummary := fun workspacesDrifted workspacesUndrifted totalWorkspaces =>
    sendSlackMessage web s (summaryText web workspacesDrifted workspacesUndrifted
                              totalWorkspaces);
|}.

(** The calls on a sink, as data. *)
Inductive call : Type :=
| CallExtra (dir workspace : string)
| CallMissing (dir workspace : string)
| CallPlanDrift (dir workspace cliffnote : string)
| CallSummary (workspacesDrifted workspacesUndrifted totalWorkspaces : Z)
| CallTemporary (dir workspace : string) (err : error).

Definition invoke (n : Notification) (c : call) : sinkM :=
  match c with
  | CallExtra dir workspace => ExtraWorkspaceInRemote n dir workspace
  | CallMissing dir workspace => MissingWorkspaceInRemote n dir workspace
  | CallPlanDrift dir workspace cliffnote => PlanDrift n dir workspace cliffnote
  | CallSummary a b c => WorkspaceDriftSummary n a b c
  | CallTemporary dir workspace err => TemporaryError n dir workspace err
  end.

(** Calling the sinks of a list one after the other, each on what the one
    before left outside, with every sink returning nil. *)
Inductive all_accept (c : call) : list Notification -> Outside -> Outside -> Prop :=
| all_accept_nil o : all_accept c [] o o
| all_accept_cons n ns o o1 o2 :
    invoke n c o = (None, o1) ->
    all_accept c ns o1 o2 ->
    all_accept c (n :: ns) o o2.

(** A web that answers every POST with 200, and one whose webhook answers
    with 500. *)
Definition webUp : Web := {|
  jsonMarshal := fun msg => Ok ("{text:" +:+ msg +:+ "}");
  newRequest := fun _ _ => None;
  clientDo := fun _ _ => Ok 200;
  summaryText := fun _ _ _ => "summary";
|}.

Definition web500 : Web := {|
  jsonMarshal := fun msg => Ok ("{text:" +:+ msg +:+ "}");
  newRequest := fun _ _ => None;
  clientDo := fun _ _ => Ok 500;
  summaryText := fun _ _ _ => "summary";
|}.

Definition hook : SlackWebhook := {| WebhookURL := "https://hooks.slack.com/services/T/B/x" |}.

Definition nothingYet : Outside := {| lines := []; requests := [] |}.

End notification.

(** ** Generation of the Atlantis configuration *)

Module autogen.

Local Open Scope list_scope.

(** A path is given here by its runes: [[]rune(s)] reads such a list off a
    string and [string(r)] puts it back as UTF-8. *)
Definition rune : Type := Z.
Definition text : Type := list rune.

(** The runes of a literal of one-byte characters. *)
Definition runes (s : string) : text :=
  map (fun ch => Z.of_N (Ascii.N_of_ascii ch)) (String.list_ascii_of_string s).

Definition slash : rune := 47.

(** [string(r)]: the UTF-8 encoding, with U+FFFD for what is no rune. *)
Definition encodeRune (r : rune) : list Z :=
  if (0 <=? r) && (r <? 128) then [r]
  else if (128 <=? r) && (r <? 2048) then
    [Z.lor 192 (Z.shiftr r 6); Z.lor 128 (Z.land r 63)]
  else if ((2048 <=? r) && (r <? 55296)) || ((57344 <=? r) && (r <? 65536)) then
    [Z.lor 224 (Z.shiftr r 12); Z.lor 128 (Z.land (Z.shiftr r 6) 63);
     Z.lor 128 (Z.land r 63)]
  else if (65536 <=? r) && (r <=? 1114111) then
    [Z.lor 240 (Z.shiftr r 18); Z.lor 128 (Z.land (Z.shiftr r 12) 63);
     Z.lor 128 (Z.land (Z.shiftr r 6) 63); Z.lor 128 (Z.land r 63)]
  else [239; 191; 189].

Definition string_of_runes (r : text) : string :=
  foldr (fun b s => String (Ascii.ascii_of_N (Z.to_N b)) s) ""
        (concat (map encodeRune r)).

(** [r[i], r[j] = r[j], r[i]]; [None] is the index out of range. *)
Definition swap (r : text) (i j : Z) : option text :=
  if (i <? 0) || (j <? 0) then None
  else
    match r !! Z.to_nat i, r !! Z.to_nat j with
    | Some ri, Some rj => Some (<[Z.to_nat j := ri]> (<[Z.to_nat i := rj]> r))
    | _, _ => None
    end.

(** The loop of [reverseString], [for i, j := 0, len(r)-1; i < j; i, j = i+1, j-1];
    the fuel bounds the number of rounds. *)
Fixpoint reverse_loop (fuel : nat) (r : text) (i j : Z) : option text :=
  if i <? j then
    match fuel with
    | O => None
    | S fuel' =>
        match swap r i j with
        | Some r' => reverse_loop fuel' r' (i + 1) (j - 1)
        | None => None
        end
    end
  else Some r.

(** [reverseString] *)
Definition reverseString (s : text) : option text :=
  reverse_loop (length s) s 0 (Z.of_nat (length s) - 1).

(** [strings.SplitN(s, sep, 2)] for a separator of one rune. *)
Fixpoint strings_Cut (s : text) (sep : rune) : option (text * text) :=
  match s with
  | [] => None
  | c :: s' =>
      if c =? sep then Some ([], s')
      else match strings_Cut s' sep with
           | Some (before, after) => Some (c :: before, after)
           | None => None
           end
  end.

Definition strings_SplitN_2 (s : text) (sep : rune) : list text :=
  match strings_Cut s sep with
  | Some (before, after) => [before; after]
  | None => [s]
  end.

(** The three lines of [findTerraformRootModules] that turn a file into its
    directory; [None] is the panic of the index [[1]]. *)
Definition rootModuleOf (file : text) : option text :=
  match reverseString file with
  | Some reversed =>
      match strings_SplitN_2 reversed slash !! 1%nat with
      | Some cutPath => reverseString cutPath
      | None => None
      end
  | None => None
  end.

(** [strings.HasPrefix], [strings.HasSuffix] *)
Fixpoint strip_prefix (prefix s : text) : option text :=
  match prefix, s with
  | [], _ => Some s
  | _ :: _, [] => None
  | p :: prefix', c :: s' => if p =? c then strip_prefix prefix' s' else None
  end.

Definition strings_HasSuffix (s suffix : text) : bool :=
  (length suffix <=? length s)%nat &&
  bool_decide (drop (length s - length suffix) s = suffix).

(** [strings.Replace(s, old, new, 1)] for a non-empty [old]. *)
Fixpoint strings_Replace_1 (s old new : text) : text :=
  match strip_prefix old s with
  | Some rest => new ++ rest
  | None =>
      match s with
      | [] => []
      | c :: s' => c :: strings_Replace_1 s' old new
      end
  end.

(** The order of [sort.Strings]: byte-wise on the strings, which is rune by
    rune on their runes. *)
Fixpoint text_leb (a b : text) : bool :=
  match a, b with
  | [], _ => true
  | _ :: _, [] => false
  | x :: a', y :: b' => if x <? y then true else if x =? y then text_leb a' b' else false
  end.

Definition text_le (a b : text) : Prop := text_leb a b = true.

Fixpoint insert_text (x : text) (l : list text) : list text :=
  match l with
  | [] => [x]
  | y :: l' => if text_leb x y then x :: y :: l' else y :: insert_text x l'
  end.

Definition sort_Texts (l : list text) : list text := foldr insert_text [] l.

(** A returned value, or a run-time panic. *)
Inductive outcome (A : Type) : Type :=
| Returns (v : A)
| Panics.
Arguments Returns {A} v.
Arguments Panics {A}.

(** One call of the function given to [filepath.WalkDir]. *)
Record Visit : Type := {
  visitPath : text;
  visitIsDir : bool;
  visitName : text;
  visitErr : option error;
}.

(** An Atlantis project and the configuration, as [generateAtlantisRepoYaml]
    hands them to [yaml.Marshal]. *)
Record Project : Type := {
  projectName : text;
  projectDir : text;
  whenModified : list string;
}.

Record Config : Type := {
  version : Z;
  parallelPlan : bool;
  projects : list Project;
}.

(** What the generation relies on: the calls [filepath.WalkDir] makes for a
    root, [os.ReadFile], the compiled [backendPattern], the order in which a
    [range] yields the keys of a map, [yaml.Marshal] and [os.WriteFile]. *)
Record Files : Type := {
  walkDir : text -> list Visit;
  readFile : text -> result string;
  backendPattern : string -> bool;
  rangeOrder : gset text -> list text;
  yamlMarshal : Config -> result string;
  writeFile : text -> string -> option error;
}.

(** [findTFFiles]: the function given to [WalkDir] returns the error it is
    handed, which ends the walk; the files gathered so far are returned
    with it. *)
Fixpoint walk_from (files : list text) (visits : list Visit) : list text * option error :=
  match visits with
  | [] => (files, None)
  | v :: visits' =>
      match visitErr v with
      | Some err => (files, Some err)
      | None =>
          if negb (visitIsDir v) && strings_HasSuffix (visitName v) (runes ".tf")
          then walk_from (files ++ [visitPath v]) visits'
          else walk_from files visits'
      end
  end.

Definition findTFFiles (fs : Files) (root : text) : list text * option error :=
  walk_from [] (walkDir fs root).

(** [Drifter.findTerraformRootModules] *)
Fixpoint rootModules_from (fs : Files) (pattern : string -> bool) (directories : gset text)
    (files : list text) : outcome (result (gset text)) :=
  match files with
  | [] => Returns (Ok directories)
  | file :: files' =>
      match readFile fs file with
      | Err err =>
          Returns (Err (fmt_Errorf ["error reading tf file "; string_of_runes file] err))
      | Ok content =>
          if pattern content then
            match rootModuleOf file with
            | Some directory =>
                rootModules_from fs pattern ({[directory]} ∪ directories) files'
            | None => Panics
            end
          else rootModules_from fs pattern directories files'
      end
  end.

Definition findTerraformRootModules (fs : Files) (files : list text)
    (pattern : string -> bool) : outcome (result (gset text)) :=
  rootModules_from fs pattern ∅ files.

(** [Drifter.generateAtlantisRepoYaml]; [Directory] is [d.Terraform.Directory]. *)
Definition relativeDir (Directory dir : text) : text :=
  strings_Replace_1 dir (Directory ++ [slash]) [].

Definition projectOf (Directory dir : text) : Project := {|
  projectName := relativeDir Directory dir;
  projectDir := relativeDir Directory dir;
  whenModified := ["**/*.tf.*"%string];
|}.

Definition configOf (Directory : text) (dirList : list text) : Config := {|
  version := 3;
  parallelPlan := true;
  projects := map (projectOf Directory) (sort_Texts dirList);
|}.

Definition generateAtlantisRepoYaml (fs : Files) (Directory : text)
    (directories : gset text) : result string :=
  let dirList := rangeOrder fs directories in
  match yamlMarshal fs (configOf Directory dirList) with
  | Err err => Err (fmt_Errorf ["error marshalling to YAML"] err)
  | Ok yamlDataBytes => Ok yamlDataBytes
  end.

(** [fmt.Errorf(prefix + ": %v", err)]: the text of [err] is kept, the
    value is not. *)
Definition errorf_v (prefix : string) (err : error) : error :=
  Leaf (prefix +:+ ": " +:+ error_Error err) None.

(** [Drifter.generateAtlantisProjectsFile]: the error returned and the file
    [os.WriteFile] was asked to write, if it was. *)
Definition generateAtlantisProjectsFile (fs : Files) (Directory AtlantisRepoYmlPath : text)
    : outcome (option error * option (text * string)) :=
  match findTFFiles fs Directory with
  | (_, Some err) => Returns (Some (errorf_v "error finding tf files" err), None)
  | (files, None) =>
      match findTerraformRootModules fs files (backendPattern fs) with
      | Panics => Panics
      | Returns (Err err) => Returns (Some (errorf_v "error processing files" err), None)
      | Returns (Ok directories) =>
          match generateAtlantisRepoYaml fs Directory directories with
          | Err err => Returns (Some (errorf_v "error generating YAML" err), None)
          | Ok yamlOutputBytes =>
              let target := Directory ++ [slash] ++ AtlantisRepoYmlPath in
              match writeFile fs target yamlOutputBytes with
              | Some writeErr =>
                  Returns (Some (errorf_v "error writing Atlantis yaml config file" writeErr),
                           Some (target, yamlOutputBytes))
              | None => Returns (None, Some (target, yamlOutputBytes))
              end
          end
      end
  end.

Definition with_rangeOrder (fs : Files) (order : gset text -> list text) : Files := {|
  walkDir := walkDir fs;
  readFile := readFile fs;
  backendPattern := backendPattern fs;
  rangeOrder := order;
  yamlMarshal := yamlMarshal fs;
  writeFile := writeFile fs;
|}.

(** A checkout at [/r] with a root module [a], a directory [b] without a
    backend and, in [lonelyFiles], a file that is reached by a path
    without a slash. *)
Definition checkoutFiles : Files := {|
  walkDir := fun root =>
    [ {| visitPath := root; visitIsDir := true; visitName := runes "r"; visitErr := None |};
      {| visitPath := root ++ runes "/a"; visitIsDir := true; visitName := runes "a";
         visitErr := None |};
      {| visitPath := root ++ runes "/a/main.tf"; visitIsDir := false;
         visitName := runes "main.tf"; visitErr := None |};
      {| visitPath := root ++ runes "/b"; visitIsDir := true; visitName := runes "b";
         visitErr := None |};
      {| visitPath := root ++ runes "/b/vars.tf"; visitIsDir := false;
         visitName := runes "vars.tf"; visitErr := None |} ];
  readFile := fun file =>
    if bool_decide (file = runes "/r/a/main.tf") then Ok "terraform { backend s3 }"%string
    else Ok "variable x"%string;
  backendPattern := fun content => strings_Contains content "backend";
  rangeOrder := elements;
  yamlMarshal := fun _ => Ok "version: 3"%string;
  writeFile := fun _ _ => None;
|}.

Definition diskError : error := Leaf "permission denied" None.

Definition unreadableFiles : Files := {|
  walkDir := walkDir checkoutFiles;
  readFile := fun file =>
    if bool_decide (file = runes "/r/b/vars.tf") then Err diskError
    else readFile checkoutFiles file;
  backendPattern := backendPattern checkoutFiles;
  rangeOrder := elements;
  yamlMarshal := yamlMarshal checkoutFiles;
  writeFile := writeFile checkoutFiles;
|}.

Definition lonelyFiles : Files := {|
  walkDir := walkDir checkoutFiles;
  readFile := fun _ => Ok "terraform { backend s3 }"%string;
  backendPattern := backendPattern checkoutFiles;
  rangeOrder := elements;
  yamlMarshal := yamlMarshal checkoutFiles;
  writeFile := writeFile checkoutFiles;
|}.

End autogen.

(** ** Properties *)

Section Running.

Context (st : Stubs).

Lemma run_bind {A B : Type} (m : prog A) (f : A -> prog B) (w : World) :
  run st (bind m f) w = let (a, w') := run st m w in run st (f a) w'.
Proof.
  revert w. induction m as [a | o k IH]; intros w; simpl; [reflexivity |].
  destruct (handle st o w) as [x w']. apply IH.
Qed.

Lemma calls_of_bind {A B : Type} (m : prog A) (f : A -> prog B) (w : World) :
  calls_of st (bind m f) w =
  (calls_of st m w ++ (let (a, w') := run st m w in calls_of st (f a) w'))%list.
Proof.
  revert w. induction m as [a | o k IH]; intros w; simpl; [reflexivity |].
  destruct (handle st o w) as [x w']. rewrite IH, app_assoc. reflexivity.
Qed.

Lemma trace_handle (o : op) (w : World) :
  trace (handle st o w).2 = (trace w ++ logged o)%list.
Proof.
  destruct o; simpl; unfold unless_fails;
    repeat match goal with |- context [match ?e with _ => _ end] => destruct e end;
    simpl; rewrite ?app_nil_r; reflexivity.
Qed.

(** The trace of a run grows by exactly the calls of the program. *)
Lemma trace_run {A : Type} (p : prog A) (w : World) :
  trace (run st p w).2 = (trace w ++ calls_of st p w)%list.
Proof.
  revert w. induction p as [a | o k IH]; intros w; simpl.
  - rewrite app_nil_r. reflexivity.
  - pose proof (trace_handle o w) as Ht.
    destruct (handle st o w) as [x w']. simpl in Ht.
    rewrite IH, Ht, app_assoc. reflexivity.
Qed.

Lemma run_forRange_cons {T : Type} (x : T) (l : list T) (body : T -> errFunc) (w : World) :
  run st (forRange (x :: l) body) w =
  match run st (body x) w with
  | (Some err, w') => (Some err, w')
  | (None, w') => run st (forRange l body) w'
  end.
Proof.
  simpl. rewrite run_bind. destruct (run st (body x) w) as [[err |] w']; reflexivity.
Qed.

Lemma calls_of_forRange_cons {T : Type} (x : T) (l : list T) (body : T -> errFunc) (w : World) :
  calls_of st (forRange (x :: l) body) w =
  (calls_of st (body x) w ++
   match run st (body x) w with
   | (Some _, _) => []
   | (None, w') => calls_of st (forRange l body) w'
   end)%list.
Proof.
  simpl. rewrite calls_of_bind. destruct (run st (body x) w) as [[err |] w']; reflexivity.
Qed.

(** The sequential branch of the scheduler does what the specification
    says, and always has an outcome. *)
Lemma drainAndExecute_sequential_in_order (toRun : list errFunc) (w : World)
    (res : option error) (w' : World) :
  run st (drainAndExecute_sequential toRun) w = (res, w') <-> in_order st toRun w res w'.
Proof.
  unfold drainAndExecute_sequential. split.
  - revert w. induction toRun as [| r rest IH]; intros w H.
    + simpl in H. injection H as <- <-. constructor.
    + rewrite run_forRange_cons in H.
      destruct (run st r w) as [[err |] w1] eqn:Hr.
      * injection H as <- <-. apply in_order_stop. exact Hr.
      * eapply in_order_next; [exact Hr | apply IH, H].
  - induction 1 as [w | r rest w err w' Hr | r rest w w1 res w' Hr _ IH].
    + reflexivity.
    + rewrite run_forRange_cons, Hr. reflexivity.
    + rewrite run_forRange_cons, Hr. exact IH.
Qed.

End Running.


(** ** The drift checker, one workspace at a time *)

Section DriftChecker.

Context (st : Stubs) (d : Drifter) (dir workspace : string).

Local Abbreviation key := (driftCacheKey dir workspace).
Local Abbreviation req := (planSummaryRequest d dir workspace).
Local Abbreviation check := (checkWorkspace d dir workspace).

(** The plan query is the first call of [queryAndClassify] and its only
    plan query. *)
Lemma queryAndClassify_calls (w : World) :
  exists rest,
    calls_of st (queryAndClassify d dir workspace) w = PlanSummary req :: rest /\
    List.filter isPlanSummary rest = [].
Proof.
  unfold queryAndClassify. simpl.
  destruct (planSummary st req) as [pr | err]; simpl.
  - destruct (storeDriftFails st _); simpl; [eexists; split; reflexivity |].
    destruct (IsLocked pr); simpl; [eexists; split; reflexivity |].
    destruct (HasChanges pr); simpl; [| eexists; split; reflexivity].
    destruct (planDrift st _ _ _); simpl; eexists; split; reflexivity.
  - destruct (errors_As_Temporary err); simpl; eexists; split; reflexivity.
Qed.

(** The ways through the cache gate: what [checkWorkspace] does before
    the plan query, by the answer of the cache. *)
Lemma gate_lookup_fails (w : World) (err : error) :
  getDriftFails st key = Some err ->
  run st check w =
    (Some (fmt_Errorf ["failed to get cache value for "; dir; "/"; workspace] err),
     log (GetDriftCheckResult key) w) /\
  calls_of st check w = [GetDriftCheckResult key].
Proof.
  intros H. unfold driftCacheKey in *. unfold checkWorkspace. simpl. rewrite H. simpl. split; reflexivity.
Qed.

Lemma gate_absent (w : World) :
  getDriftFails st key = None ->
  driftCache w !! (dir, workspace) = None ->
  run st check w = run st (queryAndClassify d dir workspace) (log (GetDriftCheckResult key) w) /\
  calls_of st check w =
    GetDriftCheckResult key ::
    calls_of st (queryAndClassify d dir workspace) (log (GetDriftCheckResult key) w).
Proof.
  intros H Hc. unfold driftCacheKey in *. unfold checkWorkspace. simpl. rewrite H. unfold driftKey. simpl.
  rewrite Hc. simpl. split; reflexivity.
Qed.

Lemma gate_fresh (w : World) (cacheVal : DriftCheckValue) :
  getDriftFails st key = None ->
  driftCache w !! (dir, workspace) = Some cacheVal ->
  age st (When cacheVal) < CacheValidDuration d ->
  run st check w = (None, log (GetDriftCheckResult key) w) /\
  calls_of st check w = [GetDriftCheckResult key].
Proof.
  intros H Hc Hage. unfold driftCacheKey in *. unfold checkWorkspace. simpl. rewrite H. unfold driftKey. simpl.
  rewrite Hc. simpl. unfold age in Hage.
  destruct (Z.ltb_spec (time_Sub (clock st) (When cacheVal)) (CacheValidDuration d)); [| lia].
  simpl. split; reflexivity.
Qed.

Lemma gate_stale_delete_fails (w : World) (cacheVal : DriftCheckValue) (err : error) :
  getDriftFails st key = None ->
  driftCache w !! (dir, workspace) = Some cacheVal ->
  CacheValidDuration d <= age st (When cacheVal) ->
  deleteDriftFails st key = Some err ->
  run st check w =
    (Some (fmt_Errorf ["failed to delete cache value for "; dir; "/"; workspace] err),
     log (DeleteDriftCheckResult key) (log (GetDriftCheckResult key) w)) /\
  calls_of st check w = [GetDriftCheckResult key; DeleteDriftCheckResult key].
Proof.
  intros H Hc Hage Hd. unfold driftCacheKey in *. unfold checkWorkspace. simpl. rewrite H. unfold driftKey. simpl.
  rewrite Hc. simpl. unfold age in Hage.
  destruct (Z.ltb_spec (time_Sub (clock st) (When cacheVal)) (CacheValidDuration d)); [lia |].
  simpl. rewrite Hd. simpl. split; reflexivity.
Qed.

Lemma gate_stale_deleted (w : World) (cacheVal : DriftCheckValue) :
  getDriftFails st key = None ->
  driftCache w !! (dir, workspace) = Some cacheVal ->
  CacheValidDuration d <= age st (When cacheVal) ->
  deleteDriftFails st key = None ->
  run st check w = run st (queryAndClassify d dir workspace) (evicted dir workspace w) /\
  calls_of st check w =
    GetDriftCheckResult key :: DeleteDriftCheckResult key ::
    calls_of st (queryAndClassify d dir workspace) (evicted dir workspace w).
Proof.
  intros H Hc Hage Hd. unfold driftCacheKey in *. unfold checkWorkspace. simpl. rewrite H. unfold driftKey. simpl.
  rewrite Hc. simpl. unfold age in Hage.
  destruct (Z.ltb_spec (time_Sub (clock st) (When cacheVal)) (CacheValidDuration d)); [lia |].
  simpl. rewrite Hd. simpl. split; reflexivity.
Qed.

(** A workspace whose plan query runs has come through the gate: the query
    starts in a world [w1] with no record for the pair, in which nothing
    but the lookup and, for a stale record, the delete has happened. *)
Lemma gate_passed (w : World) :
  In (PlanSummary req) (calls_of st check w) ->
  exists (pre : list op) (w1 : World),
    run st check w = run st (queryAndClassify d dir workspace) w1 /\
    calls_of st check w = (pre ++ calls_of st (queryAndClassify d dir workspace) w1)%list /\
    (pre = [GetDriftCheckResult key] \/
     pre = [GetDriftCheckResult key; DeleteDriftCheckResult key]) /\
    driftCache w1 !! (dir, workspace) = None /\
    DriftedWorkspaceCount w1 = DriftedWorkspaceCount w.
Proof.
  intros Hin.
  destruct (getDriftFails st key) as [err |] eqn:Hget.
  { destruct (gate_lookup_fails w err Hget) as [_ Hc]. rewrite Hc in Hin.
    simpl in Hin. intuition discriminate. }
  destruct (driftCache w !! (dir, workspace)) as [cacheVal |] eqn:Hrec.
  2:{ destruct (gate_absent w Hget Hrec) as [Hr Hc].
      exists [GetDriftCheckResult key], (log (GetDriftCheckResult key) w).
      repeat split; auto. }
  destruct (Z.lt_ge_cases (age st (When cacheVal)) (CacheValidDuration d)) as [Hage | Hage].
  { destruct (gate_fresh w cacheVal Hget Hrec Hage) as [_ Hc]. rewrite Hc in Hin.
    simpl in Hin. intuition discriminate. }
  destruct (deleteDriftFails st key) as [err |] eqn:Hdel.
  { destruct (gate_stale_delete_fails w cacheVal err Hget Hrec Hage Hdel) as [_ Hc].
    rewrite Hc in Hin. simpl in Hin. intuition discriminate. }
  destruct (gate_stale_deleted w cacheVal Hget Hrec Hage Hdel) as [Hr Hc].
  exists [GetDriftCheckResult key; DeleteDriftCheckResult key], (evicted dir workspace w).
  repeat split; auto.
  unfold evicted. simpl. apply lookup_delete_eq.
Qed.

(** The outcomes of [queryAndClassify], by the answer of the plan query. *)
Lemma query_temporary (w : World) (err : error) :
  planSummary st req = Err err ->
  errors_As_Temporary err = true ->
  run st (queryAndClassify d dir workspace) w = (None, log (PlanSummary req) w) /\
  calls_of st (queryAndClassify d dir workspace) w = [PlanSummary req].
Proof.
  intros Hp Ht. unfold queryAndClassify. simpl. rewrite Hp, Ht. split; reflexivity.
Qed.

Lemma query_permanent (w : World) (err : error) :
  planSummary st req = Err err ->
  errors_As_Temporary err = false ->
  run st (queryAndClassify d dir workspace) w =
    (Some (fmt_Errorf ["failed to get plan summary for ("; dir; "#"; workspace; ")"] err),
     log (PlanSummary req) w) /\
  calls_of st (queryAndClassify d dir workspace) w = [PlanSummary req].
Proof.
  intros Hp Ht. unfold queryAndClassify. simpl. rewrite Hp, Ht. split; reflexivity.
Qed.

(** Whatever the plan says, its record is the next call after the query. *)
Lemma query_stores_first (w : World) (pr : PlanResult) :
  planSummary st req = Ok pr ->
  exists post,
    calls_of st (queryAndClassify d dir workspace) w =
      PlanSummary req :: StoreDriftCheckResult key (driftRecord st pr) :: post.
Proof.
  intros Hp. unfold queryAndClassify. simpl. rewrite Hp. simpl.
  eexists. reflexivity.
Qed.

Lemma query_store_fails (w : World) (pr : PlanResult) (err : error) :
  planSummary st req = Ok pr ->
  storeDriftFails st key = Some err ->
  run st (queryAndClassify d dir workspace) w =
    (Some (fmt_Errorf ["failed to store cache value for "; dir; "/"; workspace] err),
     log (StoreDriftCheckResult key (driftRecord st pr)) (log (PlanSummary req) w)) /\
  calls_of st (queryAndClassify d dir workspace) w =
    [PlanSummary req; StoreDriftCheckResult key (driftRecord st pr)].
Proof.
  intros Hp Hs. unfold driftCacheKey in *. unfold queryAndClassify. simpl. rewrite Hp. simpl.
  rewrite Hs. simpl. split; reflexivity.
Qed.

Lemma query_locked (w : World) (pr : PlanResult) :
  planSummary st req = Ok pr ->
  storeDriftFails st key = None ->
  IsLocked pr = true ->
  run st (queryAndClassify d dir workspace) w = (None, recorded st d dir workspace pr w) /\
  calls_of st (queryAndClassify d dir workspace) w =
    [PlanSummary req; StoreDriftCheckResult key (driftRecord st pr)].
Proof.
  intros Hp Hs Hl. unfold driftCacheKey in *. unfold queryAndClassify. simpl. rewrite Hp. simpl.
  rewrite Hs, Hl. simpl. split; reflexivity.
Qed.

Lemma query_clean (w : World) (pr : PlanResult) :
  planSummary st req = Ok pr ->
  storeDriftFails st key = None ->
  IsLocked pr = false ->
  HasChanges pr = false ->
  run st (queryAndClassify d dir workspace) w = (None, recorded st d dir workspace pr w) /\
  calls_of st (queryAndClassify d dir workspace) w =
    [PlanSummary req; StoreDriftCheckResult key (driftRecord st pr)].
Proof.
  intros Hp Hs Hl Hc. unfold driftCacheKey in *. unfold queryAndClassify. simpl. rewrite Hp. simpl.
  rewrite Hs, Hl, Hc. simpl. unfold recorded, driftRecord. rewrite Hc. split; reflexivity.
Qed.

Lemma query_drifted (w : World) (pr : PlanResult) :
  planSummary st req = Ok pr ->
  storeDriftFails st key = None ->
  IsLocked pr = false ->
  HasChanges pr = true ->
  run st (queryAndClassify d dir workspace) w =
    (match planDrift st dir workspace (GetPlanResultSummary pr) with
     | Some err => Some (fmt_Errorf ["failed to notify of plan drift in "; dir] err)
     | None => None
     end,
     log (NotifyPlanDrift dir workspace (GetPlanResultSummary pr))
       (set_count (fun c => add32 c 1) (log (AtomicAddInt32 1) (recorded st d dir workspace pr w)))) /\
  calls_of st (queryAndClassify d dir workspace) w =
    [PlanSummary req; StoreDriftCheckResult key (driftRecord st pr);
     AtomicAddInt32 1; NotifyPlanDrift dir workspace (GetPlanResultSummary pr)].
Proof.
  intros Hp Hs Hl Hc. unfold driftCacheKey in *. unfold queryAndClassify. simpl. rewrite Hp. simpl.
  rewrite Hs, Hl, Hc. simpl. unfold recorded, driftRecord. rewrite Hc.
  destruct (planDrift st dir workspace (GetPlanResultSummary pr)); simpl; split; reflexivity.
Qed.

End DriftChecker.

(** C3.  A drift-cache record that the lookup returns is used to skip the
    check exactly when its age is strictly below the TTL: the check then
    ends after the lookup, with nothing else called.  At an age of the TTL
    or more the delete is the next call; once it has removed the record the
    check goes on from a cache without the record and makes the plan query
    for the pair exactly once.  (A delete that fails ends the check with
    that error before any plan query.) *)
Theorem cache_record_trusted_iff_fresh (st : Stubs) (d : Drifter) (dir workspace : string)
    (w : World) (cacheVal : DriftCheckValue) :
  getDriftFails st (driftCacheKey dir workspace) = None ->
  driftCache w !! (dir, workspace) = Some cacheVal ->
  (age st (When cacheVal) < CacheValidDuration d <->
   run st (checkWorkspace d dir workspace) w =
     (None, log (GetDriftCheckResult (driftCacheKey dir workspace)) w)) /\
  (CacheValidDuration d <= age st (When cacheVal) ->
   match deleteDriftFails st (driftCacheKey dir workspace) with
   | None =>
       driftCache (evicted dir workspace w) !! (dir, workspace) = None /\
       run st (checkWorkspace d dir workspace) w =
         run st (queryAndClassify d dir workspace) (evicted dir workspace w) /\
       (exists rest,
          calls_of st (checkWorkspace d dir workspace) w =
            GetDriftCheckResult (driftCacheKey dir workspace) ::
            DeleteDriftCheckResult (driftCacheKey dir workspace) ::
            PlanSummary (planSummaryRequest d dir workspace) :: rest /\
          List.filter isPlanSummary rest = []) /\
       List.filter isPlanSummary (calls_of st (checkWorkspace d dir workspace) w) =
         [PlanSummary (planSummaryRequest d dir workspace)]
   | Some err =>
       run st (checkWorkspace d dir workspace) w =
         (Some (fmt_Errorf ["failed to delete cache value for "; dir; "/"; workspace] err),
          log (DeleteDriftCheckResult (driftCacheKey dir workspace))
            (log (GetDriftCheckResult (driftCacheKey dir workspace)) w)) /\
       calls_of st (checkWorkspace d dir workspace) w =
         [GetDriftCheckResult (driftCacheKey dir workspace);
          DeleteDriftCheckResult (driftCacheKey dir workspace)]
   end).
Proof.
  intros Hget Hrec. split.
  - split.
    + intros Hage. apply (gate_fresh st d dir workspace w cacheVal Hget Hrec Hage).
    + intros Hrun.
      destruct (Z.lt_ge_cases (age st (When cacheVal)) (CacheValidDuration d)) as [Hage | Hage];
        [exact Hage | exfalso].
      pose proof (trace_run st (checkWorkspace d dir workspace) w) as Htr.
      destruct (deleteDriftFails st (driftCacheKey dir workspace)) as [err |] eqn:Hdel.
      * destruct (gate_stale_delete_fails st d dir workspace w cacheVal err Hget Hrec Hage Hdel)
          as [_ Hc].
        rewrite Hc, Hrun in Htr. simpl in Htr. apply app_inv_head in Htr. discriminate.
      * destruct (gate_stale_deleted st d dir workspace w cacheVal Hget Hrec Hage Hdel)
          as [_ Hc].
        destruct (queryAndClassify_calls st d dir workspace (evicted dir workspace w))
          as (rest & Hq & _).
        rewrite Hc, Hq, Hrun in Htr. simpl in Htr. apply app_inv_head in Htr. discriminate.
  - intros Hage.
    destruct (deleteDriftFails st (driftCacheKey dir workspace)) as [err |] eqn:Hdel.
    + apply (gate_stale_delete_fails st d dir workspace w cacheVal err Hget Hrec Hage Hdel).
    + destruct (gate_stale_deleted st d dir workspace w cacheVal Hget Hrec Hage Hdel)
        as [Hr Hc].
      destruct (queryAndClassify_calls st d dir workspace (evicted dir workspace w))
        as (rest & Hq & Hnone).
      split; [unfold evicted; simpl; apply lookup_delete_eq |].
      split; [exact Hr |].
      split.
      * exists rest. rewrite Hc, Hq. split; [reflexivity | exact Hnone].
      * rewrite Hc, Hq. simpl. rewrite Hnone. reflexivity.
Qed.

(** C4.  When the plan query of a pair fails with an error flagged
    temporary, the check of the pair ends without an error, the counter is
    what it was, no record is stored (the cache has none for the pair), no
    notification is sent, and the remaining workspaces of the directory and
    the remaining work functions of the scheduler run on from there. *)
Theorem temporary_plan_error_skips_workspace (st : Stubs) (d : Drifter) (dir workspace : string)
    (w : World) (err : error) (rest : list string) (others : list errFunc) :
  planSummary st (planSummaryRequest d dir workspace) = Err err ->
  errors_As_Temporary err = true ->
  In (PlanSummary (planSummaryRequest d dir workspace))
     (calls_of st (checkWorkspace d dir workspace) w) ->
  (run st (checkWorkspace d dir workspace) w).1 = None /\
  DriftedWorkspaceCount (run st (checkWorkspace d dir workspace) w).2 = DriftedWorkspaceCount w /\
  List.filter isStore (calls_of st (checkWorkspace d dir workspace) w) = [] /\
  driftCache (run st (checkWorkspace d dir workspace) w).2 !! (dir, workspace) = None /\
  notifications (calls_of st (checkWorkspace d dir workspace) w) = [] /\
  run st (forRange (workspace :: rest) (checkWorkspace d dir)) w =
    run st (forRange rest (checkWorkspace d dir)) (run st (checkWorkspace d dir workspace) w).2 /\
  run st (drainAndExecute_sequential
            (forRange (workspace :: rest) (checkWorkspace d dir) :: others)) w =
    run st (drainAndExecute_sequential
              (forRange rest (checkWorkspace d dir) :: others))
        (run st (checkWorkspace d dir workspace) w).2.
Proof.
  intros Hplan Htmp Hin.
  destruct (gate_passed st d dir workspace w Hin) as (pre & w1 & Hr & Hc & Hpre & Hnone & Hcount).
  destruct (query_temporary st d dir workspace w1 err Hplan Htmp) as [Hq Hqc].
  assert (Hrun : run st (checkWorkspace d dir workspace) w =
                 (None, log (PlanSummary (planSummaryRequest d dir workspace)) w1))
    by (rewrite Hr; exact Hq).
  assert (Hcalls : calls_of st (checkWorkspace d dir workspace) w =
                   (pre ++ [PlanSummary (planSummaryRequest d dir workspace)])%list)
    by (rewrite Hc, Hqc; reflexivity).
  assert (Hfor : run st (forRange (workspace :: rest) (checkWorkspace d dir)) w =
                 run st (forRange rest (checkWorkspace d dir))
                   (run st (checkWorkspace d dir workspace) w).2)
    by (rewrite run_forRange_cons, Hrun; reflexivity).
  split; [rewrite Hrun; reflexivity |].
  split; [rewrite Hrun; exact Hcount |].
  split; [rewrite Hcalls; destruct Hpre as [-> | ->]; reflexivity |].
  split; [rewrite Hrun; exact Hnone |].
  split; [rewrite Hcalls; destruct Hpre as [-> | ->]; reflexivity |].
  split; [exact Hfor |].
  unfold drainAndExecute_sequential.
  rewrite 2!(run_forRange_cons st _ others). cbv beta. rewrite Hfor. reflexivity.
Qed.

(** C5.  When the plan query of a pair answers locked and changed, the
    record of the pair, with [Drift] true, is stored as the very next call
    after the query, no drift notification is sent and the counter is what
    it was; a store that succeeds leaves that record in the cache and the
    check ends without an error. *)
Theorem locked_changed_is_cached_not_reported (st : Stubs) (d : Drifter) (dir workspace : string)
    (w : World) (pr : PlanResult) :
  planSummary st (planSummaryRequest d dir workspace) = Ok pr ->
  IsLocked pr = true ->
  HasChanges pr = true ->
  In (PlanSummary (planSummaryRequest d dir workspace))
     (calls_of st (checkWorkspace d dir workspace) w) ->
  (exists pre,
     calls_of st (checkWorkspace d dir workspace) w =
       (pre ++ [PlanSummary (planSummaryRequest d dir workspace);
                StoreDriftCheckResult (driftCacheKey dir workspace)
                  {| When := clock st; Error := ""; Drift := true |}])%list /\
     List.filter isStore pre = []) /\
  List.filter isPlanDrift (calls_of st (checkWorkspace d dir workspace) w) = [] /\
  DriftedWorkspaceCount (run st (checkWorkspace d dir workspace) w).2 = DriftedWorkspaceCount w /\
  (storeDriftFails st (driftCacheKey dir workspace) = None ->
   (run st (checkWorkspace d dir workspace) w).1 = None /\
   driftCache (run st (checkWorkspace d dir workspace) w).2 !! (dir, workspace) =
     Some {| When := clock st; Error := ""; Drift := true |}).
Proof.
  intros Hplan Hlocked Hchg Hin.
  destruct (gate_passed st d dir workspace w Hin) as (pre & w1 & Hr & Hc & Hpre & Hnone & Hcount).
  assert (Hrec : driftRecord st pr = {| When := clock st; Error := ""; Drift := true |}).
  { unfold driftRecord. rewrite Hchg. reflexivity. }
  destruct (storeDriftFails st (driftCacheKey dir workspace)) as [serr |] eqn:Hstore.
  - destruct (query_store_fails st d dir workspace w1 pr serr Hplan Hstore) as [Hq Hqc].
    rewrite Hr, Hq, Hc, Hqc, Hrec. simpl.
    repeat split; try discriminate.
    + exists pre. split; [reflexivity | destruct Hpre as [-> | ->]; reflexivity].
    + destruct Hpre as [-> | ->]; reflexivity.
    + exact Hcount.
  - destruct (query_locked st d dir workspace w1 pr Hplan Hstore Hlocked) as [Hq Hqc].
    rewrite Hr, Hq, Hc, Hqc. unfold recorded. rewrite Hrec. simpl.
    repeat split.
    + exists pre. split; [reflexivity | destruct Hpre as [-> | ->]; reflexivity].
    + destruct Hpre as [-> | ->]; reflexivity.
    + exact Hcount.
    + apply lookup_insert_eq.
Qed.

(** C10.  When the plan query of a pair answers changed and not locked (and
    its record is stored), the counter is incremented by the call just
    before the drift notification, and by it only; the counter of the world
    after the check is one more than before whether or not the notification
    is delivered, and a failing notification ends the check with its error
    in that world. *)
Theorem drift_counted_before_notified (st : Stubs) (d : Drifter) (dir workspace : string)
    (w : World) (pr : PlanResult) :
  planSummary st (planSummaryRequest d dir workspace) = Ok pr ->
  HasChanges pr = true ->
  IsLocked pr = false ->
  storeDriftFails st (driftCacheKey dir workspace) = None ->
  In (PlanSummary (planSummaryRequest d dir workspace))
     (calls_of st (checkWorkspace d dir workspace) w) ->
  (exists pre,
     calls_of st (checkWorkspace d dir workspace) w =
       (pre ++ [AtomicAddInt32 1;
                NotifyPlanDrift dir workspace (GetPlanResultSummary pr)])%list /\
     Forall (fun o => forall delta, o <> AtomicAddInt32 delta) pre /\
     List.filter isPlanDrift pre = []) /\
  DriftedWorkspaceCount (run st (checkWorkspace d dir workspace) w).2 =
    add32 (DriftedWorkspaceCount w) 1 /\
  (forall nerr,
     planDrift st dir workspace (GetPlanResultSummary pr) = Some nerr ->
     (run st (checkWorkspace d dir workspace) w).1 =
       Some (fmt_Errorf ["failed to notify of plan drift in "; dir] nerr)) /\
  (planDrift st dir workspace (GetPlanResultSummary pr) = None ->
   (run st (checkWorkspace d dir workspace) w).1 = None).
Proof.
  intros Hplan Hchg Hlocked Hstore Hin.
  destruct (gate_passed st d dir workspace w Hin) as (pre & w1 & Hr & Hc & Hpre & Hnone & Hcount).
  destruct (query_drifted st d dir workspace w1 pr Hplan Hstore Hlocked Hchg) as [Hq Hqc].
  rewrite Hr, Hq, Hc, Hqc. simpl.
  repeat split.
  - exists (pre ++ [PlanSummary (planSummaryRequest d dir workspace);
                    StoreDriftCheckResult (driftCacheKey dir workspace) (driftRecord st pr)])%list.
    split; [rewrite <- app_assoc; reflexivity |].
    split.
    + destruct Hpre as [-> | ->]; repeat constructor; discriminate.
    + destruct Hpre as [-> | ->]; reflexivity.
  - rewrite Hcount. reflexivity.
  - intros nerr Hn. rewrite Hn. reflexivity.
  - intros Hn. rewrite Hn. reflexivity.
Qed.

(** ** The reconciler, one directory at a time *)

Lemma contains_elem_of (l : list string) (x : string) :
  contains l x = bool_decide (x ∈ l).
Proof.
  induction l as [| y l IH]; cbn [contains].
  - symmetry. apply bool_decide_eq_false_2, not_elem_of_nil.
  - destruct (String.eqb_spec y x) as [-> | Hne].
    + symmetry. apply bool_decide_eq_true_2. left.
    + rewrite IH. apply bool_decide_ext. rewrite elem_of_cons.
      split; [intros Hin; right; exact Hin | intros [Heq | Hin]; [congruence | exact Hin]].
Qed.

(** [contains] on the expected list picks out the workspaces the
    specification describes. *)
Lemma extras_undeclared (declared remote : list string) :
  extras (declared ++ ["default"]) remote = undeclared declared remote.
Proof.
  unfold extras, undeclared. induction remote as [| x remote IH]; simpl; [reflexivity |].
  rewrite IH, contains_elem_of.
  replace (bool_decide (x ∈ (declared ++ ["default"])%list))
    with (bool_decide (x ∈ declared) || bool_decide (x = "default")).
  - rewrite negb_orb. reflexivity.
  - rewrite <- bool_decide_or. apply bool_decide_ext.
    rewrite elem_of_app, list_elem_of_singleton. reflexivity.
Qed.

Section Reconciler.

Context (st : Stubs) (dir : string) (expected : list string).

Lemma extras_cons (x : string) (remote : list string) :
  extras expected (x :: remote) =
  if contains expected x then extras expected remote else x :: extras expected remote.
Proof. unfold extras. simpl. destruct (contains expected x); reflexivity. Qed.

Lemma reportIfExtra_expected (x : string) (w : World) :
  contains expected x = true ->
  run st (reportIfExtra dir expected x) w = (None, w) /\
  calls_of st (reportIfExtra dir expected x) w = [].
Proof. intros H. unfold reportIfExtra. rewrite H. split; reflexivity. Qed.

Lemma reportIfExtra_extra (x : string) (w : World) :
  contains expected x = false ->
  run st (reportIfExtra dir expected x) w =
    (match extraWorkspaceInRemote st dir x with
     | Some err => Some (fmt_Errorf ["failed to notify of extra workspace "; x; " in "; dir] err)
     | None => None
     end, log (NotifyExtraWorkspaceInRemote dir x) w) /\
  calls_of st (reportIfExtra dir expected x) w = [NotifyExtraWorkspaceInRemote dir x].
Proof.
  intros H. unfold reportIfExtra. rewrite H. simpl.
  destruct (extraWorkspaceInRemote st dir x); split; reflexivity.
Qed.

(** With a sink that accepts them, the loop sends one notification per
    extra, in order, and ends without an error. *)
Lemma reportExtraWorkspaces_delivered (remote : list string) (w : World) :
  (forall x, In x (extras expected remote) -> extraWorkspaceInRemote st dir x = None) ->
  (run st (reportExtraWorkspaces dir expected remote) w).1 = None /\
  calls_of st (reportExtraWorkspaces dir expected remote) w =
    map (NotifyExtraWorkspaceInRemote dir) (extras expected remote).
Proof.
  unfold reportExtraWorkspaces. revert w.
  induction remote as [| x remote IH]; intros w Hok; [split; reflexivity |].
  rewrite run_forRange_cons, calls_of_forRange_cons.
  rewrite extras_cons in Hok |- *.
  destruct (contains expected x) eqn:Hx.
  - destruct (reportIfExtra_expected x w Hx) as [-> ->]. apply IH, Hok.
  - destruct (reportIfExtra_extra x w Hx) as [-> ->].
    rewrite (Hok x (or_introl eq_refl)).
    destruct (IH (log (NotifyExtraWorkspaceInRemote dir x) w)) as [Hr Hc];
      [intros y Hy; apply Hok; right; exact Hy |].
    rewrite Hc. split; [exact Hr | reflexivity].
Qed.

(** A refused notification ends the loop with an error. *)
Lemma reportExtraWorkspaces_refused (remote : list string) (w : World) (x : string) (err : error) :
  In x (extras expected remote) ->
  extraWorkspaceInRemote st dir x = Some err ->
  exists y nerr,
    In y (extras expected remote) /\
    extraWorkspaceInRemote st dir y = Some nerr /\
    (run st (reportExtraWorkspaces dir expected remote) w).1 =
      Some (fmt_Errorf ["failed to notify of extra workspace "; y; " in "; dir] nerr).
Proof.
  unfold reportExtraWorkspaces. revert w.
  induction remote as [| z remote IH]; intros w Hin Hfail; [destruct Hin |].
  rewrite run_forRange_cons. rewrite extras_cons in Hin.
  setoid_rewrite extras_cons.
  destruct (contains expected z) eqn:Hz.
  - destruct (reportIfExtra_expected z w Hz) as [-> _]. apply IH; assumption.
  - destruct (reportIfExtra_extra z w Hz) as [-> _].
    destruct (extraWorkspaceInRemote st dir z) as [zerr |] eqn:Hzf.
    + exists z, zerr. split; [left; reflexivity | split; [exact Hzf | reflexivity]].
    + destruct Hin as [-> | Hin]; [congruence |].
      destruct (IH (log (NotifyExtraWorkspaceInRemote dir z) w) Hin Hfail)
        as (y & nerr & Hy & Hyf & Hr).
      exists y, nerr. split; [right; exact Hy | split; [exact Hyf | exact Hr]].
Qed.

(** The loop calls nothing but the sink and changes nothing but the
    trace. *)
Lemma reportExtraWorkspaces_quiet (remote : list string) (w : World) :
  Forall (fun o => isExtraWorkspace o = true)
         (calls_of st (reportExtraWorkspaces dir expected remote) w) /\
  workspacesCache (run st (reportExtraWorkspaces dir expected remote) w).2 = workspacesCache w /\
  driftCache (run st (reportExtraWorkspaces dir expected remote) w).2 = driftCache w /\
  DriftedWorkspaceCount (run st (reportExtraWorkspaces dir expected remote) w).2 =
    DriftedWorkspaceCount w.
Proof.
  unfold reportExtraWorkspaces. revert w.
  induction remote as [| x remote IH]; intros w; [repeat split; constructor |].
  rewrite run_forRange_cons, calls_of_forRange_cons.
  destruct (contains expected x) eqn:Hx.
  - destruct (reportIfExtra_expected x w Hx) as [-> ->]. apply IH.
  - destruct (reportIfExtra_extra x w Hx) as [-> ->].
    destruct (extraWorkspaceInRemote st dir x).
    + repeat split. repeat constructor.
    + destruct (IH (log (NotifyExtraWorkspaceInRemote dir x) w)) as (H1 & H2 & H3 & H4).
      repeat split; auto. constructor; [reflexivity | exact H1].
Qed.

End Reconciler.

Section ReconcilerDirectory.

Context (st : Stubs) (d : Drifter) (ws : DirectoriesWithWorkspaces) (dir : string).

Local Abbreviation expected := (ws_index ws dir ++ ["default"])%list.

Arguments reportExtraWorkspaces : simpl never.

(** [listAndNotify] up to the listing. *)
Lemma listAndNotify_init_fails (w : World) (err : error) :
  terraformInit st dir = Some err ->
  run st (listAndNotify d ws dir) w =
    (Some (fmt_Errorf ["failed to init workspace "; dir] err), log (TerraformInit dir) w) /\
  calls_of st (listAndNotify d ws dir) w = [TerraformInit dir].
Proof.
  intros H. unfold listAndNotify. simpl. rewrite H. split; reflexivity.
Qed.

Lemma listAndNotify_list_fails (w : World) (err : error) :
  terraformInit st dir = None ->
  terraformListWorkspaces st dir = Err err ->
  run st (listAndNotify d ws dir) w =
    (Some (fmt_Errorf ["failed to list workspaces in "; dir] err),
     log (TerraformListWorkspaces dir) (log (TerraformInit dir) w)) /\
  calls_of st (listAndNotify d ws dir) w = [TerraformInit dir; TerraformListWorkspaces dir].
Proof.
  intros Hi Hl. unfold listAndNotify. simpl. rewrite Hi. simpl. rewrite Hl.
  split; reflexivity.
Qed.

(** [listAndNotify] after a listing: the loop, then, if the loop ended
    without an error, the store. *)
Lemma listAndNotify_listed (w : World) (remote : list string) :
  terraformInit st dir = None ->
  terraformListWorkspaces st dir = Ok remote ->
  let w1 := log (TerraformListWorkspaces dir) (log (TerraformInit dir) w) in
  let loop := reportExtraWorkspaces dir expected remote in
  calls_of st (listAndNotify d ws dir) w =
    (TerraformInit dir :: TerraformListWorkspaces dir :: calls_of st loop w1 ++
     match (run st loop w1).1 with
     | Some _ => []
     | None => [StoreRemoteWorkspaces dir (listingRecord st remote)]
     end)%list /\
  (run st (listAndNotify d ws dir) w).1 =
    match (run st loop w1).1 with
    | Some err => Some err
    | None =>
        match storeRemoteFails st dir with
        | Some err => Some (fmt_Errorf ["failed to store cache value for "; dir] err)
        | None => None
        end
    end /\
  workspacesCache (run st (listAndNotify d ws dir) w).2 =
    match (run st loop w1).1, storeRemoteFails st dir with
    | None, None => <[dir := listingRecord st remote]> (workspacesCache w)
    | _, _ => workspacesCache w
    end.
Proof.
  intros Hi Hl w1 loop. unfold listAndNotify. simpl. rewrite Hi. simpl. rewrite Hl.
  fold w1. fold loop.
  rewrite run_bind, calls_of_bind.
  destruct (reportExtraWorkspaces_quiet st dir expected remote w1) as (_ & Hws & _ & _).
  fold loop in Hws.
  destruct (run st loop w1) as [[lerr |] w2] eqn:Hloop; simpl in Hws |- *.
  - rewrite Hws. auto.
  - unfold listingRecord.
    destruct (storeRemoteFails st dir); simpl; rewrite Hws; auto.
Qed.

(** The ways through the cache gate of the reconciler. *)
Lemma runFunc_filtered (w : World) :
  shouldSkipDirectory d dir = true ->
  run st (runFunc d ws dir) w = (None, w) /\ calls_of st (runFunc d ws dir) w = [].
Proof. intros H. unfold runFunc. rewrite H. split; reflexivity. Qed.

Lemma runFunc_gate (w : World) :
  (List.filter isStore (calls_of st (runFunc d ws dir) w) = [] /\
   List.filter isExtraWorkspace (calls_of st (runFunc d ws dir) w) = [] /\
   ~ In (TerraformListWorkspaces dir) (calls_of st (runFunc d ws dir) w) /\
   (workspacesCache (run st (runFunc d ws dir) w).2 = workspacesCache w \/
    workspacesCache (run st (runFunc d ws dir) w).2 = delete dir (workspacesCache w))) \/
  (exists pre w1,
     run st (runFunc d ws dir) w = run st (listAndNotify d ws dir) w1 /\
     calls_of st (runFunc d ws dir) w = (pre ++ calls_of st (listAndNotify d ws dir) w1)%list /\
     (pre = [GetRemoteWorkspaces dir] \/
      pre = [GetRemoteWorkspaces dir; DeleteRemoteWorkspaces dir]) /\
     workspacesCache w1 !! dir = None /\
     (workspacesCache w1 = workspacesCache w \/
      workspacesCache w1 = delete dir (workspacesCache w))).
Proof.
  unfold runFunc.
  destruct (shouldSkipDirectory d dir); [left; simpl; intuition |].
  simpl.
  destruct (getRemoteFails st dir) as [err |] eqn:Hget; simpl.
  { left. intuition discriminate. }
  destruct (workspacesCache w !! dir) as [cacheVal |] eqn:Hrec; simpl.
  2:{ right. exists [GetRemoteWorkspaces dir], (log (GetRemoteWorkspaces dir) w).
      simpl. repeat split; auto. }
  destruct (time_Sub (clock st) (WsWhen cacheVal) <? CacheValidDuration d); simpl.
  { left. intuition discriminate. }
  destruct (deleteRemoteFails st dir) as [err |] eqn:Hdel; simpl.
  { left. intuition discriminate. }
  right.
  exists [GetRemoteWorkspaces dir; DeleteRemoteWorkspaces dir],
         (set_workspacesCache (delete dir)
            (log (DeleteRemoteWorkspaces dir) (log (GetRemoteWorkspaces dir) w))).
  simpl. repeat split; auto. apply lookup_delete_eq.
Qed.

End ReconcilerDirectory.

Lemma filter_extra_notifications (dir : string) (l : list string) :
  List.filter isExtraWorkspace (map (NotifyExtraWorkspaceInRemote dir) l) =
  map (NotifyExtraWorkspaceInRemote dir) l.
Proof. induction l as [| x l IH]; simpl; [reflexivity | rewrite IH; reflexivity]. Qed.

Lemma filter_store_notifications (l : list op) :
  Forall (fun o => isExtraWorkspace o = true) l -> List.filter isStore l = [].
Proof.
  induction 1 as [| o l Ho _ IH]; simpl; [reflexivity |].
  destruct o; try discriminate Ho; exact IH.
Qed.

(** A directory whose remote workspaces are listed has come through the
    filter, the gate and [terraform init]. *)
Lemma listing_reached (st : Stubs) (d : Drifter) (ws : DirectoriesWithWorkspaces)
    (dir : string) (w : World) :
  In (TerraformListWorkspaces dir) (calls_of st (runFunc d ws dir) w) ->
  terraformInit st dir = None /\
  exists pre w1,
    run st (runFunc d ws dir) w = run st (listAndNotify d ws dir) w1 /\
    calls_of st (runFunc d ws dir) w = (pre ++ calls_of st (listAndNotify d ws dir) w1)%list /\
    (pre = [GetRemoteWorkspaces dir] \/
     pre = [GetRemoteWorkspaces dir; DeleteRemoteWorkspaces dir]).
Proof.
  intros Hin.
  destruct (runFunc_gate st d ws dir w) as [(_ & _ & Hno & _) | (pre & w1 & Hr & Hc & Hpre & _)];
    [contradiction |].
  destruct (terraformInit st dir) as [err |] eqn:Hinit.
  - destruct (listAndNotify_init_fails st d ws dir w1 err Hinit) as [_ Hl].
    rewrite Hc, Hl in Hin. apply in_app_or in Hin.
    destruct Hpre as [-> | ->]; simpl in Hin; intuition discriminate.
  - split; [reflexivity |]. exists pre, w1. auto.
Qed.

(** C6.  For a directory whose remote workspaces are listed, and with a sink
    that accepts what it is sent, the extra-workspace notifications of the
    directory are exactly one per listed workspace that is neither declared
    for the directory nor "default", in the order of the listing. *)
Theorem extra_workspaces_reported_in_order (st : Stubs) (d : Drifter)
    (ws : DirectoriesWithWorkspaces) (dir : string) (w : World) (remote : list string) :
  In (TerraformListWorkspaces dir) (calls_of st (runFunc d ws dir) w) ->
  terraformListWorkspaces st dir = Ok remote ->
  (forall x, In x (undeclared (ws_index ws dir) remote) ->
             extraWorkspaceInRemote st dir x = None) ->
  List.filter isExtraWorkspace (calls_of st (runFunc d ws dir) w) =
    map (NotifyExtraWorkspaceInRemote dir) (undeclared (ws_index ws dir) remote).
Proof.
  intros Hin Hlist Hsink.
  destruct (listing_reached st d ws dir w Hin) as (Hinit & pre & w1 & _ & Hc & Hpre).
  destruct (listAndNotify_listed st d ws dir w1 remote Hinit Hlist) as (Hl & _ & _).
  rewrite <- extras_undeclared in Hsink |- *.
  destruct (reportExtraWorkspaces_delivered st dir _ remote
              (log (TerraformListWorkspaces dir) (log (TerraformInit dir) w1)) Hsink)
    as [Hres Hloop].
  rewrite Hc, Hl, Hres, Hloop, List.filter_app. simpl.
  rewrite List.filter_app, filter_extra_notifications. simpl.
  rewrite app_nil_r. destruct Hpre as [-> | ->]; reflexivity.
Qed.

(** C9.  When [terraform init] fails for a directory, or the listing fails,
    or the sink refuses the notification of one of its extra workspaces, the
    pass over the directory makes no store call and the workspace-listing
    cache holds no new record for it.  A store that is made is the last call
    of the pass, made after an init and a listing that succeeded and after
    every notification of the directory was accepted. *)
Theorem workspace_record_stored_only_after_success (st : Stubs) (d : Drifter)
    (ws : DirectoriesWithWorkspaces) (dir : string) (w : World) :
  ((terraformInit st dir <> None \/
    (exists err, terraformListWorkspaces st dir = Err err) \/
    (exists remote x,
       terraformListWorkspaces st dir = Ok remote /\
       In x (undeclared (ws_index ws dir) remote) /\
       extraWorkspaceInRemote st dir x <> None)) ->
   List.filter isStore (calls_of st (runFunc d ws dir) w) = [] /\
   (workspacesCache (run st (runFunc d ws dir) w).2 = workspacesCache w \/
    workspacesCache (run st (runFunc d ws dir) w).2 = delete dir (workspacesCache w))) /\
  (forall val,
     In (StoreRemoteWorkspaces dir val) (calls_of st (runFunc d ws dir) w) ->
     exists pre remote,
       calls_of st (runFunc d ws dir) w = (pre ++ [StoreRemoteWorkspaces dir val])%list /\
       List.filter isStore pre = [] /\
       val = listingRecord st remote /\
       terraformInit st dir = None /\
       terraformListWorkspaces st dir = Ok remote /\
       List.filter isExtraWorkspace pre =
         map (NotifyExtraWorkspaceInRemote dir) (undeclared (ws_index ws dir) remote) /\
       (forall x, In x (undeclared (ws_index ws dir) remote) ->
                  extraWorkspaceInRemote st dir x = None)).
Proof.
  destruct (runFunc_gate st d ws dir w)
    as [(Hstore & _ & _ & Hcache) | (pre & w1 & Hr & Hc & Hpre & _ & Hw1)].
  { split; [intros _; split; assumption |].
    intros val Hin. exfalso.
    assert (Hf : In (StoreRemoteWorkspaces dir val)
                    (List.filter isStore (calls_of st (runFunc d ws dir) w)))
      by (apply List.filter_In; split; [exact Hin | reflexivity]).
    rewrite Hstore in Hf. destruct Hf. }
  assert (Hprestore : List.filter isStore pre = [])
    by (destruct Hpre as [-> | ->]; reflexivity).
  assert (Hpreextra : List.filter isExtraWorkspace pre = [])
    by (destruct Hpre as [-> | ->]; reflexivity).
  assert (Hcache : forall w2, workspacesCache w2 = workspacesCache w1 ->
            workspacesCache w2 = workspacesCache w \/
            workspacesCache w2 = delete dir (workspacesCache w))
    by (intros w2 ->; exact Hw1).
  rewrite Hr, Hc.
  destruct (terraformInit st dir) as [ierr |] eqn:Hinit.
  { destruct (listAndNotify_init_fails st d ws dir w1 ierr Hinit) as [Hlr Hlc].
    rewrite Hlr, Hlc. split.
    - intros _. rewrite List.filter_app, Hprestore. split; [reflexivity |].
      apply Hcache. reflexivity.
    - intros val Hin. apply in_app_or in Hin.
      destruct Hpre as [-> | ->]; simpl in Hin; intuition discriminate. }
  destruct (terraformListWorkspaces st dir) as [remote | lerr] eqn:Hlist.
  2:{ destruct (listAndNotify_list_fails st d ws dir w1 lerr Hinit Hlist) as [Hlr Hlc].
      rewrite Hlr, Hlc. split.
      - intros _. rewrite List.filter_app, Hprestore. split; [reflexivity |].
        apply Hcache. reflexivity.
      - intros val Hin. apply in_app_or in Hin.
        destruct Hpre as [-> | ->]; simpl in Hin; intuition discriminate. }
  destruct (listAndNotify_listed st d ws dir w1 remote Hinit Hlist) as (Hlc & Hlr & Hlw).
  destruct (reportExtraWorkspaces_quiet st dir (ws_index ws dir ++ ["default"])%list remote
              (log (TerraformListWorkspaces dir) (log (TerraformInit dir) w1)))
    as (Hquiet & _).
  pose proof (filter_store_notifications _ Hquiet) as Hloopstore.
  rewrite Hlc, Hlw.
  destruct (run st (reportExtraWorkspaces dir (ws_index ws dir ++ ["default"]) remote)
              (log (TerraformListWorkspaces dir) (log (TerraformInit dir) w1))).1
    as [loopErr |] eqn:Hloop.
  - (* the loop ended with an error: nothing is stored *)
    split.
    + intros _. rewrite List.filter_app, Hprestore. simpl.
      rewrite List.filter_app, Hloopstore. split; [reflexivity |].
      apply Hcache. reflexivity.
    + intros val Hin. exfalso.
      assert (Hf : In (StoreRemoteWorkspaces dir val)
                      (List.filter isStore
                         (pre ++ TerraformInit dir :: TerraformListWorkspaces dir ::
                          calls_of st (reportExtraWorkspaces dir (ws_index ws dir ++ ["default"]) remote)
                            (log (TerraformListWorkspaces dir) (log (TerraformInit dir) w1)) ++ [])))
        by (apply List.filter_In; split; [exact Hin | reflexivity]).
      rewrite List.filter_app, Hprestore in Hf. simpl in Hf.
      rewrite List.filter_app, Hloopstore in Hf. destruct Hf.
  - (* the loop ended without an error: every notification was accepted *)
    assert (Hacc : forall x, In x (undeclared (ws_index ws dir) remote) ->
                             extraWorkspaceInRemote st dir x = None).
    { intros x Hx. rewrite <- extras_undeclared in Hx.
      destruct (extraWorkspaceInRemote st dir x) as [xerr |] eqn:Hxf; [exfalso | reflexivity].
      destruct (reportExtraWorkspaces_refused st dir _ remote
                  (log (TerraformListWorkspaces dir) (log (TerraformInit dir) w1)) x xerr Hx Hxf)
        as (y & nerr & _ & _ & Hbad).
      rewrite Hloop in Hbad. discriminate. }
    split.
    + intros [Hbad | [[err Hbad] | (remote' & x & Hl' & Hx & Hbad)]];
        [congruence | congruence |].
      injection Hl' as <-. exfalso. apply Hbad, Hacc, Hx.
    + intros val Hin.
      exists (pre ++ TerraformInit dir :: TerraformListWorkspaces dir ::
              calls_of st (reportExtraWorkspaces dir (ws_index ws dir ++ ["default"]) remote)
                (log (TerraformListWorkspaces dir) (log (TerraformInit dir) w1)))%list, remote.
      assert (Hval : val = listingRecord st remote).
      { apply in_app_or in Hin. destruct Hin as [Hin | Hin].
        - destruct Hpre as [-> | ->]; simpl in Hin; intuition discriminate.
        - simpl in Hin. destruct Hin as [Hin | [Hin | Hin]]; try discriminate.
          apply in_app_or in Hin. destruct Hin as [Hin | Hin].
          + rewrite Forall_forall in Hquiet.
            apply list_elem_of_In, Hquiet in Hin. discriminate.
          + simpl in Hin. destruct Hin as [Hin | []]. congruence. }
      subst val.
      split; [rewrite <- app_assoc; reflexivity |].
      split; [rewrite List.filter_app, Hprestore; simpl;
              rewrite Hloopstore; reflexivity |].
      split; [reflexivity |].
      split; [reflexivity |].
      split; [reflexivity |].
      split; [| exact Hacc].
      rewrite <- extras_undeclared in Hacc |- *.
      destruct (reportExtraWorkspaces_delivered st dir _ remote
                  (log (TerraformListWorkspaces dir) (log (TerraformInit dir) w1)) Hacc)
        as [_ Hdel].
      rewrite List.filter_app, Hpreextra. simpl. rewrite Hdel.
      apply filter_extra_notifications.
Qed.

(** The cache gate of the reconciler works like the one of the drift
    checker: a listing record is used to skip the directory exactly when
    its age is below the TTL, and a stale one is deleted before
    [terraform init]. *)
Lemma listing_record_trusted_iff_fresh (st : Stubs) (d : Drifter)
    (ws : DirectoriesWithWorkspaces) (dir : string) (w : World)
    (cacheVal : WorkspacesCheckedValue) :
  shouldSkipDirectory d dir = false ->
  getRemoteFails st dir = None ->
  workspacesCache w !! dir = Some cacheVal ->
  (age st (WsWhen cacheVal) < CacheValidDuration d <->
   run st (runFunc d ws dir) w = (None, log (GetRemoteWorkspaces dir) w)) /\
  (CacheValidDuration d <= age st (WsWhen cacheVal) ->
   deleteRemoteFails st dir = None ->
   run st (runFunc d ws dir) w =
     run st (listAndNotify d ws dir)
       (set_workspacesCache (delete dir)
          (log (DeleteRemoteWorkspaces dir) (log (GetRemoteWorkspaces dir) w)))).
Proof.
  intros Hskip Hget Hrec.
  pose proof (trace_run st (runFunc d ws dir) w) as Htr.
  unfold runFunc in *. rewrite Hskip in *. simpl in *. rewrite Hget, Hrec in *. simpl in *.
  unfold age.
  destruct (Z.ltb_spec (time_Sub (clock st) (WsWhen cacheVal)) (CacheValidDuration d))
    as [Hage | Hage]; simpl in *.
  - split; [split; [reflexivity | intros _; exact Hage] | lia].
  - split.
    + split; [lia |]. intros Hrun. exfalso.
      rewrite Hrun in Htr. simpl in Htr. apply app_inv_head in Htr. discriminate.
    + intros _ Hdel. rewrite Hdel. reflexivity.
Qed.

(** ** The scheduler on one goroutine *)

Lemma drainAndExecute_le_1 (st : Stubs) (d : Drifter) (toRun : list errFunc) (w : World)
    (res : option error) (w' : World) :
  ParallelRuns d <= 1 ->
  drainAndExecute st d toRun w res w' <->
  run st (drainAndExecute_sequential toRun) w = (res, w').
Proof.
  intros Hle. split.
  - intros H. destruct H as [res w' _ Hrun | sched p Hgt _ _]; [exact Hrun | lia].
  - intros H. apply drain_sequential; assumption.
Qed.

Lemma in_order_app_stop (st : Stubs) (pre : list errFunc) (r : errFunc) (post : list errFunc)
    (w w1 : World) (err : error) (w2 : World) :
  in_order st pre w None w1 ->
  run st r w1 = (Some err, w2) ->
  in_order st (pre ++ r :: post) w (Some err) w2.
Proof.
  intros Hpre Hr. remember None as res eqn:Hres.
  induction Hpre as [w | r0 rest w err0 w' Hr0 | r0 rest w w0 res w' Hr0 Hrest IH].
  - apply in_order_stop. exact Hr.
  - discriminate.
  - simpl. eapply in_order_next; [exact Hr0 | apply IH; assumption].
Qed.

(** C7.  With [ParallelRuns] at most 1 the scheduler has an outcome, and its
    outcomes are those of running the work functions in list order: at the
    first function that returns an error it returns that error from the
    world that function left, so that no later function has run; when every
    function returns nil it returns nil. *)
Theorem sequential_scheduler_runs_in_order (st : Stubs) (d : Drifter)
    (toRun : list errFunc) (w : World) :
  ParallelRuns d <= 1 ->
  (exists res w', drainAndExecute st d toRun w res w') /\
  (forall res w', drainAndExecute st d toRun w res w' <-> in_order st toRun w res w') /\
  (forall pre r post w1 err w2,
     toRun = (pre ++ r :: post)%list ->
     in_order st pre w None w1 ->
     run st r w1 = (Some err, w2) ->
     drainAndExecute st d toRun w (Some err) w2).
Proof.
  intros Hle.
  assert (Hiff : forall res w',
            drainAndExecute st d toRun w res w' <-> in_order st toRun w res w').
  { intros res w'. rewrite (drainAndExecute_le_1 st d toRun w res w' Hle).
    apply drainAndExecute_sequential_in_order. }
  split; [| split; [exact Hiff |]].
  - destruct (run st (drainAndExecute_sequential toRun) w) as [res w'] eqn:Hrun.
    exists res, w'. apply drain_sequential; assumption.
  - intros pre r post w1 err w2 -> Hpre Hr.
    apply Hiff. eapply in_order_app_stop; eassumption.
Qed.

(** ** A whole run on one goroutine *)

Lemma Drift_sequential_outcome (st : Stubs) (d : Drifter) (w : World)
    (res : option error) (w' : World) :
  ParallelRuns d <= 1 ->
  Drifter_Drift st d w res w' <-> run st (Drift_sequential d) w = (res, w').
Proof.
  intros Hle.
  assert (Hdrift : forall ws w1 r w2,
            FindDriftedWorkspaces st d ws w1 r w2 <->
            run st (FindDriftedWorkspaces_sequential d ws) w1 = (r, w2)).
  { intros. apply drainAndExecute_le_1. exact Hle. }
  assert (Hextra : forall ws w1 r w2,
            FindExtraWorkspaces st d ws w1 r w2 <->
            run st (FindExtraWorkspaces_sequential d ws) w1 = (r, w2)).
  { intros. unfold FindExtraWorkspaces, FindExtraWorkspaces_sequential.
    destruct (SkipWorkspaceCheck d).
    - simpl. split; [intros [-> ->]; reflexivity | intros [= <- <-]; auto].
    - apply drainAndExecute_le_1. exact Hle. }
  unfold Drift_sequential. rewrite run_bind. split.
  - intros H.
    destruct H as [err w1 Hp | ws w1 err w2 Hp Hd | ws w1 w2 err w3 Hp Hd He
                   | ws w1 w2 w3 res w4 Hp Hd He Hs]; rewrite Hp.
    + reflexivity.
    + apply Hdrift in Hd. rewrite run_bind, Hd. reflexivity.
    + apply Hdrift in Hd. apply Hextra in He. rewrite run_bind, Hd, run_bind, He. reflexivity.
    + apply Hdrift in Hd. apply Hextra in He. rewrite run_bind, Hd, run_bind, He. exact Hs.
  - destruct (run st (checkOutAndParse d) w) as [[ws | err] w1] eqn:Hp.
    2:{ intros [= <- <-]. apply Drift_no_workspaces. exact Hp. }
    rewrite run_bind.
    destruct (run st (FindDriftedWorkspaces_sequential d ws) w1) as [[derr |] w2] eqn:Hd.
    { intros [= <- <-]. eapply Drift_drift_failed; [exact Hp | apply Hdrift, Hd]. }
    rewrite run_bind.
    destruct (run st (FindExtraWorkspaces_sequential d ws) w2) as [[eerr |] w3] eqn:He.
    { intros [= <- <-].
      eapply Drift_extra_failed; [exact Hp | apply Hdrift, Hd | apply Hextra, He]. }
    intros Hs.
    eapply Drift_finished; [exact Hp | apply Hdrift, Hd | apply Hextra, He | exact Hs].
Qed.

(** ** Whole runs *)

(** On one goroutine a run has one outcome. *)
Lemma one_goroutine_one_outcome (st : Stubs) (d : Drifter) (w : World)
    (res1 res2 : option error) (w1 w2 : World) :
  ParallelRuns d <= 1 ->
  Drifter_Drift st d w res1 w1 ->
  Drifter_Drift st d w res2 w2 ->
  res1 = res2 /\ w1 = w2.
Proof.
  intros Hle H1 H2.
  apply Drift_sequential_outcome in H1; [| exact Hle].
  apply Drift_sequential_outcome in H2; [| exact Hle].
  rewrite H1 in H2. injection H2 as -> ->. auto.
Qed.

(** The end-to-end scenario on one goroutine: the run ends without an
    error with the counter at 1; its notifications are the drift of
    infra/db and then one summary, the last call of the run; the summary
    carries the one value the engine passes, the drifted count 1, and not
    the three values drifted, undrifted and total. *)
Lemma summary_of_two_directories :
  Drifter_Drift calm (drifter 1) emptyWorld None calmEnd /\
  DriftedWorkspaceCount calmEnd = 1 /\
  notifications (trace calmEnd) =
    [NotifyPlanDrift "infra/db" "prod" "Plan: 0 to add, 1 to change, 0 to destroy.";
     NotifyWorkspaceDriftSummary [1]] /\
  last (trace calmEnd) = Some (NotifyWorkspaceDriftSummary [1]) /\
  List.filter isSummary (trace calmEnd) = [NotifyWorkspaceDriftSummary [1]] /\
  List.filter isSummary (trace calmEnd) <> [NotifyWorkspaceDriftSummary expectedSummary].
Proof.
  split.
  - apply Drift_sequential_outcome; [vm_compute; discriminate |].
    vm_compute. reflexivity.
  - vm_compute. repeat split; try reflexivity. discriminate.
Qed.

(** C1 (as stated).  The summary does not carry three values: in the
    end-to-end scenario, one drifted and one clean workspace in two
    directories, the run ends without an error and its one summary carries
    the single value 1, so no three values, and in particular not
    (1, 1, 2), are what the engine sends. *)
Theorem summary_carries_one_value : ~ summary_carries_three_values.
Proof.
  intros Hclaim.
  destruct summary_of_two_directories as (Hrun & _ & _ & _ & Hone & _).
  destruct (Hclaim calm (drifter 1) emptyWorld calmEnd eq_refl Hrun)
    as (drifted & undrifted & total & Hthree).
  rewrite Hone in Hthree. discriminate.
Qed.

(** C2.  The same scenario with a sink that refuses the summary: the run
    sends the summary as its last call, the sink answers with an error, and
    the run ends with nil. *)
Theorem refused_summary_is_dropped :
  Drifter_Drift summaryRefused (drifter 1) emptyWorld None refusedEnd /\
  last (trace refusedEnd) = Some (NotifyWorkspaceDriftSummary [1]) /\
  workspaceDriftSummary summaryRefused [1] = Some webhookDown.
Proof.
  split.
  - apply Drift_sequential_outcome; [vm_compute; discriminate |].
    vm_compute. reflexivity.
  - vm_compute. split; reflexivity.
Qed.

(** The errors of the other two notifications do end the run: a refused
    drift notification and a refused extra-workspace notification come back
    from [Drift] wrapped. *)
Lemma refused_drift_notification_ends_run :
  exists err w',
    Drifter_Drift deafSink (drifter 1) emptyWorld (Some err) w' /\
    unwraps_to err webhookDown /\
    last (trace w') =
      Some (NotifyPlanDrift "infra/db" "prod" "Plan: 0 to add, 1 to change, 0 to destroy.").
Proof.
  destruct (run deafSink (Drift_sequential (drifter 1)) emptyWorld) as [res w'] eqn:Hrun.
  pose proof Hrun as Hout.
  apply Drift_sequential_outcome in Hout; [| vm_compute; discriminate].
  vm_compute in Hrun. injection Hrun as <- <-.
  eexists. eexists. split; [exact Hout |].
  split; [simpl; auto | reflexivity].
Qed.

Lemma refused_extra_notification_ends_run :
  exists err w',
    Drifter_Drift (with_parsed declaredAB
                     (with_sink (fun _ _ _ => None) (fun _ _ => Some webhookDown)
                                (fun _ => None) remoteABC))
                  (drifter 1) emptyWorld (Some err) w' /\
    unwraps_to err webhookDown /\
    last (trace w') = Some (NotifyExtraWorkspaceInRemote "infra/app" "c").
Proof.
  destruct (run (with_parsed declaredAB
                   (with_sink (fun _ _ _ => None) (fun _ _ => Some webhookDown)
                              (fun _ => None) remoteABC))
                (Drift_sequential (drifter 1)) emptyWorld) as [res w'] eqn:Hrun.
  pose proof Hrun as Hout.
  apply Drift_sequential_outcome in Hout; [| vm_compute; discriminate].
  vm_compute in Hrun. injection Hrun as <- <-.
  eexists. eexists. split; [exact Hout |].
  split; [simpl; auto | reflexivity].
Qed.

(** ** Work functions of different directories do not meet *)

Lemma same_view_refl (dir : string) (w : World) : same_view dir w w.
Proof. split; reflexivity. Qed.

Lemma same_view_sym (dir : string) (w1 w2 : World) :
  same_view dir w1 w2 -> same_view dir w2 w1.
Proof. intros [H1 H2]. split; [intros ?; symmetry; apply H1 | symmetry; exact H2]. Qed.

Lemma same_view_trans (dir : string) (w1 w2 w3 : World) :
  same_view dir w1 w2 -> same_view dir w2 w3 -> same_view dir w1 w3.
Proof.
  intros [H1 H2] [H3 H4].
  split; [intros ?; rewrite H1; apply H3 | rewrite H2; exact H4].
Qed.

Section Frame.

Context (st : Stubs).

(** A call within a directory answers from the view of the directory and
    keeps equal views equal. *)
Lemma handle_frame (dir : string) (o : op) (w1 w2 : World) :
  op_within dir o ->
  same_view dir w1 w2 ->
  (handle st o w1).1 = (handle st o w2).1 /\
  same_view dir (handle st o w1).2 (handle st o w2).2.
Proof.
  intros Ho [Hd Hw].
  destruct o; simpl in Ho |- *; try (split; [reflexivity | split; assumption]);
    try contradiction.
  - (* GetDriftCheckResult *)
    destruct key as [kd kw]. simpl in Ho. subst kd. unfold driftKey. simpl.
    rewrite Hd. split; [reflexivity | split; assumption].
  - (* DeleteDriftCheckResult *)
    split; [reflexivity |].
    destruct (deleteDriftFails st key); simpl; [split; assumption |].
    split; [| exact Hw]. intros workspace. simpl.
    rewrite !lookup_delete. destruct (decide _); [reflexivity | apply Hd].
  - (* StoreDriftCheckResult *)
    split; [reflexivity |].
    destruct (storeDriftFails st key); simpl; [split; assumption |].
    split; [| exact Hw]. intros workspace. simpl.
    rewrite !lookup_insert. destruct (decide _); [reflexivity | apply Hd].
  - (* GetRemoteWorkspaces *)
    subst dir0. rewrite Hw. split; [reflexivity | split; assumption].
  - (* DeleteRemoteWorkspaces *)
    subst dir0. split; [reflexivity |].
    destruct (deleteRemoteFails st dir); simpl; [split; assumption |].
    split; [exact Hd |]. simpl. rewrite !lookup_delete_eq. reflexivity.
  - (* StoreRemoteWorkspaces *)
    subst dir0. split; [reflexivity |].
    destruct (storeRemoteFails st dir); simpl; [split; assumption |].
    split; [exact Hd |]. simpl. rewrite !lookup_insert_eq. reflexivity.
Qed.

(** A call within a directory leaves the view of every other directory
    as it was. *)
Lemma handle_elsewhere (dir dir' : string) (o : op) (w : World) :
  op_within dir o ->
  dir' <> dir ->
  same_view dir' (handle st o w).2 w.
Proof.
  intros Ho Hne.
  destruct o; simpl in Ho |- *; try contradiction; try (split; reflexivity).
  - destruct (deleteDriftFails st key); simpl; [split; reflexivity |].
    split; [| reflexivity]. intros workspace. simpl.
    apply lookup_delete_ne. unfold driftKey. rewrite Ho. congruence.
  - destruct (storeDriftFails st key); simpl; [split; reflexivity |].
    split; [| reflexivity]. intros workspace. simpl.
    apply lookup_insert_ne. unfold driftKey. rewrite Ho. congruence.
  - destruct (deleteRemoteFails st dir0); simpl; [split; reflexivity |].
    split; [reflexivity |]. simpl. apply lookup_delete_ne. congruence.
  - destruct (storeRemoteFails st dir0); simpl; [split; reflexivity |].
    split; [reflexivity |]. simpl. apply lookup_insert_ne. congruence.
Qed.

Lemma run_frame {A : Type} (dir : string) (p : prog A) (w1 w2 : World) :
  within dir p ->
  same_view dir w1 w2 ->
  (run st p w1).1 = (run st p w2).1 /\
  calls_of st p w1 = calls_of st p w2 /\
  same_view dir (run st p w1).2 (run st p w2).2.
Proof.
  revert w1 w2. induction p as [a | o k IH]; intros w1 w2 Hp Hv; simpl.
  - auto.
  - destruct Hp as [Ho Hk].
    destruct (handle_frame dir o w1 w2 Ho Hv) as [Hx Hv'].
    destruct (handle st o w1) as [x1 w1'], (handle st o w2) as [x2 w2'].
    simpl in Hx, Hv'. subst x2.
    destruct (IH x1 w1' w2' (Hk x1) Hv') as (Hr & Hc & Hf).
    rewrite Hc. auto.
Qed.

Lemma run_elsewhere {A : Type} (dir dir' : string) (p : prog A) (w : World) :
  within dir p ->
  dir' <> dir ->
  same_view dir' (run st p w).2 w.
Proof.
  revert w. induction p as [a | o k IH]; intros w Hp Hne; simpl.
  - apply same_view_refl.
  - destruct Hp as [Ho Hk].
    pose proof (handle_elsewhere dir dir' o w Ho Hne) as Hv.
    destruct (handle st o w) as [x w']. simpl in Hv.
    eapply same_view_trans; [apply IH; auto | exact Hv].
Qed.

End Frame.

(** The work functions of both passes stay within their directory. *)
Lemma within_bind {A B : Type} (dir : string) (m : prog A) (f : A -> prog B) :
  within dir m -> (forall a, within dir (f a)) -> within dir (bind m f).
Proof.
  induction m as [a | o k IH]; simpl; intros Hm Hf; [apply Hf |].
  destruct Hm as [Ho Hk]. split; [exact Ho | intros x; apply IH; auto].
Qed.

Lemma within_forRange {T : Type} (dir : string) (l : list T) (body : T -> errFunc) :
  (forall x, within dir (body x)) -> within dir (forRange l body).
Proof.
  intros Hbody. induction l as [| x l IH]; simpl; [exact I |].
  apply within_bind; [apply Hbody |]. intros [err |]; [exact I | exact IH].
Qed.

Ltac within_cases :=
  repeat (simpl;
          match goal with
          | |- True => exact I
          | |- _ /\ _ => split
          | |- forall _, _ => intro
          | |- _ = _ => reflexivity
          | |- context [match ?x with _ => _ end] => destruct x
          end).

Lemma within_checkWorkspace (d : Drifter) (dir workspace : string) :
  within dir (checkWorkspace d dir workspace).
Proof. unfold checkWorkspace, queryAndClassify. within_cases. Qed.

Lemma within_runningFunc (d : Drifter) (ws : DirectoriesWithWorkspaces) (dir : string) :
  within dir (runningFunc d ws dir).
Proof.
  unfold runningFunc. destruct (shouldSkipDirectory d dir); [exact I |].
  apply within_forRange. intros workspace. apply within_checkWorkspace.
Qed.

Lemma within_runFunc (d : Drifter) (ws : DirectoriesWithWorkspaces) (dir : string) :
  within dir (runFunc d ws dir).
Proof.
  assert (Hloop : forall expected remote,
            within dir (reportExtraWorkspaces dir expected remote)).
  { intros. apply within_forRange. intros x. unfold reportIfExtra. within_cases. }
  assert (Hlist : within dir (listAndNotify d ws dir)).
  { unfold listAndNotify. simpl. split; [exact I |]. intros [ierr |]; [exact I |].
    simpl. split; [exact I |]. intros [remote | lerr]; [| exact I].
    apply within_bind; [apply Hloop |]. intros [lerr |]; within_cases. }
  unfold runFunc. destruct (shouldSkipDirectory d dir); [exact I |].
  simpl. split; [reflexivity |]. intros [[cacheVal |] | err]; simpl; auto.
  split; [exact I |]. intros now.
  destruct (_ <? _); [exact I |]. simpl. split; [reflexivity |].
  intros [derr |]; [exact I | exact Hlist].
Qed.

(** ** The counter follows the trace *)

Lemma wrap32_add_l (a b : Z) : wrap32 (wrap32 a + b) = wrap32 (a + b).
Proof.
  unfold wrap32. f_equal.
  replace ((a + 2 ^ 31) mod 2 ^ 32 - 2 ^ 31 + b + 2 ^ 31)
    with ((a + 2 ^ 31) mod 2 ^ 32 + b) by lia.
  rewrite Zplus_mod_idemp_l. f_equal. lia.
Qed.

Lemma add32_comm_r (c a b : Z) : add32 (add32 c a) b = add32 (add32 c b) a.
Proof.
  unfold add32. rewrite !wrap32_add_l. f_equal. lia.
Qed.

Lemma counted_app (c : Z) (tr1 tr2 : list op) :
  counted c (tr1 ++ tr2) = counted (counted c tr1) tr2.
Proof. unfold counted. apply foldl_app. Qed.

Lemma counted_Permutation (c : Z) (tr1 tr2 : list op) :
  tr1 ≡ₚ tr2 -> counted c tr1 = counted c tr2.
Proof.
  intros H. revert c.
  induction H as [| o l1 l2 _ IH | o1 o2 l | l1 l2 l3 _ IH1 _ IH2]; intros c.
  - reflexivity.
  - unfold counted in *. simpl. apply IH.
  - unfold counted. simpl. f_equal.
    destruct o1, o2; try reflexivity. apply add32_comm_r.
  - rewrite IH1. apply IH2.
Qed.

Lemma handle_counted (st : Stubs) (o : op) (w : World) :
  DriftedWorkspaceCount (handle st o w).2 = counted (DriftedWorkspaceCount w) (logged o).
Proof.
  destruct o; simpl; unfold unless_fails;
    repeat match goal with |- context [match ?e with _ => _ end] => destruct e end;
    reflexivity.
Qed.

Lemma run_counted {A : Type} (st : Stubs) (p : prog A) (w : World) :
  DriftedWorkspaceCount (run st p w).2 =
  counted (DriftedWorkspaceCount w) (calls_of st p w).
Proof.
  revert w. induction p as [a | o k IH]; intros w; simpl; [reflexivity |].
  pose proof (handle_counted st o w) as Hc.
  destruct (handle st o w) as [x w']. simpl in Hc.
  rewrite IH, Hc, counted_app. reflexivity.
Qed.

(** ** Nothing depends on the order of the trace *)

Lemma same_outcome_refl (w : World) : same_outcome w w.
Proof. repeat split; reflexivity. Qed.

Lemma same_outcome_sym (w1 w2 : World) : same_outcome w1 w2 -> same_outcome w2 w1.
Proof. intros (H1 & H2 & H3 & H4). repeat split; auto. symmetry. exact H4. Qed.

Lemma same_outcome_trans (w1 w2 w3 : World) :
  same_outcome w1 w2 -> same_outcome w2 w3 -> same_outcome w1 w3.
Proof.
  intros (H1 & H2 & H3 & H4) (H5 & H6 & H7 & H8).
  repeat split; try congruence. rewrite H4. exact H8.
Qed.

Lemma handle_same_outcome (st : Stubs) (o : op) (w1 w2 : World) :
  same_outcome w1 w2 ->
  (handle st o w1).1 = (handle st o w2).1 /\
  same_outcome (handle st o w1).2 (handle st o w2).2.
Proof.
  intros (Hd & Hw & Hc & Ht).
  assert (Hlog : trace w1 ++ [o] ≡ₚ trace w2 ++ [o]) by (rewrite Ht; reflexivity).
  destruct o; simpl; unfold unless_fails, same_outcome;
    rewrite ?Hd, ?Hw, ?Hc;
    repeat match goal with |- context [match ?e with _ => _ end] => destruct e end;
    simpl; rewrite ?Hd, ?Hw, ?Hc; auto.
Qed.

Lemma run_same_outcome {A : Type} (st : Stubs) (p : prog A) (w1 w2 : World) :
  same_outcome w1 w2 ->
  (run st p w1).1 = (run st p w2).1 /\
  same_outcome (run st p w1).2 (run st p w2).2.
Proof.
  revert w1 w2. induction p as [a | o k IH]; intros w1 w2 Hw; simpl; [auto |].
  destruct (handle_same_outcome st o w1 w2 Hw) as [Hx Hw'].
  destruct (handle st o w1) as [x1 w1'], (handle st o w2) as [x2 w2'].
  simpl in Hx, Hw'. subst x2. apply IH. exact Hw'.
Qed.

(** ** The worker pool *)

Lemma gather_app {X : Type} (g : X -> list op) (l1 l2 : list X) :
  gather g (l1 ++ l2) = (gather g l1 ++ gather g l2)%list.
Proof.
  induction l1 as [| x l1 IH]; simpl; [reflexivity |].
  rewrite IH, app_assoc. reflexivity.
Qed.

Lemma gather_Permutation {X : Type} (g : X -> list op) (l1 l2 : list X) :
  l1 ≡ₚ l2 -> gather g l1 ≡ₚ gather g l2.
Proof.
  induction 1 as [| x l1 l2 _ IH | x y l | l1 l2 l3 _ IH1 _ IH2]; simpl.
  - reflexivity.
  - rewrite IH. reflexivity.
  - rewrite !app_assoc. apply Permutation_app_tail, Permutation_app_comm.
  - rewrite IH1. exact IH2.
Qed.

Lemma gather_ext {X : Type} (g1 g2 : X -> list op) (l : list X) :
  Forall (fun x => g1 x = g2 x) l -> gather g1 l = gather g2 l.
Proof.
  induction 1 as [| x l Hx _ IH]; simpl; [reflexivity |]. rewrite Hx, IH. reflexivity.
Qed.

(** Workers and the work functions they hold. *)
Lemma busy_insert_same (wks : list worker) (i : nat) (wk wk' : worker) :
  wks !! i = Some wk ->
  busy_prog wk = None ->
  busy_prog wk' = None ->
  omap busy_prog (<[i := wk']> wks) = omap busy_prog wks.
Proof.
  intros Hi Hwk Hwk'.
  rewrite insert_take_drop by (eapply lookup_lt_Some; exact Hi).
  rewrite <- (take_drop_middle wks i wk Hi) at 3.
  rewrite !omap_app. simpl. rewrite Hwk, Hwk'. reflexivity.
Qed.

Lemma busy_insert_start (wks : list worker) (i : nat) (wk : worker) (r : errFunc) :
  wks !! i = Some wk ->
  busy_prog wk = None ->
  omap busy_prog (<[i := Busy r]> wks) ≡ₚ r :: omap busy_prog wks.
Proof.
  intros Hi Hwk.
  rewrite insert_take_drop by (eapply lookup_lt_Some; exact Hi).
  rewrite <- (take_drop_middle wks i wk Hi) at 3.
  rewrite !omap_app. simpl. rewrite Hwk.
  symmetry. apply Permutation_middle.
Qed.

Lemma busy_insert_busy (wks : list worker) (i : nat) (p : errFunc) :
  wks !! i = Some (Busy p) ->
  exists rest,
    omap busy_prog wks ≡ₚ p :: rest /\
    (forall q, omap busy_prog (<[i := Busy q]> wks) ≡ₚ q :: rest) /\
    (forall wk', busy_prog wk' = None -> omap busy_prog (<[i := wk']> wks) ≡ₚ rest).
Proof.
  intros Hi.
  exists (omap busy_prog (take i wks) ++ omap busy_prog (drop (S i) wks))%list.
  split; [| split].
  - rewrite <- (take_drop_middle wks i _ Hi) at 1.
    rewrite omap_app. simpl. symmetry. apply Permutation_middle.
  - intros q. rewrite insert_take_drop by (eapply lookup_lt_Some; exact Hi).
    rewrite omap_app. simpl. symmetry. apply Permutation_middle.
  - intros wk' Hwk'. rewrite insert_take_drop by (eapply lookup_lt_Some; exact Hi).
    rewrite omap_app. simpl. rewrite Hwk'. reflexivity.
Qed.

(** The directory of a work function that is on a worker. *)
Lemma active_pick (act : list (string * errFunc)) (p : errFunc) (rest : list errFunc) :
  p :: rest ≡ₚ act.*2 ->
  exists dir act', act ≡ₚ (dir, p) :: act' /\ rest ≡ₚ act'.*2.
Proof.
  intros Hperm.
  assert (Hin : p ∈ act.*2) by (rewrite <- Hperm; left).
  apply list_elem_of_fmap in Hin. destruct Hin as ([dir q] & Hq & Hin). simpl in Hq. subst q.
  apply elem_of_Permutation in Hin. destruct Hin as [act' Hact'].
  exists dir, act'. split; [exact Hact' |].
  rewrite Hact' in Hperm. simpl in Hperm.
  apply Permutation_cons_inv in Hperm. exact Hperm.
Qed.

Lemma busy_replicate_Idle (n : nat) : omap busy_prog (replicate n Idle) = [].
Proof. induction n as [| n IH]; simpl; [reflexivity | exact IH]. Qed.

Section PoolInvariant.

Context (st : Stubs) (f : string -> errFunc) (w0 : World) (ds : list string).
Hypothesis f_within : forall dir, within dir (f dir).
Hypothesis ds_NoDup : NoDup ds.
Hypothesis solo_ok : forall dir, dir ∈ ds -> (run st (f dir) w0).1 = None.

Lemma pool_inv_init (d : Drifter) : pool_inv st f w0 ds (pool_init d (map f ds) w0).
Proof.
  exists [], [], ds, []. simpl.
  split; [reflexivity |].
  split; [reflexivity |].
  split; [rewrite busy_replicate_Idle; reflexivity |].
  split; [reflexivity |].
  split; [constructor |].
  split; [apply Forall_forall; intros; apply same_view_refl |].
  split; [constructor |].
  split; [intros; apply same_view_refl |].
  split; [rewrite app_nil_r; reflexivity |].
  split; reflexivity.
Qed.

(** A step of one work function, seen from the others. *)
Lemma others_unmoved (dir : string) (o : op) (W : World) (act' : list (string * errFunc)) :
  op_within dir o ->
  dir ∉ act'.*1 ->
  Forall (fun a => within a.1 a.2 /\
                   (run st a.2 W).1 = None /\
                   same_view a.1 (run st a.2 W).2 (run st (f a.1) w0).2) act' ->
  Forall (fun a => within a.1 a.2 /\
                   (run st a.2 (handle st o W).2).1 = None /\
                   same_view a.1 (run st a.2 (handle st o W).2).2 (run st (f a.1) w0).2) act' /\
  gather (fun a => calls_of st a.2 (handle st o W).2) act' =
    gather (fun a => calls_of st a.2 W) act'.
Proof.
  intros Ho Hnotin Hact.
  assert (Hall : Forall (fun a =>
            (within a.1 a.2 /\
             (run st a.2 (handle st o W).2).1 = None /\
             same_view a.1 (run st a.2 (handle st o W).2).2 (run st (f a.1) w0).2) /\
            calls_of st a.2 (handle st o W).2 = calls_of st a.2 W) act').
  { rewrite Forall_forall in Hact |- *. intros [dir' p'] Hin.
    destruct (Hact _ Hin) as (Hw & Hr & Hv). simpl in *.
    assert (Hne : dir' <> dir).
    { intros ->. apply Hnotin. apply list_elem_of_fmap. exists (dir, p'). auto. }
    pose proof (handle_elsewhere st dir dir' o W Ho Hne) as Hsame.
    destruct (run_frame st dir' p' _ _ Hw Hsame) as (Hr' & Hc' & Hv').
    split; [split; [exact Hw | split; [congruence |]] | exact Hc'].
    eapply same_view_trans; [exact Hv' | exact Hv]. }
  split.
  - eapply Forall_impl; [exact Hall |]. intros a [Ha _]. exact Ha.
  - apply gather_ext. eapply Forall_impl; [exact Hall |]. intros a [_ Ha]. exact Ha.
Qed.

Lemma others_views (dir : string) (o : op) (W : World) (w : string -> World) (l : list string) :
  op_within dir o ->
  dir ∉ l ->
  Forall (fun dir' => same_view dir' W (w dir')) l ->
  Forall (fun dir' => same_view dir' (handle st o W).2 (w dir')) l.
Proof.
  intros Ho Hnotin Hl. rewrite Forall_forall in Hl |- *. intros dir' Hin.
  assert (Hne : dir' <> dir) by (intros ->; contradiction).
  eapply same_view_trans; [apply (handle_elsewhere st dir dir' o W Ho Hne) | apply Hl, Hin].
Qed.

(** Every move of the scheduler keeps [pool_inv]. *)
Lemma pool_inv_act (a : action) (P P' : pool) :
  pool_inv st f w0 ds P ->
  pool_act st a P = Some P' ->
  pool_inv st f w0 ds P'.
Proof.
  intros (fin & act & pend & T & Hds & Hfeed & Hbusy & Herr & Hact & Hpend & Hfin & Hout &
          Htr & Hperm & Hcnt) Hstep.
  destruct a as [i | | | i | i | i]; simpl in Hstep.
  - (* Send *)
    destruct (feeder P) as [[| r rest] |] eqn:Hf; try discriminate.
    destruct (workers P !! i) as [[| |] |] eqn:Hi; try discriminate.
    injection Hstep as <-.
    destruct pend as [| dir pend']; [discriminate |].
    simpl in Hfeed. injection Hfeed as -> ->.
    apply Forall_cons in Hpend. destruct Hpend as [Hdir Hpend].
    assert (Hin : dir ∈ ds).
    { rewrite Hds. rewrite !elem_of_app. right. right. left. }
    destruct (run_frame st dir (f dir) (world P) w0 (f_within dir) Hdir) as (Hr & Hc & Hv).
    exists fin, ((dir, f dir) :: act), pend', T. simpl.
    split; [rewrite Hds; apply Permutation_app_head; symmetry; apply Permutation_middle |].
    split; [reflexivity |].
    split; [rewrite (busy_insert_start _ i Idle _ Hi eq_refl), Hbusy; reflexivity |].
    split; [exact Herr |].
    split.
    { constructor; [| exact Hact]. simpl.
      split; [apply f_within |]. split; [rewrite Hr; apply solo_ok, Hin | exact Hv]. }
    split; [exact Hpend |].
    split; [exact Hfin |].
    split; [exact Hout |].
    split; [exact Htr |].
    split; [| exact Hcnt].
    rewrite <- Hperm. simpl. rewrite Hc. apply Permutation_app_head.
    rewrite <- app_assoc. apply Permutation_app_swap_app.
  - (* Close *)
    destruct (feeder P) as [[| r rest] |] eqn:Hf; try discriminate.
    injection Hstep as <-.
    destruct pend as [| dir pend']; [| discriminate].
    exists fin, act, [], T. simpl. repeat (split; [assumption || reflexivity |]). assumption.
  - (* FeederCancelled *)
    destruct (feeder P); [| discriminate]. rewrite Herr in Hstep. discriminate.
  - (* RecvClosed *)
    destruct (workers P !! i) as [[| |] |] eqn:Hi; try discriminate.
    destruct (closed P); [| discriminate].
    injection Hstep as <-.
    exists fin, act, pend, T. simpl.
    rewrite (busy_insert_same _ i Idle Exited Hi eq_refl eq_refl).
    repeat (split; [assumption |]). assumption.
  - (* WorkerCancelled *)
    destruct (workers P !! i) as [[| |] |]; try discriminate.
    rewrite Herr in Hstep. discriminate.
  - (* Step *)
    destruct (workers P !! i) as [[| p |] |] eqn:Hi; try discriminate.
    destruct (busy_insert_busy _ i p Hi) as (rest & Hrest & Hrun & Hstop).
    rewrite Hbusy in Hrest. symmetry in Hrest.
    destruct (active_pick act p rest Hrest) as (dir & act' & Hact' & Hrest').
    rewrite Hact' in Hact. apply Forall_cons in Hact. destruct Hact as [Hp Hact].
    simpl in Hp. destruct Hp as (Hpw & Hpr & Hpv).
    assert (Hds' : ds ≡ₚ dir :: fin ++ act'.*1 ++ pend).
    { rewrite Hds, Hact'. simpl. symmetry. apply Permutation_middle. }
    assert (Hnd : NoDup (dir :: fin ++ act'.*1 ++ pend)) by (rewrite <- Hds'; exact ds_NoDup).
    apply NoDup_cons in Hnd. destruct Hnd as [Hfresh _].
    rewrite !not_elem_of_app in Hfresh. destruct Hfresh as (Hnfin & Hnact & Hnpend).
    assert (Hpermact : gather (fun a => calls_of st a.2 (world P)) act ≡ₚ
                       (calls_of st p (world P) ++
                        gather (fun a => calls_of st a.2 (world P)) act')%list).
    { rewrite (gather_Permutation _ _ _ Hact'). reflexivity. }
    destruct p as [[err |] | o k].
    + (* the work function returns an error *)
      simpl in Hpr. discriminate.
    + (* the work function returns nil *)
      injection Hstep as <-.
      exists (dir :: fin), act', pend, T. simpl.
      split; [exact Hds' |].
      split; [exact Hfeed |].
      split; [rewrite (Hstop Idle eq_refl); exact Hrest' |].
      split; [exact Herr |].
      split; [exact Hact |].
      split; [exact Hpend |].
      split; [constructor; [exact Hpv | exact Hfin] |].
      split; [exact Hout |].
      split; [exact Htr |].
      split; [| exact Hcnt].
      rewrite <- Hperm, Hpermact. reflexivity.
    + (* the work function makes its next call *)
      destruct Hpw as [Ho Hk].
      pose proof (others_unmoved dir o (world P) act' Ho Hnact Hact) as [Hact2 Hgather].
      pose proof (others_views dir o (world P) (fun _ => w0) pend Ho Hnpend Hpend) as Hpend2.
      pose proof (others_views dir o (world P) (fun dir' => (run st (f dir') w0).2) fin
                    Ho Hnfin Hfin) as Hfin2.
      pose proof (trace_handle st o (world P)) as Htr2.
      pose proof (handle_counted st o (world P)) as Hcnt2.
      assert (Hout2 : forall dir', dir' ∉ ds -> same_view dir' (handle st o (world P)).2 w0).
      { intros dir' Hdir'.
        assert (Hne : dir' <> dir).
        { intros ->. apply Hdir'. rewrite Hds'. left. }
        eapply same_view_trans;
          [apply (handle_elsewhere st dir dir' o (world P) Ho Hne) | apply Hout, Hdir']. }
      simpl in Hpr, Hpv, Hpermact.
      destruct (handle st o (world P)) as [x W'] eqn:Hh. simpl in *.
      injection Hstep as <-.
      exists fin, ((dir, k x) :: act'), pend, (T ++ logged o)%list. simpl.
      split; [rewrite Hds'; apply Permutation_middle |].
      split; [exact Hfeed |].
      split; [rewrite (Hrun (k x)), Hrest'; reflexivity |].
      split; [exact Herr |].
      split; [constructor; [simpl; auto | exact Hact2] |].
      split; [exact Hpend2 |].
      split; [exact Hfin2 |].
      split; [exact Hout2 |].
      split; [rewrite Htr2, Htr, app_assoc; reflexivity |].
      split; [| rewrite Hcnt2, Hcnt, counted_app; reflexivity].
      rewrite <- Hperm, Hpermact, Hgather.
      rewrite <- !app_assoc. reflexivity.
Qed.

(** So does every schedule. *)
Lemma pool_inv_acts (sched : list action) (P P' : pool) :
  pool_inv st f w0 ds P ->
  pool_acts st sched P = Some P' ->
  pool_inv st f w0 ds P'.
Proof.
  revert P. induction sched as [| a sched IH]; intros P Hinv Hrun; simpl in Hrun.
  - injection Hrun as <-. exact Hinv.
  - destruct (pool_act st a P) as [P1 |] eqn:Ha; [| discriminate].
    eapply IH; [eapply pool_inv_act; eassumption | exact Hrun].
Qed.

End PoolInvariant.

(** ** One goroutine against the pool *)

Section Passes.

Context (st : Stubs) (f : string -> errFunc) (w0 : World).
Hypothesis f_within : forall dir, within dir (f dir).

(** On one goroutine every work function does what it does alone from
    [w0]. *)
Lemma sequential_pass (ds : list string) (W W' : World) :
  NoDup ds ->
  (forall dir, dir ∈ ds -> same_view dir W w0) ->
  run st (drainAndExecute_sequential (map f ds)) W = (None, W') ->
  (forall dir, dir ∈ ds -> (run st (f dir) w0).1 = None) /\
  (forall dir, dir ∈ ds -> same_view dir W' (run st (f dir) w0).2) /\
  (forall dir, dir ∉ ds -> same_view dir W' W) /\
  trace W' = (trace W ++ gather (fun dir => calls_of st (f dir) w0) ds)%list.
Proof.
  unfold drainAndExecute_sequential. revert W.
  induction ds as [| a ds IH]; intros W Hnd Hviews Hrun.
  - simpl in Hrun. injection Hrun as <-.
    split; [intros dir Hin; inversion Hin |].
    split; [intros dir Hin; inversion Hin |].
    split; [intros; apply same_view_refl |].
    simpl. rewrite app_nil_r. reflexivity.
  - apply NoDup_cons in Hnd. destruct Hnd as [Ha Hnd].
    simpl map in Hrun. rewrite run_forRange_cons in Hrun.
    destruct (run_frame st a (f a) W w0 (f_within a) (Hviews a ltac:(left)))
      as (Hr & Hc & Hv).
    pose proof (trace_run st (f a) W) as Htr.
    destruct (run st (f a) W) as [[err |] W1] eqn:Hfa; [discriminate |].
    simpl in Hr, Hv, Htr.
    assert (Hviews1 : forall dir, dir ∈ ds -> same_view dir W1 w0).
    { intros dir Hin.
      assert (Hne : dir <> a) by (intros ->; contradiction).
      pose proof (run_elsewhere st a dir (f a) W (f_within a) Hne) as He.
      rewrite Hfa in He. simpl in He.
      eapply same_view_trans; [exact He | apply Hviews; right; exact Hin]. }
    destruct (IH W1 Hnd Hviews1 Hrun) as (Hok & Hsolo & Hrest & Htrace).
    split; [| split; [| split]].
    + intros dir Hin. apply elem_of_cons in Hin. destruct Hin as [-> | Hin];
        [symmetry; exact Hr | apply Hok, Hin].
    + intros dir Hin. apply elem_of_cons in Hin. destruct Hin as [-> | Hin].
      * eapply same_view_trans; [apply Hrest, Ha | exact Hv].
      * apply Hsolo, Hin.
    + intros dir Hin. apply not_elem_of_cons in Hin. destruct Hin as [Hne Hin].
      pose proof (run_elsewhere st a dir (f a) W (f_within a) Hne) as He.
      rewrite Hfa in He. simpl in He.
      eapply same_view_trans; [apply Hrest, Hin | exact He].
    + rewrite Htrace, Htr, Hc. simpl. rewrite app_assoc. reflexivity.
Qed.

(** Every way the pool can finish a pass that is free of errors on one
    goroutine ends without an error, with the same caches and counter and
    with the same calls in the trace. *)
Lemma pool_agrees (d : Drifter) (ds : list string) (w1 : World)
    (sched : list action) (P : pool) :
  NoDup ds ->
  run st (drainAndExecute_sequential (map f ds)) w0 = (None, w1) ->
  pool_acts st sched (pool_init d (map f ds) w0) = Some P ->
  pool_done P ->
  firstErr P = None /\ same_outcome (world P) w1.
Proof.
  intros Hnd Hseq Hsched [Hfeeder Hworkers].
  destruct (sequential_pass ds w0 w1 Hnd (fun dir _ => same_view_refl dir w0) Hseq)
    as (Hok & Hsolo & Hrest & Htrace).
  pose proof (pool_inv_acts st f w0 ds f_within Hnd Hok sched _ P
                (pool_inv_init st f w0 ds d) Hsched)
    as (fin & act & pend & T & Hds & Hfeed & Hbusy & Herr & _ & _ & Hfin & Hout &
        Htr & Hperm & Hcnt).
  rewrite Hfeeder in Hfeed. subst pend.
  assert (Hnone : omap busy_prog (workers P) = []).
  { clear -Hworkers. induction Hworkers as [| wk wks -> _ IH]; simpl; [reflexivity | exact IH]. }
  rewrite Hnone in Hbusy. symmetry in Hbusy. apply Permutation_nil_r in Hbusy.
  apply fmap_nil_inv in Hbusy. subst act. simpl in Hds, Hperm.
  rewrite !app_nil_r in Hds. rewrite !app_nil_r in Hperm.
  split; [exact Herr |].
  assert (Hview : forall dir, same_view dir (world P) w1).
  { intros dir. destruct (decide (dir ∈ ds)) as [Hin | Hnin].
    - eapply same_view_trans; [| apply same_view_sym, Hsolo, Hin].
      rewrite Forall_forall in Hfin. apply Hfin. rewrite <- Hds. exact Hin.
    - eapply same_view_trans; [apply Hout, Hnin | apply same_view_sym, Hrest, Hnin]. }
  split; [| split; [| split]].
  - apply map_eq. intros [dir workspace]. apply (Hview dir).
  - apply map_eq. intros dir. apply (Hview dir).
  - pose proof (run_counted st (drainAndExecute_sequential (map f ds)) w0) as Hc.
    pose proof (trace_run st (drainAndExecute_sequential (map f ds)) w0) as Ht.
    rewrite Hseq in Hc, Ht. simpl in Hc, Ht.
    rewrite Htrace in Ht. apply app_inv_head in Ht.
    rewrite Hcnt, Hc, <- Ht. apply counted_Permutation. exact Hperm.
  - rewrite Htr, Htrace. apply Permutation_app_head. exact Hperm.
Qed.

End Passes.

(** ** The pool can always finish what one goroutine finishes *)

Lemma pool_acts_app (st : Stubs) (s1 s2 : list action) (P : pool) :
  pool_acts st (s1 ++ s2) P =
  match pool_acts st s1 P with
  | Some P1 => pool_acts st s2 P1
  | None => None
  end.
Proof.
  revert P. induction s1 as [| a s1 IH]; intros P; simpl; [reflexivity |].
  destruct (pool_act st a P); [apply IH | reflexivity].
Qed.

(** One worker takes a work function to its end. *)
Lemma worker_finishes (st : Stubs) (p : errFunc) (i : nat) (P : pool) (W' : World) :
  workers P !! i = Some (Busy p) ->
  run st p (world P) = (None, W') ->
  exists sched,
    pool_acts st sched P =
      Some {| feeder := feeder P; closed := closed P;
              workers := <[i := Idle]> (workers P);
              firstErr := firstErr P; world := W' |}.
Proof.
  revert P. induction p as [r | o k IH]; intros P Hi Hrun.
  - simpl in Hrun. injection Hrun as -> <-.
    exists [Step i]. simpl. rewrite Hi. reflexivity.
  - simpl in Hrun. destruct (handle st o (world P)) as [x W1] eqn:Hh.
    destruct (IH x {| feeder := feeder P; closed := closed P;
                      workers := <[i := Busy (k x)]> (workers P);
                      firstErr := firstErr P; world := W1 |}) as [sched Hsched].
    + simpl. apply list_lookup_insert_eq. eapply lookup_lt_Some. exact Hi.
    + exact Hrun.
    + exists (Step i :: sched). simpl. rewrite Hi, Hh.
      rewrite Hsched. simpl. rewrite list_insert_insert_eq. reflexivity.
Qed.

(** Worker 0 takes the whole list, one work function after the other. *)
Lemma feeder_drains (st : Stubs) (items : list errFunc) (P : pool) (W' : World) :
  feeder P = Some items ->
  workers P !! 0%nat = Some Idle ->
  run st (drainAndExecute_sequential items) (world P) = (None, W') ->
  exists sched,
    pool_acts st sched P =
      Some {| feeder := Some []; closed := closed P; workers := workers P;
              firstErr := firstErr P; world := W' |}.
Proof.
  unfold drainAndExecute_sequential. revert P.
  induction items as [| r items IH]; intros P Hf Hi Hrun.
  - simpl in Hrun. injection Hrun as <-. exists []. simpl.
    destruct P; simpl in *; subst; reflexivity.
  - rewrite run_forRange_cons in Hrun.
    destruct (run st r (world P)) as [[err |] W1] eqn:Hr; [discriminate |].
    destruct (worker_finishes st r 0
                {| feeder := Some items; closed := closed P;
                   workers := <[0%nat := Busy r]> (workers P);
                   firstErr := firstErr P; world := world P |} W1) as [s1 Hs1].
    + simpl. apply list_lookup_insert_eq. eapply lookup_lt_Some. exact Hi.
    + exact Hr.
    + simpl in Hs1. rewrite list_insert_insert_eq in Hs1.
      rewrite (list_insert_id _ _ _ Hi) in Hs1.
      destruct (IH {| feeder := Some items; closed := closed P; workers := workers P;
                      firstErr := firstErr P; world := W1 |} eq_refl Hi Hrun)
        as [s2 Hs2].
      exists (Send 0 :: s1 ++ s2)%list. simpl. rewrite Hf, Hi.
      rewrite pool_acts_app, Hs1. exact Hs2.
Qed.

(** After [close(from)] the idle workers return one by one. *)
Lemma workers_exit (st : Stubs) (todo : nat) (done : list worker) (P : pool) :
  workers P = (done ++ replicate todo Idle)%list ->
  closed P = true ->
  exists sched,
    pool_acts st sched P =
      Some {| feeder := feeder P; closed := closed P;
              workers := (done ++ replicate todo Exited)%list;
              firstErr := firstErr P; world := world P |}.
Proof.
  revert done P. induction todo as [| todo IH]; intros done P Hw Hc.
  - exists []. simpl in *. destruct P; simpl in *; subst; reflexivity.
  - destruct (IH (done ++ [Exited])%list
                {| feeder := feeder P; closed := closed P;
                   workers := (done ++ Exited :: replicate todo Idle)%list;
                   firstErr := firstErr P; world := world P |}) as [sched Hsched].
    + simpl. rewrite <- app_assoc. reflexivity.
    + exact Hc.
    + exists (RecvClosed (length done) :: sched). simpl.
      rewrite Hw. simpl.
      rewrite (list_lookup_middle done (replicate todo Idle) Idle (length done) eq_refl).
      rewrite Hc.
      rewrite (insert_app_r_alt done _ (length done)) by lia.
      rewrite Nat.sub_diag. simpl.
      simpl in Hsched. rewrite Hc in Hsched. rewrite Hsched, <- app_assoc. reflexivity.
Qed.

(** A pool with at least one worker has a schedule that ends the pass like
    one goroutine does. *)
Lemma pool_can_finish (st : Stubs) (d : Drifter) (items : list errFunc) (w0 w1 : World) :
  1 < ParallelRuns d ->
  run st (drainAndExecute_sequential items) w0 = (None, w1) ->
  exists sched P,
    pool_acts st sched (pool_init d items w0) = Some P /\
    pool_done P /\ firstErr P = None /\ world P = w1.
Proof.
  intros Hn Hseq.
  assert (Hidle : workers (pool_init d items w0) !! 0%nat = Some Idle).
  { simpl. apply lookup_replicate_2. lia. }
  destruct (feeder_drains st items (pool_init d items w0) w1 eq_refl Hidle Hseq) as [s1 Hs1].
  simpl in Hs1.
  destruct (workers_exit st (Z.to_nat (ParallelRuns d)) []
              {| feeder := None; closed := true;
                 workers := replicate (Z.to_nat (ParallelRuns d)) Idle;
                 firstErr := None; world := w1 |} eq_refl eq_refl) as [s2 Hs2].
  simpl in Hs2.
  exists (s1 ++ Close :: s2)%list. eexists.
  split.
  - rewrite pool_acts_app, Hs1. simpl. exact Hs2.
  - split; [| split; reflexivity].
    split; [reflexivity |]. simpl.
    apply Forall_forall. intros wk Hin. apply elem_of_replicate in Hin. apply Hin.
Qed.

(** ** The order of the directories *)

Lemma insert_sorted_Permutation (x : string) (l : list string) :
  insert_sorted x l ≡ₚ x :: l.
Proof.
  induction l as [| y l IH]; simpl; [reflexivity |].
  destruct (String.leb x y); [reflexivity |].
  rewrite IH. apply Permutation_swap.
Qed.

Lemma sort_Strings_Permutation (l : list string) : sort_Strings l ≡ₚ l.
Proof.
  unfold sort_Strings. induction l as [| x l IH]; simpl; [reflexivity |].
  rewrite insert_sorted_Permutation, IH. reflexivity.
Qed.

(** The keys of a Go map are distinct. *)
Lemma SortedKeys_NoDup (ws : DirectoriesWithWorkspaces) : NoDup (SortedKeys ws).
Proof.
  unfold SortedKeys. rewrite sort_Strings_Permutation. apply NoDup_fst_map_to_list.
Qed.

(** ** Whole runs, one goroutine against the pool *)

Lemma List_filter_Permutation {X : Type} (p : X -> bool) (l1 l2 : list X) :
  l1 ≡ₚ l2 -> List.filter p l1 ≡ₚ List.filter p l2.
Proof.
  induction 1 as [| x l1 l2 _ IH | x y l | l1 l2 l3 _ IH1 _ IH2]; simpl.
  - reflexivity.
  - destruct (p x); [rewrite IH |]; [reflexivity | exact IH].
  - destruct (p x), (p y); try reflexivity. apply Permutation_swap.
  - rewrite IH1. exact IH2.
Qed.

(** One pass through the scheduler. *)
Lemma pass_agrees (st : Stubs) (d1 dn : Drifter) (f : string -> errFunc) (ds : list string)
    (W W' w1 : World) :
  ParallelRuns d1 <= 1 ->
  1 < ParallelRuns dn ->
  (forall dir, within dir (f dir)) ->
  NoDup ds ->
  same_outcome W W' ->
  drainAndExecute st d1 (map f ds) W None w1 ->
  (exists wn, drainAndExecute st dn (map f ds) W' None wn) /\
  (forall rn wn, drainAndExecute st dn (map f ds) W' rn wn ->
                 rn = None /\ same_outcome wn w1).
Proof.
  intros H1 Hn Hwithin Hnd Hsame Hseq.
  apply drainAndExecute_le_1 in Hseq; [| exact H1].
  destruct (run_same_outcome st (drainAndExecute_sequential (map f ds)) W W' Hsame)
    as [Hres Hout].
  rewrite Hseq in Hres, Hout. simpl in Hres, Hout.
  destruct (run st (drainAndExecute_sequential (map f ds)) W') as [r' w1'] eqn:Hseq'.
  simpl in Hres, Hout. subst r'.
  split.
  - destruct (pool_can_finish st dn (map f ds) W' w1' Hn Hseq')
      as (sched & P & Hacts & Hdone & Herr & Hworld).
    exists w1'. rewrite <- Herr, <- Hworld. eapply drain_pool; eassumption.
  - intros rn wn Hrun.
    destruct Hrun as [rn wn Hle _ | sched P _ Hacts Hdone]; [lia |].
    destruct (pool_agrees st f W' Hwithin dn ds w1' sched P Hnd Hseq' Hacts Hdone)
      as [Herr Hw].
    split; [exact Herr |].
    eapply same_outcome_trans; [exact Hw | apply same_outcome_sym, Hout].
Qed.

(** C8 (as amended).  When the run on one goroutine ends without an error,
    the run with N > 1 workers has an outcome, and whichever way the
    workers are scheduled it ends without an error, with the same value of
    the counter and with the same notifications up to their order. *)
Theorem pool_matches_one_goroutine (st : Stubs) (d : Drifter) (n : Z) (w w1 : World) :
  1 < n ->
  Drifter_Drift st (with_ParallelRuns 1 d) w None w1 ->
  (exists wN, Drifter_Drift st (with_ParallelRuns n d) w None wN) /\
  (forall rN wN,
     Drifter_Drift st (with_ParallelRuns n d) w rN wN ->
     rN = None /\
     DriftedWorkspaceCount wN = DriftedWorkspaceCount w1 /\
     notifications (trace wN) ≡ₚ notifications (trace w1)).
Proof.
  intros Hn Hseq.
  set (d1 := with_ParallelRuns 1 d) in *. set (dn := with_ParallelRuns n d).
  assert (Hle : ParallelRuns d1 <= 1) by (simpl; lia).
  assert (Hgt : 1 < ParallelRuns dn) by (simpl; lia).
  (* the run on one goroutine, pass by pass *)
  assert (Hparts : exists ws wa wb wc,
            run st (checkOutAndParse d) w = (Ok ws, wa) /\
            FindDriftedWorkspaces st d1 ws wa None wb /\
            FindExtraWorkspaces st d1 ws wb None wc /\
            run st summarize wc = (None, w1)).
  { inversion Hseq as [err wa Hp | ws wa err wb Hp Hd | ws wa wb err wc Hp Hd He
                       | ws wa wb wc res w4 Hp Hd He Hs]; subst.
    exists ws, wa, wb, wc. auto. }
  destruct Hparts as (ws & wa & wb & wc & Hp & Hd & He & Hs).
  destruct (pass_agrees st d1 dn (runningFunc d ws) (SortedKeys ws) wa wa wb Hle Hgt
              (within_runningFunc d ws) (SortedKeys_NoDup ws) (same_outcome_refl wa) Hd)
    as [[wb' Hd'] Hdall].
  (* the second pass starts from worlds with the same outcome *)
  assert (Hextra : forall wb2, same_outcome wb2 wb ->
            (exists wc2, FindExtraWorkspaces st dn ws wb2 None wc2) /\
            (forall r wc2, FindExtraWorkspaces st dn ws wb2 r wc2 ->
                           r = None /\ same_outcome wc2 wc)).
  { intros wb2 Hsame. unfold FindExtraWorkspaces in He |- *. simpl in He |- *.
    destruct (SkipWorkspaceCheck d).
    - destruct He as [_ ->]. split; [exists wb2; auto |].
      intros r wc2 [-> ->]. auto.
    - apply (pass_agrees st d1 dn (runFunc d ws) (SortedKeys ws) wb wb2 wc Hle Hgt
               (within_runFunc d ws) (SortedKeys_NoDup ws) (same_outcome_sym _ _ Hsame) He). }
  assert (Hsum : forall wc2, same_outcome wc2 wc ->
            (run st summarize wc2).1 = None /\ same_outcome (run st summarize wc2).2 w1).
  { intros wc2 Hsame.
    destruct (run_same_outcome st summarize wc2 wc Hsame) as [Hr Ho].
    rewrite Hs in Hr, Ho. auto. }
  split.
  - destruct (proj2 (Hdall None wb' Hd')) as (Hb1 & Hb2 & Hb3 & Hb4).
    destruct (Hextra wb' (conj Hb1 (conj Hb2 (conj Hb3 Hb4)))) as [[wc' He'] Heall].
    destruct (Heall None wc' He') as [_ Hc'].
    destruct (Hsum wc' Hc') as [Hr _].
    destruct (run st summarize wc') as [r w4] eqn:Hs'. simpl in Hr. subst r.
    exists w4. eapply Drift_finished; [exact Hp | exact Hd' | exact He' | exact Hs'].
  - intros rN wN HrunN.
    inversion HrunN as [err wa2 Hp2 | ws2 wa2 err wb2 Hp2 Hd2 | ws2 wa2 wb2 err wc2 Hp2 Hd2 He2
                        | ws2 wa2 wb2 wc2 res w4 Hp2 Hd2 He2 Hs2]; subst;
      change (checkOutAndParse dn) with (checkOutAndParse d) in Hp2;
      rewrite Hp in Hp2; try discriminate; injection Hp2 as <- <-.
    + destruct (Hdall _ _ Hd2) as [Hbad _]. discriminate.
    + destruct (Hdall _ _ Hd2) as [_ Hb].
      destruct (Hextra wb2 Hb) as [_ Heall].
      destruct (Heall _ _ He2) as [Hbad _]. discriminate.
    + destruct (Hdall _ _ Hd2) as [_ Hb].
      destruct (Hextra wb2 Hb) as [_ Heall].
      destruct (Heall _ _ He2) as [_ Hc].
      destruct (Hsum wc2 Hc) as [Hr (_ & _ & Hcount & Htrace)].
      rewrite Hs2 in Hr, Hcount, Htrace. simpl in Hr, Hcount, Htrace.
      split; [exact Hr |]. split; [exact Hcount |].
      apply List_filter_Permutation. exact Htrace.
Qed.

(** ** A run in which the pool and one goroutine part ways *)

(** With two workers and the schedule [networkFirst] the drift of
    infra/network is counted and reported before infra/db fails. *)
Lemma network_first_run :
  exists rN wN,
    Drifter_Drift brokenDb (with_ParallelRuns 2 (drifter 1)) emptyWorld rN wN /\
    DriftedWorkspaceCount wN = 1 /\
    notifications (trace wN) =
      [NotifyPlanDrift "infra/network" "prod" "Plan: 0 to add, 1 to change, 0 to destroy."].
Proof.
  assert (H : exists P,
            pool_acts brokenDb networkFirst
              (pool_init (with_ParallelRuns 2 (drifter 1))
                 (driftRuns (with_ParallelRuns 2 (drifter 1)) twoDirectories) parsedWorld)
              = Some P /\
            pool_done P /\
            (exists err, firstErr P = Some err) /\
            DriftedWorkspaceCount (world P) = 1 /\
            notifications (trace (world P)) =
              [NotifyPlanDrift "infra/network" "prod"
                 "Plan: 0 to add, 1 to change, 0 to destroy."]).
  { vm_compute. eexists. split; [reflexivity |].
    split; [split; [reflexivity | repeat constructor] |].
    split; [eexists; reflexivity | split; reflexivity]. }
  destruct H as (P & HP & Hdone & [err Herr] & Hcount & Hnotes).
  exists (Some (fmt_Errorf ["failed to find drifted workspaces"] err)), (world P).
  split; [| split; assumption].
  apply (Drift_drift_failed _ _ _ twoDirectories parsedWorld).
  - vm_compute. reflexivity.
  - unfold FindDriftedWorkspaces. rewrite <- Herr.
    eapply drain_pool; [vm_compute; reflexivity | exact HP | exact Hdone].
Qed.

(** On one goroutine the same run stops at infra/db. *)
Lemma db_first_run :
  forall r1 w1,
    Drifter_Drift brokenDb (with_ParallelRuns 1 (drifter 1)) emptyWorld r1 w1 ->
    DriftedWorkspaceCount w1 = 0 /\ notifications (trace w1) = [].
Proof.
  intros r1 w1 H.
  apply Drift_sequential_outcome in H; [| vm_compute; discriminate].
  vm_compute in H. injection H as <- <-. split; reflexivity.
Qed.

(** C8 (as stated) fails: with the collaborators [brokenDb], where the plan
    query of infra/db fails for good and infra/network has drifted, the run
    on one goroutine ends with the counter at 0 and no notification, and a
    run with two workers ends with the counter at 1 and a drift
    notification. *)
Lemma concurrency_matters_when_a_directory_fails :
  ~ (forall r1 rN w1 wN,
       Drifter_Drift brokenDb (with_ParallelRuns 1 (drifter 1)) emptyWorld r1 w1 ->
       Drifter_Drift brokenDb (with_ParallelRuns 2 (drifter 1)) emptyWorld rN wN ->
       DriftedWorkspaceCount wN = DriftedWorkspaceCount w1 /\
       notifications (trace wN) ≡ₚ notifications (trace w1)).
Proof.
  intros Hclaim.
  destruct network_first_run as (rN & wN & HN & HcountN & _).
  destruct (run brokenDb (Drift_sequential (with_ParallelRuns 1 (drifter 1))) emptyWorld)
    as [r1 w1] eqn:H1.
  apply Drift_sequential_outcome in H1; [| vm_compute; discriminate].
  destruct (db_first_run r1 w1 H1) as [Hcount1 _].
  destruct (Hclaim r1 rN w1 wN H1 HN) as [Hbad _].
  rewrite HcountN, Hcount1 in Hbad. discriminate.
Qed.

(** The general statement of the specification fails with it. *)
Lemma concurrency_sometimes_matters : ~ concurrency_never_matters.
Proof.
  intros Hclaim.
  destruct network_first_run as (rN & wN & HN & HcountN & _).
  destruct (run brokenDb (Drift_sequential (with_ParallelRuns 1 (drifter 1))) emptyWorld)
    as [r1 w1] eqn:H1.
  apply Drift_sequential_outcome in H1; [| vm_compute; discriminate].
  destruct (db_first_run r1 w1 H1) as [Hcount1 _].
  destruct (Hclaim brokenDb (drifter 1) 2 emptyWorld r1 rN w1 wN ltac:(lia) H1 HN)
    as [Hbad _].
  rewrite HcountN, Hcount1 in Hbad. discriminate.
Qed.

(** ** The statements at concrete runs *)

(** C3 at a two-day-old record and a TTL of one day: the record is deleted
    and the plan query made once. *)
Lemma cache_record_trusted_iff_fresh_witness :
  getDriftFails calm (driftCacheKey "infra/db" "prod") = None /\
  driftCache staleWorld !! ("infra/db", "prod") = Some staleRecord /\
  CacheValidDuration (drifter 1) <= age calm (When staleRecord) /\
  List.filter isPlanSummary (calls_of calm (checkWorkspace (drifter 1) "infra/db" "prod") staleWorld)
    = [PlanSummary (planSummaryRequest (drifter 1) "infra/db" "prod")].
Proof.
  assert (Hget : getDriftFails calm (driftCacheKey "infra/db" "prod") = None) by reflexivity.
  assert (Hrec : driftCache staleWorld !! ("infra/db", "prod") = Some staleRecord)
    by (vm_compute; reflexivity).
  assert (Hage : CacheValidDuration (drifter 1) <= age calm (When staleRecord))
    by (vm_compute; discriminate).
  split; [exact Hget |]. split; [exact Hrec |]. split; [exact Hage |].
  destruct (cache_record_trusted_iff_fresh calm (drifter 1) "infra/db" "prod"
              staleWorld staleRecord Hget Hrec) as [_ Hstale].
  apply Hstale in Hage. simpl in Hage. apply Hage.
Defined.

(** C4 at a plan endpoint that asks to be retried. *)
Lemma temporary_plan_error_skips_workspace_witness :
  planSummary busyAtlantis (planSummaryRequest (drifter 1) "infra/db" "prod") = Err tryLater /\
  errors_As_Temporary tryLater = true /\
  In (PlanSummary (planSummaryRequest (drifter 1) "infra/db" "prod"))
     (calls_of busyAtlantis (checkWorkspace (drifter 1) "infra/db" "prod") emptyWorld) /\
  (run busyAtlantis (checkWorkspace (drifter 1) "infra/db" "prod") emptyWorld).1 = None /\
  DriftedWorkspaceCount
    (run busyAtlantis (checkWorkspace (drifter 1) "infra/db" "prod") emptyWorld).2 = 0.
Proof.
  assert (Hplan : planSummary busyAtlantis (planSummaryRequest (drifter 1) "infra/db" "prod")
                  = Err tryLater) by reflexivity.
  assert (Htmp : errors_As_Temporary tryLater = true) by reflexivity.
  assert (Hin : In (PlanSummary (planSummaryRequest (drifter 1) "infra/db" "prod"))
                   (calls_of busyAtlantis (checkWorkspace (drifter 1) "infra/db" "prod")
                      emptyWorld))
    by (right; left; reflexivity).
  split; [exact Hplan |]. split; [exact Htmp |]. split; [exact Hin |].
  destruct (temporary_plan_error_skips_workspace busyAtlantis (drifter 1) "infra/db" "prod"
              emptyWorld tryLater ["stage"] [] Hplan Htmp Hin) as (Hres & Hcount & _).
  split; [exact Hres | exact Hcount].
Defined.

(** C5 at a locked plan with changes. *)
Lemma locked_changed_is_cached_not_reported_witness :
  planSummary lockedEverywhere (planSummaryRequest (drifter 1) "infra/db" "prod") = Ok lockedPlan /\
  IsLocked lockedPlan = true /\
  HasChanges lockedPlan = true /\
  In (PlanSummary (planSummaryRequest (drifter 1) "infra/db" "prod"))
     (calls_of lockedEverywhere (checkWorkspace (drifter 1) "infra/db" "prod") emptyWorld) /\
  List.filter isPlanDrift
    (calls_of lockedEverywhere (checkWorkspace (drifter 1) "infra/db" "prod") emptyWorld) = [] /\
  DriftedWorkspaceCount
    (run lockedEverywhere (checkWorkspace (drifter 1) "infra/db" "prod") emptyWorld).2 = 0.
Proof.
  assert (Hplan : planSummary lockedEverywhere
                    (planSummaryRequest (drifter 1) "infra/db" "prod") = Ok lockedPlan)
    by reflexivity.
  assert (Hin : In (PlanSummary (planSummaryRequest (drifter 1) "infra/db" "prod"))
                   (calls_of lockedEverywhere (checkWorkspace (drifter 1) "infra/db" "prod")
                      emptyWorld))
    by (right; left; reflexivity).
  split; [exact Hplan |]. split; [reflexivity |]. split; [reflexivity |]. split; [exact Hin |].
  destruct (locked_changed_is_cached_not_reported lockedEverywhere (drifter 1) "infra/db" "prod"
              emptyWorld lockedPlan Hplan eq_refl eq_refl Hin) as (_ & Hnone & Hcount & _).
  split; [exact Hnone | exact Hcount].
Defined.

(** C6 at the example of the specification: declared a and b, remote a, b,
    c and default; one notification, for c. *)
Lemma extra_workspaces_reported_in_order_witness :
  In (TerraformListWorkspaces "infra/app")
     (calls_of remoteABC (runFunc (drifter 1) declaredAB "infra/app") emptyWorld) /\
  terraformListWorkspaces remoteABC "infra/app" = Ok ["a"; "b"; "c"; "default"] /\
  (forall x, In x (undeclared (ws_index declaredAB "infra/app") ["a"; "b"; "c"; "default"]) ->
             extraWorkspaceInRemote remoteABC "infra/app" x = None) /\
  List.filter isExtraWorkspace
    (calls_of remoteABC (runFunc (drifter 1) declaredAB "infra/app") emptyWorld) =
    [NotifyExtraWorkspaceInRemote "infra/app" "c"].
Proof.
  assert (Hin : In (TerraformListWorkspaces "infra/app")
                   (calls_of remoteABC (runFunc (drifter 1) declaredAB "infra/app") emptyWorld))
    by (vm_compute; right; right; left; reflexivity).
  assert (Hlist : terraformListWorkspaces remoteABC "infra/app" = Ok ["a"; "b"; "c"; "default"])
    by reflexivity.
  assert (Hsink : forall x,
            In x (undeclared (ws_index declaredAB "infra/app") ["a"; "b"; "c"; "default"]) ->
            extraWorkspaceInRemote remoteABC "infra/app" x = None)
    by (intros; reflexivity).
  split; [exact Hin |]. split; [exact Hlist |]. split; [exact Hsink |].
  rewrite (extra_workspaces_reported_in_order remoteABC (drifter 1) declaredAB "infra/app"
             emptyWorld ["a"; "b"; "c"; "default"] Hin Hlist Hsink).
  vm_compute. reflexivity.
Defined.

(** C7 at the first pass of the run in which infra/db fails: the scheduler
    returns that error and infra/network is not looked at. *)
Lemma sequential_scheduler_runs_in_order_witness :
  ParallelRuns (drifter 1) <= 1 /\
  exists err w',
    drainAndExecute brokenDb (drifter 1) (driftRuns (drifter 1) twoDirectories)
      parsedWorld (Some err) w' /\
    List.filter isPlanSummary (trace w') =
      [PlanSummary (planSummaryRequest (drifter 1) "infra/db" "prod")].
Proof.
  assert (Hle : ParallelRuns (drifter 1) <= 1) by (vm_compute; discriminate).
  split; [exact Hle |].
  destruct (sequential_scheduler_runs_in_order brokenDb (drifter 1)
              (driftRuns (drifter 1) twoDirectories) parsedWorld Hle) as (_ & _ & Hstop).
  destruct (run brokenDb (runningFunc (drifter 1) twoDirectories "infra/db") parsedWorld)
    as [res w'] eqn:Hrun.
  assert (Hres : exists err, res = Some err /\
                   List.filter isPlanSummary (trace w') =
                     [PlanSummary (planSummaryRequest (drifter 1) "infra/db" "prod")]).
  { vm_compute in Hrun. injection Hrun as <- <-. eexists. split; reflexivity. }
  destruct Hres as (err & -> & Htrace).
  exists err, w'. split; [| exact Htrace].
  apply (Hstop [] (runningFunc (drifter 1) twoDirectories "infra/db")
           [runningFunc (drifter 1) twoDirectories "infra/network"] parsedWorld err w').
  - unfold driftRuns.
    replace (SortedKeys twoDirectories) with ["infra/db"; "infra/network"]
      by (vm_compute; reflexivity).
    reflexivity.
  - constructor.
  - exact Hrun.
Defined.

(** C8 (as amended) at the end-to-end scenario with two workers. *)
Lemma pool_matches_one_goroutine_witness :
  1 < 2 /\
  Drifter_Drift calm (with_ParallelRuns 1 (drifter 1)) emptyWorld None calmEnd /\
  (exists wN, Drifter_Drift calm (with_ParallelRuns 2 (drifter 1)) emptyWorld None wN) /\
  (forall rN wN,
     Drifter_Drift calm (with_ParallelRuns 2 (drifter 1)) emptyWorld rN wN ->
     rN = None /\ DriftedWorkspaceCount wN = 1).
Proof.
  assert (Hn : 1 < 2) by (vm_compute; reflexivity).
  assert (Hseq : Drifter_Drift calm (with_ParallelRuns 1 (drifter 1)) emptyWorld None calmEnd).
  { apply Drift_sequential_outcome; [vm_compute; discriminate |].
    vm_compute. reflexivity. }
  split; [exact Hn |]. split; [exact Hseq |].
  destruct (pool_matches_one_goroutine calm (drifter 1) 2 emptyWorld calmEnd Hn Hseq)
    as [Hex Hall].
  split; [exact Hex |].
  intros rN wN HN. destruct (Hall rN wN HN) as (Hr & Hc & _).
  split; [exact Hr |]. rewrite Hc. vm_compute. reflexivity.
Defined.

(** C9 at a listing that fails: nothing is stored. *)
Lemma workspace_record_stored_only_after_success_witness :
  (exists err, terraformListWorkspaces listingBroken "infra/db" = Err err) /\
  List.filter isStore
    (calls_of listingBroken (runFunc (drifter 1) twoDirectories "infra/db") emptyWorld) = [] /\
  workspacesCache (run listingBroken (runFunc (drifter 1) twoDirectories "infra/db") emptyWorld).2
    !! "infra/db" = None.
Proof.
  assert (Hfail : exists err, terraformListWorkspaces listingBroken "infra/db" = Err err)
    by (eexists; reflexivity).
  split; [exact Hfail |].
  destruct (workspace_record_stored_only_after_success listingBroken (drifter 1)
              twoDirectories "infra/db" emptyWorld) as [Hno _].
  destruct (Hno (or_intror (or_introl Hfail))) as [Hstore Hcache].
  split; [exact Hstore |].
  destruct Hcache as [-> | ->]; vm_compute; reflexivity.
Defined.

(** C10 at a drifted workspace and a sink that is down: the check ends with
    the error of the sink and the counter is at 1. *)
Lemma drift_counted_before_notified_witness :
  planSummary deafSink (planSummaryRequest (drifter 1) "infra/db" "prod") = Ok changedPlan /\
  HasChanges changedPlan = true /\
  IsLocked changedPlan = false /\
  storeDriftFails deafSink (driftCacheKey "infra/db" "prod") = None /\
  In (PlanSummary (planSummaryRequest (drifter 1) "infra/db" "prod"))
     (calls_of deafSink (checkWorkspace (drifter 1) "infra/db" "prod") emptyWorld) /\
  DriftedWorkspaceCount
    (run deafSink (checkWorkspace (drifter 1) "infra/db" "prod") emptyWorld).2 = 1 /\
  (run deafSink (checkWorkspace (drifter 1) "infra/db" "prod") emptyWorld).1 =
    Some (fmt_Errorf ["failed to notify of plan drift in "; "infra/db"] webhookDown).
Proof.
  assert (Hplan : planSummary deafSink (planSummaryRequest (drifter 1) "infra/db" "prod")
                  = Ok changedPlan) by reflexivity.
  assert (Hstore : storeDriftFails deafSink (driftCacheKey "infra/db" "prod") = None)
    by reflexivity.
  assert (Hin : In (PlanSummary (planSummaryRequest (drifter 1) "infra/db" "prod"))
                   (calls_of deafSink (checkWorkspace (drifter 1) "infra/db" "prod") emptyWorld))
    by (right; left; reflexivity).
  split; [exact Hplan |]. split; [reflexivity |]. split; [reflexivity |].
  split; [exact Hstore |]. split; [exact Hin |].
  destruct (drift_counted_before_notified deafSink (drifter 1) "infra/db" "prod" emptyWorld
              changedPlan Hplan eq_refl eq_refl Hstore Hin) as (_ & Hcount & Hfail & _).
  split; [rewrite Hcount; reflexivity | apply Hfail; reflexivity].
Defined.

(** ** The directory filter *)

Lemma prefix_occurs (p s : string) :
  String.prefix p s = true <-> exists post, s = p +:+ post.
Proof.
  revert s. induction p as [| c p IH]; intros s; simpl.
  - split; [intros _; exists s; reflexivity | intros _; destruct s; reflexivity].
  - destruct s as [| c' s]; simpl.
    + split; [discriminate | intros [post H]; discriminate].
    + destruct (Ascii.ascii_dec c c') as [-> | Hne].
      * rewrite IH. split; intros [post H]; exists post; [rewrite H; reflexivity |].
        injection H as H. exact H.
      * split; [discriminate | intros [post H]; injection H as H _; congruence].
Qed.

(** [strings.Contains] finds exactly the substrings. *)
Lemma strings_Contains_occurs (s sub : string) :
  strings_Contains s sub = true <-> occurs_in sub s.
Proof.
  unfold occurs_in. induction s as [| c s IH].
  - change (strings_Contains "" sub) with (if String.prefix sub "" then true else false).
    destruct (String.prefix sub "") eqn:Hp.
    + split; [intros _ | reflexivity].
      apply prefix_occurs in Hp. destruct Hp as [post Hp]. exists "", post. exact Hp.
    + split; [discriminate |]. intros (pre & post & H).
      destruct pre; [| discriminate]. simpl in H.
      assert (Hp' : String.prefix sub "" = true) by (apply prefix_occurs; eauto).
      congruence.
  - change (strings_Contains (String c s) sub)
      with (if String.prefix sub (String c s) then true else strings_Contains s sub).
    destruct (String.prefix sub (String c s)) eqn:Hp.
    + split; [intros _ | reflexivity].
      apply prefix_occurs in Hp. destruct Hp as [post Hp]. exists "", post. exact Hp.
    + rewrite IH. split.
      * intros (pre & post & H). exists (String c pre), post. simpl. rewrite H. reflexivity.
      * intros (pre & post & H). destruct pre as [| c' pre]; simpl in H.
        -- assert (Hp' : String.prefix sub (String c s) = true)
             by (apply prefix_occurs; eauto).
           congruence.
        -- injection H as _ H. eauto.
Qed.

Lemma shouldSkipDirectory_false (d : Drifter) (dir : string) :
  shouldSkipDirectory d dir = false <->
  DirectoryAllowlist d = [] \/
  exists pattern, In pattern (DirectoryAllowlist d) /\ occurs_in pattern dir.
Proof.
  unfold shouldSkipDirectory.
  destruct (DirectoryAllowlist d) as [| p l] eqn:Hl; [split; auto |].
  rewrite negb_false_iff, existsb_exists.
  split.
  - intros (x & Hin & Hx). right. exists x. split; [exact Hin |].
    apply strings_Contains_occurs, Hx.
  - intros [Hnil | (x & Hin & Hx)]; [discriminate |].
    exists x. split; [exact Hin | apply strings_Contains_occurs, Hx].
Qed.

(** X1.  A directory is processed (not skipped) exactly when the allow-list
    is empty or one of its patterns occurs in the directory name. *)
Theorem directory_processed_iff_allowed (d : Drifter) (dir : string) :
  shouldSkipDirectory d dir = false <->
  DirectoryAllowlist d = [] \/
  exists pattern, In pattern (DirectoryAllowlist d) /\ occurs_in pattern dir.
Proof. apply shouldSkipDirectory_false. Qed.

(** X2.  With a non-empty allow-list none of whose patterns occurs in a
    directory name, the work functions of both passes return nil for the
    directory without making any call. *)
Theorem skipped_directory_is_untouched (st : Stubs) (d : Drifter)
    (ws : DirectoriesWithWorkspaces) (dir : string) (w : World) :
  DirectoryAllowlist d <> [] ->
  (forall pattern, In pattern (DirectoryAllowlist d) -> ~ occurs_in pattern dir) ->
  run st (runningFunc d ws dir) w = (None, w) /\
  calls_of st (runningFunc d ws dir) w = [] /\
  run st (runFunc d ws dir) w = (None, w) /\
  calls_of st (runFunc d ws dir) w = [].
Proof.
  intros Hne Hnone.
  assert (Hskip : shouldSkipDirectory d dir = true).
  { destruct (shouldSkipDirectory d dir) eqn:H; [reflexivity | exfalso].
    apply shouldSkipDirectory_false in H.
    destruct H as [H | (p & Hin & Hp)]; [contradiction | exact (Hnone p Hin Hp)]. }
  unfold runningFunc, runFunc. rewrite Hskip. repeat split; reflexivity.
Qed.

Lemma skipped_directory_is_untouched_witness :
  DirectoryAllowlist onlyInfra <> [] /\
  (forall pattern, In pattern (DirectoryAllowlist onlyInfra) -> ~ occurs_in pattern "apps/web") /\
  calls_of calm (runningFunc onlyInfra twoDirectories "apps/web") emptyWorld = [] /\
  calls_of calm (runFunc onlyInfra twoDirectories "apps/web") emptyWorld = [].
Proof.
  assert (Hne : DirectoryAllowlist onlyInfra <> []) by discriminate.
  assert (Hnone : forall pattern, In pattern (DirectoryAllowlist onlyInfra) ->
                                  ~ occurs_in pattern "apps/web").
  { intros pattern Hin Hocc. apply strings_Contains_occurs in Hocc.
    simpl in Hin. destruct Hin as [<- | [<- | []]]; vm_compute in Hocc; discriminate. }
  split; [exact Hne |]. split; [exact Hnone |].
  destruct (skipped_directory_is_untouched calm onlyInfra twoDirectories "apps/web"
              emptyWorld Hne Hnone) as (_ & H1 & _ & H2).
  split; assumption.
Defined.

(** ** More about the drift checker *)

Ltac by_cases :=
  repeat (match goal with
          | |- context [match ?e with _ => _ end] => destruct e eqn:?
          end; simpl).


Lemma unwraps_fmt_Errorf (prefix : list string) (cause : error) :
  unwraps_to (fmt_Errorf prefix cause) cause.
Proof. unfold fmt_Errorf. simpl. right. destruct cause; left; reflexivity. Qed.

Lemma time_Sub_diag (t : Z) : time_Sub t t = 0.
Proof. unfold time_Sub. rewrite Z.sub_diag. reflexivity. Qed.

(** A drift notification of [checkWorkspace] is for its own pair and for a
    plan with changes that is not locked. *)
Lemma checkWorkspace_reports_drift_only (st : Stubs) (d : Drifter) (dir workspace : string)
    (w : World) (dir' workspace' cliffnote : string) :
  In (NotifyPlanDrift dir' workspace' cliffnote)
     (calls_of st (checkWorkspace d dir workspace) w) ->
  dir' = dir /\ workspace' = workspace /\
  exists pr,
    planSummary st (planSummaryRequest d dir workspace) = Ok pr /\
    HasChanges pr = true /\ IsLocked pr = false /\
    cliffnote = GetPlanResultSummary pr.
Proof.
  unfold checkWorkspace, queryAndClassify. simpl. by_cases; intros Hin;
    repeat (destruct Hin as [Hin | Hin]; try discriminate Hin);
    try contradiction;
    injection Hin as <- <- <-; repeat split; eauto.
Qed.

(** X3.  Every drift notification sent by the work function of a directory
    is for that directory and one of its declared workspaces, and the plan
    of that pair has changes and is not locked; the note it carries is the
    summary of that plan. *)
Theorem drift_reported_only_for_changed_unlocked (st : Stubs) (d : Drifter)
    (ws : DirectoriesWithWorkspaces) (dir : string) (w : World)
    (dir' workspace cliffnote : string) :
  In (NotifyPlanDrift dir' workspace cliffnote) (calls_of st (runningFunc d ws dir) w) ->
  dir' = dir /\ In workspace (ws_index ws dir) /\
  exists pr,
    planSummary st (planSummaryRequest d dir workspace) = Ok pr /\
    HasChanges pr = true /\ IsLocked pr = false /\
    cliffnote = GetPlanResultSummary pr.
Proof.
  unfold runningFunc. destruct (shouldSkipDirectory d dir); [intros [] |].
  generalize (ws_index ws dir) as l. intros l. revert w.
  induction l as [| x l IH]; intros w Hin; [destruct Hin |].
  rewrite calls_of_forRange_cons in Hin. apply in_app_or in Hin.
  destruct Hin as [Hin | Hin].
  - destruct (checkWorkspace_reports_drift_only st d dir x w _ _ _ Hin) as (-> & -> & Hpr).
    split; [reflexivity |]. split; [left; reflexivity | exact Hpr].
  - destruct (run st (checkWorkspace d dir x) w) as [[err |] w1]; [destruct Hin |].
    destruct (IH w1 Hin) as (Hd & Hw & Hpr).
    split; [exact Hd |]. split; [right; exact Hw | exact Hpr].
Qed.

Lemma drift_reported_only_for_changed_unlocked_witness :
  In (NotifyPlanDrift "infra/db" "prod" "Plan: 0 to add, 1 to change, 0 to destroy.")
     (calls_of calm (runningFunc (drifter 1) twoDirectories "infra/db") emptyWorld) /\
  exists pr,
    planSummary calm (planSummaryRequest (drifter 1) "infra/db" "prod") = Ok pr /\
    HasChanges pr = true /\ IsLocked pr = false.
Proof.
  assert (Hin : In (NotifyPlanDrift "infra/db" "prod"
                      "Plan: 0 to add, 1 to change, 0 to destroy.")
                   (calls_of calm (runningFunc (drifter 1) twoDirectories "infra/db")
                      emptyWorld))
    by (vm_compute; do 4 right; left; reflexivity).
  split; [exact Hin |].
  destruct (drift_reported_only_for_changed_unlocked calm (drifter 1) twoDirectories
              "infra/db" emptyWorld _ _ _ Hin) as (_ & _ & pr & Hp & Hc & Hl & _).
  exists pr. auto.
Defined.






Lemma queryAndClassify_error_has_cause (st : Stubs) (d : Drifter) (dir workspace : string)
    (w : World) (err : error) :
  (run st (queryAndClassify d dir workspace) w).1 = Some err ->
  exists cause,
    unwraps_to err cause /\
    ((planSummary st (planSummaryRequest d dir workspace) = Err cause /\
      errors_As_Temporary cause = false) \/
     storeDriftFails st (driftCacheKey dir workspace) = Some cause \/
     exists pr,
       planSummary st (planSummaryRequest d dir workspace) = Ok pr /\
       HasChanges pr = true /\ IsLocked pr = false /\
       planDrift st dir workspace (GetPlanResultSummary pr) = Some cause).
Proof.
  unfold queryAndClassify, driftCacheKey. simpl.
  destruct (planSummary st _) as [pr | e] eqn:Hplan; simpl.
  2:{ destruct (errors_As_Temporary e) eqn:Htmp; simpl; [discriminate |].
      intros [= <-]. exists e. split; [apply unwraps_fmt_Errorf | auto]. }
  destruct (storeDriftFails st _) as [e |] eqn:Hstore; simpl.
  { intros [= <-]. exists e. split; [apply unwraps_fmt_Errorf | auto]. }
  destruct (IsLocked pr) eqn:Hlocked; simpl; [discriminate |].
  destruct (HasChanges pr) eqn:Hchg; simpl; [| discriminate].
  destruct (planDrift st _ _ _) as [e |] eqn:Hsink; simpl; [| discriminate].
  intros [= <-]. exists e. split; [apply unwraps_fmt_Errorf |].
  right. right. exists pr. auto.
Qed.

(** X5.  An error returned by the check of a pair wraps the error of the
    call that failed: the lookup, the delete, a plan query whose error is
    not temporary, the store, or the drift notification of a changed and
    unlocked plan.  A temporary plan error is never returned. *)
Theorem drift_check_error_has_cause (st : Stubs) (d : Drifter) (dir workspace : string)
    (w : World) (err : error) :
  (run st (checkWorkspace d dir workspace) w).1 = Some err ->
  exists cause,
    unwraps_to err cause /\
    (getDriftFails st (driftCacheKey dir workspace) = Some cause \/
     deleteDriftFails st (driftCacheKey dir workspace) = Some cause \/
     (planSummary st (planSummaryRequest d dir workspace) = Err cause /\
      errors_As_Temporary cause = false) \/
     storeDriftFails st (driftCacheKey dir workspace) = Some cause \/
     exists pr,
       planSummary st (planSummaryRequest d dir workspace) = Ok pr /\
       HasChanges pr = true /\ IsLocked pr = false /\
       planDrift st dir workspace (GetPlanResultSummary pr) = Some cause).
Proof.
  assert (Hquery : forall w1,
            (run st (queryAndClassify d dir workspace) w1).1 = Some err ->
            exists cause,
              unwraps_to err cause /\
              (getDriftFails st (driftCacheKey dir workspace) = Some cause \/
               deleteDriftFails st (driftCacheKey dir workspace) = Some cause \/
               (planSummary st (planSummaryRequest d dir workspace) = Err cause /\
                errors_As_Temporary cause = false) \/
               storeDriftFails st (driftCacheKey dir workspace) = Some cause \/
               exists pr,
                 planSummary st (planSummaryRequest d dir workspace) = Ok pr /\
                 HasChanges pr = true /\ IsLocked pr = false /\
                 planDrift st dir workspace (GetPlanResultSummary pr) = Some cause)).
  { intros w1 H.
    destruct (queryAndClassify_error_has_cause st d dir workspace w1 err H)
      as (cause & Hu & [Hc | [Hc | Hc]]); exists cause; auto 6. }
  destruct (getDriftFails st (driftCacheKey dir workspace)) as [e |] eqn:Hget.
  { destruct (gate_lookup_fails st d dir workspace w e Hget) as [-> _].
    intros [= <-]. exists e. split; [apply unwraps_fmt_Errorf | auto]. }
  destruct (driftCache w !! (dir, workspace)) as [cacheVal |] eqn:Hrec.
  2:{ destruct (gate_absent st d dir workspace w Hget Hrec) as [-> _]. apply Hquery. }
  destruct (Z.lt_ge_cases (age st (When cacheVal)) (CacheValidDuration d)) as [Hage | Hage].
  { destruct (gate_fresh st d dir workspace w cacheVal Hget Hrec Hage) as [-> _].
    discriminate. }
  destruct (deleteDriftFails st (driftCacheKey dir workspace)) as [e |] eqn:Hdel.
  { destruct (gate_stale_delete_fails st d dir workspace w cacheVal e Hget Hrec Hage Hdel)
      as [-> _].
    intros [= <-]. exists e. split; [apply unwraps_fmt_Errorf | auto]. }
  destruct (gate_stale_deleted st d dir workspace w cacheVal Hget Hrec Hage Hdel) as [-> _].
  apply Hquery.
Qed.

Lemma drift_check_error_has_cause_witness :
  (run deafSink (checkWorkspace (drifter 1) "infra/db" "prod") emptyWorld).1 =
    Some (fmt_Errorf ["failed to notify of plan drift in "; "infra/db"] webhookDown) /\
  exists cause,
    unwraps_to (fmt_Errorf ["failed to notify of plan drift in "; "infra/db"] webhookDown) cause.
Proof.
  assert (Hres : (run deafSink (checkWorkspace (drifter 1) "infra/db" "prod") emptyWorld).1 =
                 Some (fmt_Errorf ["failed to notify of plan drift in "; "infra/db"] webhookDown))
    by reflexivity.
  split; [exact Hres |].
  destruct (drift_check_error_has_cause deafSink (drifter 1) "infra/db" "prod" emptyWorld _ Hres)
    as (cause & Hcause & _).
  exists cause. exact Hcause.
Defined.

(** ** The counter counts the drift notifications *)

Lemma bumped_add (a b : nat) (c : Z) : bumped (a + b) c = bumped b (bumped a c).
Proof.
  unfold bumped. rewrite Nat.add_comm. apply Nat.iter_add.
Qed.

(** Below the int32 maximum the counter does not wrap. *)
Lemma bumped_small (k : nat) (c : Z) :
  - 2 ^ 31 <= c -> c + Z.of_nat k < 2 ^ 31 -> bumped k c = c + Z.of_nat k.
Proof.
  induction k as [| k IH]; intros Hlo Hhi; [simpl; lia |].
  unfold bumped in *. simpl Nat.iter. rewrite IH by lia.
  unfold add32, wrap32.
  rewrite Z.mod_small by lia. lia.
Qed.

Lemma paired_bind (st : Stubs) {A B : Type} (m : prog A) (f : A -> prog B) :
  paired_calls st m -> (forall a, paired_calls st (f a)) -> paired_calls st (bind m f).
Proof.
  intros Hm Hf w c. rewrite calls_of_bind.
  destruct (run st m w) as [a w1].
  rewrite counted_app, List.filter_app, length_app, bumped_add, Hm, Hf. reflexivity.
Qed.

Lemma paired_forRange (st : Stubs) {T : Type} (l : list T) (body : T -> errFunc) :
  (forall x, paired_calls st (body x)) -> paired_calls st (forRange l body).
Proof.
  intros Hbody. induction l as [| x l IH]; [intros w c; reflexivity |].
  simpl. apply paired_bind; [apply Hbody |].
  intros [err |]; [intros w c; reflexivity | exact IH].
Qed.

Lemma only_calls (st : Stubs) {A : Type} (P : op -> Prop) (p : prog A) (w : World) :
  only P p -> Forall P (calls_of st p w).
Proof.
  revert w. induction p as [a | o k IH]; intros w Hp; simpl; [constructor |].
  destruct Hp as [Ho Hk]. apply Forall_app. split.
  - destruct o; simpl; repeat constructor; exact Ho.
  - destruct (handle st o w) as [x w']. apply IH, Hk.
Qed.

Lemma only_bind {A B : Type} (P : op -> Prop) (m : prog A) (f : A -> prog B) :
  only P m -> (forall a, only P (f a)) -> only P (bind m f).
Proof.
  induction m as [a | o k IH]; simpl; intros Hm Hf; [apply Hf |].
  destruct Hm as [Ho Hk]. split; [exact Ho | intros x; apply IH; auto].
Qed.

Lemma only_forRange {T : Type} (P : op -> Prop) (l : list T) (body : T -> errFunc) :
  (forall x, only P (body x)) -> only P (forRange l body).
Proof.
  intros Hbody. induction l as [| x l IH]; simpl; [exact I |].
  apply only_bind; [apply Hbody |]. intros [err |]; [exact I | exact IH].
Qed.

Lemma uncounted_paired (st : Stubs) {A : Type} (p : prog A) :
  only uncounted p -> paired_calls st p.
Proof.
  intros Hp w c. pose proof (only_calls st uncounted p w Hp) as Hall.
  revert c. induction Hall as [| o l [Ha Hd] _ IH]; intros c; [reflexivity |].
  simpl. rewrite Hd. unfold counted in *. simpl.
  destruct o; try discriminate Ha; apply IH.
Qed.

Ltac only_cases :=
  repeat (simpl;
          match goal with
          | |- True => exact I
          | |- uncounted _ => split; reflexivity
          | |- _ /\ _ => split
          | |- forall _, _ => intro
          | |- context [match ?x with _ => _ end] => destruct x
          end).

Lemma uncounted_runFunc (d : Drifter) (ws : DirectoriesWithWorkspaces) (dir : string) :
  only uncounted (runFunc d ws dir).
Proof.
  assert (Hloop : forall expected remote,
            only uncounted (reportExtraWorkspaces dir expected remote)).
  { intros. apply only_forRange. intros x. unfold reportIfExtra. only_cases. }
  assert (Hlist : only uncounted (listAndNotify d ws dir)).
  { unfold listAndNotify. simpl. split; [split; reflexivity |]. intros [ierr |]; [exact I |].
    simpl. split; [split; reflexivity |]. intros [remote | lerr]; [| exact I].
    apply only_bind; [apply Hloop |]. intros [lerr |]; only_cases. }
  unfold runFunc. destruct (shouldSkipDirectory d dir); [exact I |].
  simpl. split; [split; reflexivity |]. intros [[cacheVal |] | err]; simpl; auto.
  split; [split; reflexivity |]. intros now.
  destruct (_ <? _); [exact I |]. simpl. split; [split; reflexivity |].
  intros [derr |]; [exact I | exact Hlist].
Qed.

Lemma paired_checkWorkspace (st : Stubs) (d : Drifter) (dir workspace : string) :
  paired_calls st (checkWorkspace d dir workspace).
Proof.
  intros w c. unfold checkWorkspace, queryAndClassify. simpl. by_cases; reflexivity.
Qed.

Lemma paired_Drift_sequential (st : Stubs) (d : Drifter) :
  paired_calls st (Drift_sequential d).
Proof.
  unfold Drift_sequential. apply paired_bind.
  { apply uncounted_paired. unfold checkOutAndParse. only_cases. }
  intros [workspaces | err]; [| intros w c; reflexivity].
  apply paired_bind.
  { unfold FindDriftedWorkspaces_sequential, drainAndExecute_sequential, driftRuns.
    generalize (SortedKeys workspaces) as dirs. intros dirs.
    induction dirs as [| dir dirs IH]; [intros w c; reflexivity |].
    simpl. apply paired_bind.
    - unfold runningFunc. destruct (shouldSkipDirectory d dir); [intros w c; reflexivity |].
      apply paired_forRange. intros x. apply paired_checkWorkspace.
    - intros [err |]; [intros w c; reflexivity | exact IH]. }
  intros [err |]; [intros w c; reflexivity |].
  apply paired_bind.
  { apply uncounted_paired.
    unfold FindExtraWorkspaces_sequential, drainAndExecute_sequential, extraRuns.
    destruct (SkipWorkspaceCheck d); [exact I |].
    generalize (SortedKeys workspaces) as dirs. intros dirs.
    induction dirs as [| dir dirs IH]; [exact I |].
    simpl. apply only_bind; [apply uncounted_runFunc |].
    intros [err |]; [exact I | exact IH]. }
  intros [err |]; [intros w c; reflexivity |].
  intros w c. reflexivity.
Qed.

(** X6.  In a run on one goroutine the counter ends at its initial value
    incremented once per drift notification sent; a run that ends with nil
    ends with the summary call, which carries that value; and a counter
    that starts at 0 is the number of drift notifications as long as that
    stays below 2^31. *)
Theorem summary_counts_drift_notifications (st : Stubs) (d : Drifter) (w : World) :
  let calls := calls_of st (Drift_sequential d) w in
  let w' := (run st (Drift_sequential d) w).2 in
  let sent := length (List.filter isPlanDrift calls) in
  DriftedWorkspaceCount w' = bumped sent (DriftedWorkspaceCount w) /\
  ((run st (Drift_sequential d) w).1 = None ->
   last calls = Some (NotifyWorkspaceDriftSummary [DriftedWorkspaceCount w'])) /\
  (DriftedWorkspaceCount w = 0 -> Z.of_nat sent < 2 ^ 31 ->
   DriftedWorkspaceCount w' = Z.of_nat sent).
Proof.
  intros calls w' sent.
  assert (Hcount : DriftedWorkspaceCount w' = bumped sent (DriftedWorkspaceCount w)).
  { unfold w', sent, calls. rewrite run_counted. apply paired_Drift_sequential. }
  split; [exact Hcount |]. split.
  - unfold calls, w'. unfold Drift_sequential.
    rewrite run_bind, calls_of_bind.
    destruct (run st (checkOutAndParse d) w) as [[workspaces | err] w1]; [| discriminate].
    rewrite run_bind, calls_of_bind.
    destruct (run st (FindDriftedWorkspaces_sequential d workspaces) w1) as [[err |] w2];
      [discriminate |].
    rewrite run_bind, calls_of_bind.
    destruct (run st (FindExtraWorkspaces_sequential d workspaces) w2) as [[err |] w3];
      [discriminate |].
    intros _.
    change (calls_of st summarize w3)
      with [NotifyWorkspaceDriftSummary [DriftedWorkspaceCount w3]].
    change (run st summarize w3).2
      with (log (NotifyWorkspaceDriftSummary [DriftedWorkspaceCount w3]) w3).
    cbn [DriftedWorkspaceCount log].
    rewrite !app_assoc. apply last_snoc.
  - intros Hzero Hsmall. rewrite Hcount, Hzero.
    rewrite bumped_small; lia.
Qed.

Lemma summary_counts_drift_notifications_witness :
  (run calm (Drift_sequential (drifter 1)) emptyWorld).1 = None /\
  DriftedWorkspaceCount emptyWorld = 0 /\
  DriftedWorkspaceCount (run calm (Drift_sequential (drifter 1)) emptyWorld).2 = 1 /\
  last (calls_of calm (Drift_sequential (drifter 1)) emptyWorld) =
    Some (NotifyWorkspaceDriftSummary [1]).
Proof.
  assert (Hres : (run calm (Drift_sequential (drifter 1)) emptyWorld).1 = None)
    by (vm_compute; reflexivity).
  destruct (summary_counts_drift_notifications calm (drifter 1) emptyWorld)
    as (Hcount & Hlast & _).
  split; [exact Hres |]. split; [reflexivity |].
  assert (Hone : DriftedWorkspaceCount (run calm (Drift_sequential (drifter 1)) emptyWorld).2
                 = 1) by (rewrite Hcount; vm_compute; reflexivity).
  split; [exact Hone |].
  rewrite (Hlast Hres), Hone. reflexivity.
Defined.

(** ** More about the reconciler *)

Lemma reportExtraWorkspaces_error_has_cause (st : Stubs) (dir : string)
    (expected remote : list string) (w : World) (err : error) :
  (run st (reportExtraWorkspaces dir expected remote) w).1 = Some err ->
  exists x cause,
    In x (extras expected remote) /\
    extraWorkspaceInRemote st dir x = Some cause /\
    unwraps_to err cause.
Proof.
  unfold reportExtraWorkspaces. revert w.
  induction remote as [| z remote IH]; intros w Hres; [discriminate |].
  rewrite run_forRange_cons in Hres. setoid_rewrite extras_cons.
  destruct (contains expected z) eqn:Hz.
  - destruct (reportIfExtra_expected st dir expected z w Hz) as [Hr _].
    rewrite Hr in Hres. apply IH in Hres. exact Hres.
  - destruct (reportIfExtra_extra st dir expected z w Hz) as [Hr _].
    rewrite Hr in Hres.
    destruct (extraWorkspaceInRemote st dir z) as [zerr |] eqn:Hsink.
    + injection Hres as <-. exists z, zerr.
      split; [left; reflexivity |]. split; [exact Hsink | apply unwraps_fmt_Errorf].
    + apply IH in Hres. destruct Hres as (x & cause & Hin & Hx & Hu).
      exists x, cause. split; [right; exact Hin | auto].
Qed.

(** X7.  An error returned by the reconciliation of a directory wraps the
    error of the call that failed: the cache lookup, the delete of a stale
    record, terraform init, the listing, the notification of one of the
    extra workspaces, or the store. *)
Theorem reconcile_error_has_cause (st : Stubs) (d : Drifter)
    (ws : DirectoriesWithWorkspaces) (dir : string) (w : World) (err : error) :
  (run st (runFunc d ws dir) w).1 = Some err ->
  exists cause,
    unwraps_to err cause /\
    (getRemoteFails st dir = Some cause \/
     deleteRemoteFails st dir = Some cause \/
     terraformInit st dir = Some cause \/
     terraformListWorkspaces st dir = Err cause \/
     storeRemoteFails st dir = Some cause \/
     exists remote x,
       terraformListWorkspaces st dir = Ok remote /\
       In x (undeclared (ws_index ws dir) remote) /\
       extraWorkspaceInRemote st dir x = Some cause).
Proof.
  assert (Hlist : forall w1,
            (run st (listAndNotify d ws dir) w1).1 = Some err ->
            exists cause,
              unwraps_to err cause /\
              (terraformInit st dir = Some cause \/
               terraformListWorkspaces st dir = Err cause \/
               storeRemoteFails st dir = Some cause \/
               exists remote x,
                 terraformListWorkspaces st dir = Ok remote /\
                 In x (undeclared (ws_index ws dir) remote) /\
                 extraWorkspaceInRemote st dir x = Some cause)).
  { intros w1 Hres.
    destruct (terraformInit st dir) as [ierr |] eqn:Hinit.
    { destruct (listAndNotify_init_fails st d ws dir w1 ierr Hinit) as [Hr _].
      rewrite Hr in Hres. injection Hres as <-.
      exists ierr. split; [apply unwraps_fmt_Errorf | auto]. }
    destruct (terraformListWorkspaces st dir) as [remote | lerr] eqn:Hl.
    2:{ destruct (listAndNotify_list_fails st d ws dir w1 lerr Hinit Hl) as [Hr _].
        rewrite Hr in Hres. injection Hres as <-.
        exists lerr. split; [apply unwraps_fmt_Errorf | auto]. }
    destruct (listAndNotify_listed st d ws dir w1 remote Hinit Hl) as (_ & Hr & _).
    rewrite Hr in Hres.
    destruct (run st (reportExtraWorkspaces dir (ws_index ws dir ++ ["default"]) remote)
                (log (TerraformListWorkspaces dir) (log (TerraformInit dir) w1))).1
      as [loopErr |] eqn:Hloop.
    - injection Hres as <-.
      destruct (reportExtraWorkspaces_error_has_cause st dir _ remote _ _ Hloop)
        as (x & cause & Hin & Hx & Hu).
      rewrite extras_undeclared in Hin.
      exists cause. split; [exact Hu |]. right. right. right. exists remote, x. auto.
    - destruct (storeRemoteFails st dir) as [serr |]; [| discriminate].
      injection Hres as <-. exists serr. split; [apply unwraps_fmt_Errorf | auto]. }
  assert (Hlist' : forall w1,
            (run st (listAndNotify d ws dir) w1).1 = Some err ->
            exists cause,
              unwraps_to err cause /\
              (getRemoteFails st dir = Some cause \/
               deleteRemoteFails st dir = Some cause \/
               terraformInit st dir = Some cause \/
               terraformListWorkspaces st dir = Err cause \/
               storeRemoteFails st dir = Some cause \/
               exists remote x,
                 terraformListWorkspaces st dir = Ok remote /\
                 In x (undeclared (ws_index ws dir) remote) /\
                 extraWorkspaceInRemote st dir x = Some cause)).
  { intros w1 Hres. destruct (Hlist w1 Hres) as (cause & Hu & [H | [H | [H | H]]]);
      exists cause; auto 8. }
  clear Hlist. revert Hlist'.
  unfold runFunc. destruct (shouldSkipDirectory d dir); [discriminate |].
  simpl.
  destruct (getRemoteFails st dir) as [gerr |]; simpl.
  { intros _ [= <-]. exists gerr. split; [apply unwraps_fmt_Errorf | auto]. }
  destruct (workspacesCache w !! dir) as [cacheVal |]; simpl; [| intros H; apply H].
  destruct (_ <? _); simpl; [discriminate |].
  destruct (deleteRemoteFails st dir) as [derr |]; simpl; [| intros H; apply H].
  intros _ [= <-]. exists derr. split; [apply unwraps_fmt_Errorf | auto].
Qed.

Lemma reconcile_error_has_cause_witness :
  (run listingBroken (runFunc (drifter 1) twoDirectories "infra/db") emptyWorld).1 =
    Some (fmt_Errorf ["failed to list workspaces in "; "infra/db"]
            (Leaf "terraform workspace list failed" None)) /\
  exists cause,
    unwraps_to (fmt_Errorf ["failed to list workspaces in "; "infra/db"]
                  (Leaf "terraform workspace list failed" None)) cause /\
    terraformListWorkspaces listingBroken "infra/db" = Err cause.
Proof.
  assert (Hres : (run listingBroken (runFunc (drifter 1) twoDirectories "infra/db")
                    emptyWorld).1 =
                 Some (fmt_Errorf ["failed to list workspaces in "; "infra/db"]
                         (Leaf "terraform workspace list failed" None)))
    by reflexivity.
  split; [exact Hres |].
  destruct (reconcile_error_has_cause listingBroken (drifter 1) twoDirectories "infra/db"
              emptyWorld _ Hres) as (cause & Hu & _).
  exists (Leaf "terraform workspace list failed" None).
  split; [right; left; reflexivity | reflexivity].
Defined.

(** X8.  With a positive TTL, once the reconciliation of a directory that is
    not filtered out has returned nil, the listing cache holds a record for
    the directory that is younger than the TTL: the fresh record that was
    found, or a record of the remote listing stamped with the current
    time. *)
Theorem reconciled_directory_is_recorded (st : Stubs) (d : Drifter)
    (ws : DirectoriesWithWorkspaces) (dir : string) (w : World) :
  0 < CacheValidDuration d ->
  shouldSkipDirectory d dir = false ->
  (run st (runFunc d ws dir) w).1 = None ->
  exists v,
    workspacesCache (run st (runFunc d ws dir) w).2 !! dir = Some v /\
    age st (WsWhen v) < CacheValidDuration d /\
    (workspacesCache w !! dir = Some v \/
     exists remote,
       terraformListWorkspaces st dir = Ok remote /\ v = listingRecord st remote).
Proof.
  intros Httl Hskip.
  assert (Hlist : forall w1,
            (run st (listAndNotify d ws dir) w1).1 = None ->
            exists v,
              workspacesCache (run st (listAndNotify d ws dir) w1).2 !! dir = Some v /\
              age st (WsWhen v) < CacheValidDuration d /\
              exists remote,
                terraformListWorkspaces st dir = Ok remote /\ v = listingRecord st remote).
  { intros w1 Hres.
    destruct (terraformInit st dir) as [ierr |] eqn:Hinit.
    { destruct (listAndNotify_init_fails st d ws dir w1 ierr Hinit) as [Hr _].
      rewrite Hr in Hres. discriminate. }
    destruct (terraformListWorkspaces st dir) as [remote | lerr] eqn:Hl.
    2:{ destruct (listAndNotify_list_fails st d ws dir w1 lerr Hinit Hl) as [Hr _].
        rewrite Hr in Hres. discriminate. }
    destruct (listAndNotify_listed st d ws dir w1 remote Hinit Hl) as (_ & Hr & Hc).
    rewrite Hr in Hres. rewrite Hc.
    destruct (run st (reportExtraWorkspaces dir (ws_index ws dir ++ ["default"]) remote)
                (log (TerraformListWorkspaces dir) (log (TerraformInit dir) w1))).1;
      [discriminate |].
    destruct (storeRemoteFails st dir); [discriminate |].
    exists (listingRecord st remote).
    split; [apply lookup_insert_eq |].
    split; [unfold age; simpl; rewrite time_Sub_diag; exact Httl |].
    exists remote. auto. }
  revert Hlist. unfold runFunc. rewrite Hskip. simpl.
  destruct (getRemoteFails st dir) as [gerr |]; simpl; [discriminate |].
  destruct (workspacesCache w !! dir) as [cacheVal |] eqn:Hrec; simpl.
  2:{ intros Hlist Hres. destruct (Hlist _ Hres) as (v & Hv & Hage & Hnew).
      exists v. auto. }
  destruct (Z.ltb_spec (time_Sub (clock st) (WsWhen cacheVal)) (CacheValidDuration d))
    as [Hage | Hage]; simpl.
  { intros _ _. exists cacheVal. auto. }
  destruct (deleteRemoteFails st dir) as [derr |]; simpl; [discriminate |].
  intros Hlist Hres. destruct (Hlist _ Hres) as (v & Hv & Hage' & Hnew).
  exists v. auto.
Qed.

Lemma reconciled_directory_is_recorded_witness :
  0 < CacheValidDuration (drifter 1) /\
  shouldSkipDirectory (drifter 1) "infra/db" = false /\
  (run calm (runFunc (drifter 1) twoDirectories "infra/db") emptyWorld).1 = None /\
  exists v,
    workspacesCache (run calm (runFunc (drifter 1) twoDirectories "infra/db") emptyWorld).2
      !! "infra/db" = Some v /\
    age calm (WsWhen v) < CacheValidDuration (drifter 1).
Proof.
  assert (Httl : 0 < CacheValidDuration (drifter 1)) by (vm_compute; reflexivity).
  assert (Hres : (run calm (runFunc (drifter 1) twoDirectories "infra/db") emptyWorld).1 = None)
    by reflexivity.
  split; [exact Httl |]. split; [reflexivity |]. split; [exact Hres |].
  destruct (reconciled_directory_is_recorded calm (drifter 1) twoDirectories "infra/db"
              emptyWorld Httl eq_refl Hres) as (v & Hv & Hage & _).
  exists v. auto.
Defined.

(** ** The pool loses no error *)

Section PoolErrors.

Context (st : Stubs) (f : string -> errFunc) (w0 : World) (ds : list string).
Hypothesis f_within : forall dir, within dir (f dir).
Hypothesis ds_NoDup : NoDup ds.

Lemma pool_errs_init (d : Drifter) : pool_errs st f w0 ds (pool_init d (map f ds) w0).
Proof.
  exists [], [], ds, []. simpl.
  split; [rewrite app_nil_r; reflexivity |].
  split; [reflexivity |].
  split; [rewrite busy_replicate_Idle; reflexivity |].
  split; [reflexivity |].
  split; [discriminate |].
  split; [constructor |].
  split; [apply Forall_forall; intros; apply same_view_refl | constructor].
Qed.

Lemma pool_errs_act (a : action) (P P' : pool) :
  pool_errs st f w0 ds P ->
  pool_act st a P = Some P' ->
  pool_errs st f w0 ds P'.
Proof.
  intros (fin & act & pend & failed & Hds & Hfeed & Hbusy & Hnone & Hsome & Hact & Hpend & Hfin)
         Hstep.
  destruct a as [i | | | i | i | i]; simpl in Hstep.
  - (* Send *)
    destruct (feeder P) as [[| r rest] |] eqn:Hf; try discriminate.
    destruct (workers P !! i) as [[| |] |] eqn:Hi; try discriminate.
    injection Hstep as <-.
    destruct pend as [| dir pend']; [discriminate |].
    simpl in Hfeed. injection Hfeed as -> ->.
    apply Forall_cons in Hpend. destruct Hpend as [Hdir Hpend].
    destruct (run_frame st dir (f dir) (world P) w0 (f_within dir) Hdir) as (Hr & _ & _).
    exists fin, ((dir, f dir) :: act), pend', failed. simpl.
    split; [rewrite Hds; apply Permutation_app_head; symmetry; apply Permutation_middle |].
    split; [reflexivity |].
    split; [rewrite (busy_insert_start _ i Idle _ Hi eq_refl), Hbusy; reflexivity |].
    split; [exact Hnone |].
    split; [exact Hsome |].
    split; [constructor; [simpl; auto | exact Hact] |].
    split; assumption.
  - (* Close *)
    destruct (feeder P) as [[| r rest] |] eqn:Hf; try discriminate.
    injection Hstep as <-.
    destruct pend as [| dir pend']; [| discriminate].
    exists fin, act, [], failed. simpl.
    repeat (split; [assumption || (left; reflexivity) |]). assumption.
  - (* FeederCancelled *)
    destruct (feeder P) as [l |] eqn:Hf; [| discriminate].
    destruct (firstErr P) as [e |] eqn:He; [| discriminate].
    injection Hstep as <-.
    exists fin, act, pend, failed. simpl.
    split; [exact Hds |].
    split; [right; discriminate |].
    repeat (split; [assumption |]). assumption.
  - (* RecvClosed *)
    destruct (workers P !! i) as [[| |] |] eqn:Hi; try discriminate.
    destruct (closed P); [| discriminate].
    injection Hstep as <-.
    exists fin, act, pend, failed. simpl.
    rewrite (busy_insert_same _ i Idle Exited Hi eq_refl eq_refl).
    repeat (split; [assumption |]). assumption.
  - (* WorkerCancelled *)
    destruct (workers P !! i) as [[| |] |] eqn:Hi; try discriminate.
    destruct (firstErr P) as [e |] eqn:He; [| discriminate].
    injection Hstep as <-.
    exists fin, act, pend, failed. simpl.
    rewrite (busy_insert_same _ i Idle Exited Hi eq_refl eq_refl).
    repeat (split; [assumption |]). assumption.
  - (* Step *)
    destruct (workers P !! i) as [[| p |] |] eqn:Hi; try discriminate.
    destruct (busy_insert_busy _ i p Hi) as (rest & Hrest & Hrun & Hstop).
    rewrite Hbusy in Hrest. symmetry in Hrest.
    destruct (active_pick act p rest Hrest) as (dir & act' & Hact' & Hrest').
    rewrite Hact' in Hact. apply Forall_cons in Hact. destruct Hact as [Hp Hact].
    simpl in Hp. destruct Hp as (Hpw & Hpr).
    assert (Hds' : ds ≡ₚ dir :: fin ++ act'.*1 ++ pend ++ failed).
    { rewrite Hds, Hact'. simpl. symmetry. apply Permutation_middle. }
    assert (Hnd : NoDup (dir :: fin ++ act'.*1 ++ pend ++ failed))
      by (rewrite <- Hds'; exact ds_NoDup).
    apply NoDup_cons in Hnd. destruct Hnd as [Hfresh _].
    rewrite !not_elem_of_app in Hfresh. destruct Hfresh as (Hnfin & Hnact & Hnpend & _).
    destruct p as [[err |] | o k].
    + (* the work function returns an error *)
      injection Hstep as <-.
      exists fin, act', pend, (dir :: failed). simpl.
      split.
      { rewrite Hds'. rewrite !app_assoc. apply Permutation_middle. }
      split.
      { destruct (feeder P); [exact Hfeed |].
        destruct Hfeed as [Hp | He]; [left; exact Hp |].
        right. destruct (firstErr P); [discriminate | contradiction]. }
      split; [rewrite (Hstop Exited eq_refl); exact Hrest' |].
      split; [destruct (firstErr P); discriminate |].
      split.
      { intros e He. destruct (firstErr P) as [e0 |] eqn:H0; simpl in He.
        - destruct (Hsome e He) as (dir0 & Hin & Hr0).
          exists dir0. split; [right; exact Hin | exact Hr0].
        - injection He as <-. exists dir. split; [left | symmetry; exact Hpr]. }
      split; [exact Hact |].
      split; assumption.
    + (* the work function returns nil *)
      injection Hstep as <-.
      exists (dir :: fin), act', pend, failed. simpl.
      split; [exact Hds' |].
      split; [exact Hfeed |].
      split; [rewrite (Hstop Idle eq_refl); exact Hrest' |].
      split; [exact Hnone |].
      split; [exact Hsome |].
      split; [exact Hact |].
      split; [exact Hpend |].
      constructor; [symmetry; exact Hpr | exact Hfin].
    + (* the work function makes its next call *)
      destruct Hpw as [Ho Hk].
      pose proof (others_views st dir o (world P) (fun _ => w0) pend Ho Hnpend Hpend) as Hpend2.
      assert (Hact2 : Forall (fun a => within a.1 a.2 /\
                        (run st a.2 (handle st o (world P)).2).1 = (run st (f a.1) w0).1)
                        act').
      { rewrite Forall_forall in Hact |- *. intros [dir' p'] Hin.
        destruct (Hact _ Hin) as (Hw & Hr). simpl in *.
        assert (Hne : dir' <> dir).
        { intros ->. apply Hnact. apply list_elem_of_fmap. exists (dir, p'). auto. }
        pose proof (handle_elsewhere st dir dir' o (world P) Ho Hne) as Hsame.
        destruct (run_frame st dir' p' _ _ Hw Hsame) as (Hr' & _ & _).
        split; [exact Hw | congruence]. }
      simpl in Hpr.
      destruct (handle st o (world P)) as [x W'] eqn:Hh. simpl in *.
      injection Hstep as <-.
      exists fin, ((dir, k x) :: act'), pend, failed. simpl.
      split; [rewrite Hds'; apply Permutation_middle |].
      split; [exact Hfeed |].
      split; [rewrite (Hrun (k x)), Hrest'; reflexivity |].
      split; [exact Hnone |].
      split; [exact Hsome |].
      split; [constructor; [simpl; auto | exact Hact2] |].
      split; assumption.
Qed.

Lemma pool_errs_acts (sched : list action) (P P' : pool) :
  pool_errs st f w0 ds P ->
  pool_acts st sched P = Some P' ->
  pool_errs st f w0 ds P'.
Proof.
  revert P. induction sched as [| a sched IH]; intros P Hinv Hrun; simpl in Hrun.
  - injection Hrun as <-. exact Hinv.
  - destruct (pool_act st a P) as [P1 |] eqn:Ha; [| discriminate].
    eapply IH; [eapply pool_errs_act; eassumption | exact Hrun].
Qed.

(** On one goroutine the pass ends with nil when every work function
    returns nil alone. *)
Lemma sequential_pass_nil (l : list string) (W : World) :
  NoDup l ->
  (forall dir, dir ∈ l -> same_view dir W w0) ->
  (forall dir, dir ∈ l -> (run st (f dir) w0).1 = None) ->
  (run st (drainAndExecute_sequential (map f l)) W).1 = None.
Proof.
  unfold drainAndExecute_sequential. revert W.
  induction l as [| a l IH]; intros W Hnd Hviews Hok; [reflexivity |].
  apply NoDup_cons in Hnd. destruct Hnd as [Ha Hnd].
  simpl map. rewrite run_forRange_cons.
  destruct (run_frame st a (f a) W w0 (f_within a) (Hviews a ltac:(left))) as (Hr & _ & _).
  rewrite (Hok a ltac:(left)) in Hr.
  destruct (run st (f a) W) as [[err |] W1] eqn:Hfa; [discriminate |].
  apply IH; [exact Hnd | | intros dir Hin; apply Hok; right; exact Hin].
  intros dir Hin.
  assert (Hne : dir <> a) by (intros ->; contradiction).
  pose proof (run_elsewhere st a dir (f a) W (f_within a) Hne) as He.
  rewrite Hfa in He. simpl in He.
  eapply same_view_trans; [exact He | apply Hviews; right; exact Hin].
Qed.

(** However the pool is scheduled, it ends with nil exactly when one
    goroutine does, and an error it ends with is the error some directory's
    work function returns alone. *)
Lemma pool_error_iff_sequential (d : Drifter) (sched : list action) (P : pool) :
  pool_acts st sched (pool_init d (map f ds) w0) = Some P ->
  pool_done P ->
  (firstErr P = None <-> (run st (drainAndExecute_sequential (map f ds)) w0).1 = None) /\
  (forall err, firstErr P = Some err ->
               exists dir, In dir ds /\ (run st (f dir) w0).1 = Some err).
Proof.
  intros Hsched Hdone.
  pose proof (pool_errs_acts sched _ P (pool_errs_init d) Hsched)
    as (fin & act & pend & failed & Hds & Hfeed & Hbusy & Hnone & Hsome & _ & _ & Hfin).
  split.
  - split.
    + intros Herr. destruct Hdone as [Hfeeder Hworkers].
      rewrite Hfeeder in Hfeed. rewrite Herr in Hfeed.
      destruct Hfeed as [-> | Hbad]; [| contradiction].
      rewrite (Hnone Herr) in Hds.
      assert (Hidle : omap busy_prog (workers P) = []).
      { clear -Hworkers. induction Hworkers as [| wk wks -> _ IH]; simpl;
          [reflexivity | exact IH]. }
      rewrite Hidle in Hbusy. symmetry in Hbusy. apply Permutation_nil_r in Hbusy.
      apply fmap_nil_inv in Hbusy. subst act. simpl in Hds. rewrite !app_nil_r in Hds.
      apply sequential_pass_nil; [exact ds_NoDup | intros; apply same_view_refl |].
      intros dir Hin. rewrite Forall_forall in Hfin. apply Hfin. rewrite <- Hds. exact Hin.
    + intros Hseq.
      destruct (run st (drainAndExecute_sequential (map f ds)) w0) as [r w1] eqn:Hrun.
      simpl in Hseq. subst r.
      apply (pool_agrees st f w0 f_within d ds w1 sched P ds_NoDup Hrun Hsched Hdone).
  - intros err Herr. destruct (Hsome err Herr) as (dir & Hin & Hr).
    exists dir. split; [| exact Hr].
    apply list_elem_of_In. rewrite Hds. rewrite !elem_of_app. auto.
Qed.

End PoolErrors.

(** X9.  With more than one worker, however the drift pass is scheduled it
    returns nil exactly when the pass on one goroutine returns nil, and an
    error it returns is the error that the work function of one of the
    directories returns when run alone: the pool neither loses nor invents
    an error.  The same holds for the reconciliation pass. *)
Theorem pool_loses_no_error (st : Stubs) (d : Drifter) (ws : DirectoriesWithWorkspaces)
    (w : World) :
  1 < ParallelRuns d ->
  (forall res w',
     drainAndExecute st d (driftRuns d ws) w res w' ->
     (res = None <-> (run st (FindDriftedWorkspaces_sequential d ws) w).1 = None) /\
     (forall err, res = Some err ->
        exists dir, In dir (SortedKeys ws) /\
                    (run st (runningFunc d ws dir) w).1 = Some err)) /\
  (forall res w',
     drainAndExecute st d (extraRuns d ws) w res w' ->
     (res = None <-> (run st (drainAndExecute_sequential (extraRuns d ws)) w).1 = None) /\
     (forall err, res = Some err ->
        exists dir, In dir (SortedKeys ws) /\
                    (run st (runFunc d ws dir) w).1 = Some err)).
Proof.
  intros Hn. split; intros res w' Hrun;
    (destruct Hrun as [res w' Hle _ | sched P _ Hacts Hdone]; [lia |]).
  - apply (pool_error_iff_sequential st (runningFunc d ws) w (SortedKeys ws)
             (within_runningFunc d ws) (SortedKeys_NoDup ws) d sched P Hacts Hdone).
  - apply (pool_error_iff_sequential st (runFunc d ws) w (SortedKeys ws)
             (within_runFunc d ws) (SortedKeys_NoDup ws) d sched P Hacts Hdone).
Qed.

Lemma pool_loses_no_error_witness :
  1 < ParallelRuns (with_ParallelRuns 2 (drifter 1)) /\
  exists err w',
    drainAndExecute brokenDb (with_ParallelRuns 2 (drifter 1))
      (driftRuns (with_ParallelRuns 2 (drifter 1)) twoDirectories) parsedWorld (Some err) w' /\
    exists dir,
      In dir (SortedKeys twoDirectories) /\
      (run brokenDb (runningFunc (with_ParallelRuns 2 (drifter 1)) twoDirectories dir)
         parsedWorld).1 = Some err.
Proof.
  assert (Hn : 1 < ParallelRuns (with_ParallelRuns 2 (drifter 1))) by (vm_compute; reflexivity).
  split; [exact Hn |].
  assert (H : exists P,
            pool_acts brokenDb networkFirst
              (pool_init (with_ParallelRuns 2 (drifter 1))
                 (driftRuns (with_ParallelRuns 2 (drifter 1)) twoDirectories) parsedWorld)
              = Some P /\
            pool_done P /\ exists err, firstErr P = Some err).
  { vm_compute. eexists. split; [reflexivity |].
    split; [split; [reflexivity | repeat constructor] | eexists; reflexivity]. }
  destruct H as (P & HP & Hdone & err & Herr).
  assert (Hrun : drainAndExecute brokenDb (with_ParallelRuns 2 (drifter 1))
                   (driftRuns (with_ParallelRuns 2 (drifter 1)) twoDirectories) parsedWorld
                   (Some err) (world P)).
  { rewrite <- Herr. eapply drain_pool; [exact Hn | exact HP | exact Hdone]. }
  exists err, (world P). split; [exact Hrun |].
  destruct (pool_loses_no_error brokenDb (with_ParallelRuns 2 (drifter 1)) twoDirectories
              parsedWorld Hn) as [Hdrift _].
  destruct (Hdrift _ _ Hrun) as [_ Hcause].
  apply (Hcause err eq_refl).
Defined.
(** ** The summary of a run, on one goroutine or on the pool *)

Ltac quiet_cases :=
  repeat (simpl;
          match goal with
          | |- True => exact I
          | |- _ = _ => reflexivity
          | |- _ /\ _ => split
          | |- forall _, _ => intro
          | |- context [match ?x with _ => _ end] => destruct x
          end).

Lemma quiet_checkWorkspace (d : Drifter) (dir workspace : string) :
  only (fun o => isSummary o = false) (checkWorkspace d dir workspace).
Proof. unfold checkWorkspace, queryAndClassify. quiet_cases. Qed.

Lemma quiet_runningFunc (d : Drifter) (ws : DirectoriesWithWorkspaces) (dir : string) :
  only (fun o => isSummary o = false) (runningFunc d ws dir).
Proof.
  unfold runningFunc. destruct (shouldSkipDirectory d dir); [exact I |].
  apply only_forRange. intros x. apply quiet_checkWorkspace.
Qed.

Lemma quiet_runFunc (d : Drifter) (ws : DirectoriesWithWorkspaces) (dir : string) :
  only (fun o => isSummary o = false) (runFunc d ws dir).
Proof.
  assert (Hloop : forall expected remote,
            only (fun o => isSummary o = false) (reportExtraWorkspaces dir expected remote)).
  { intros. apply only_forRange. intros x. unfold reportIfExtra. quiet_cases. }
  assert (Hlist : only (fun o => isSummary o = false) (listAndNotify d ws dir)).
  { unfold listAndNotify. simpl. split; [reflexivity |]. intros [ierr |]; [exact I |].
    simpl. split; [reflexivity |]. intros [remote | lerr]; [| exact I].
    apply only_bind; [apply Hloop |]. intros [lerr |]; quiet_cases. }
  unfold runFunc. destruct (shouldSkipDirectory d dir); [exact I |].
  simpl. split; [reflexivity |]. intros [[cacheVal |] | err]; simpl; auto.
  split; [reflexivity |]. intros now.
  destruct (_ <? _); [exact I |]. simpl. split; [reflexivity |].
  intros [derr |]; [exact I | exact Hlist].
Qed.

Lemma quiet_sequential (f : string -> errFunc) (ds : list string) :
  (forall dir, only (fun o => isSummary o = false) (f dir)) ->
  only (fun o => isSummary o = false) (drainAndExecute_sequential (map f ds)).
Proof.
  intros Hf. unfold drainAndExecute_sequential.
  induction ds as [| dir ds IH]; [exact I |].
  simpl. apply only_bind; [apply Hf |].
  intros [err |]; [exact I | exact IH].
Qed.

(** A run on one goroutine that ends with nil has made one summary call,
    its last, with the value of the counter. *)
Lemma sequential_run_one_summary (st : Stubs) (d : Drifter) (w ws' : World) :
  run st (Drift_sequential d) w = (None, ws') ->
  exists T,
    calls_of st (Drift_sequential d) w =
      (T ++ [NotifyWorkspaceDriftSummary [DriftedWorkspaceCount ws']])%list /\
    Forall (fun o => isSummary o = false) T.
Proof.
  unfold Drift_sequential. rewrite run_bind, calls_of_bind.
  pose proof (only_calls st (fun o => isSummary o = false) (checkOutAndParse d) w) as H1.
  destruct (run st (checkOutAndParse d) w) as [[workspaces | err] w1]; [| discriminate].
  rewrite run_bind, calls_of_bind.
  pose proof (only_calls st (fun o => isSummary o = false)
                (FindDriftedWorkspaces_sequential d workspaces) w1) as H2.
  destruct (run st (FindDriftedWorkspaces_sequential d workspaces) w1) as [[err |] w2];
    [discriminate |].
  rewrite run_bind, calls_of_bind.
  pose proof (only_calls st (fun o => isSummary o = false)
                (FindExtraWorkspaces_sequential d workspaces) w2) as H3.
  destruct (run st (FindExtraWorkspaces_sequential d workspaces) w2) as [[err |] w3];
    [discriminate |].
  change (calls_of st summarize w3)
    with [NotifyWorkspaceDriftSummary [DriftedWorkspaceCount w3]].
  change (run st summarize w3)
    with (@None error, log (NotifyWorkspaceDriftSummary [DriftedWorkspaceCount w3]) w3).
  intros [= <-]. cbn [DriftedWorkspaceCount log].
  exists (calls_of st (checkOutAndParse d) w ++
          calls_of st (FindDriftedWorkspaces_sequential d workspaces) w1 ++
          calls_of st (FindExtraWorkspaces_sequential d workspaces) w2)%list.
  split; [rewrite <- !app_assoc; reflexivity |].
  rewrite !Forall_app. split; [| split].
  - apply H1. unfold checkOutAndParse. quiet_cases.
  - apply H2. apply quiet_sequential. intros dir. apply quiet_runningFunc.
  - apply H3. unfold FindExtraWorkspaces_sequential.
    destruct (SkipWorkspaceCheck d); [exact I |].
    apply quiet_sequential. intros dir. apply quiet_runFunc.
Qed.

(** A pass that ends with nil, on one goroutine or on the pool, ends as the
    pass on one goroutine does, up to the order of the calls. *)
Lemma pass_matches_sequential (st : Stubs) (d : Drifter) (f : string -> errFunc)
    (ds : list string) (W W' : World) :
  (forall dir, within dir (f dir)) ->
  NoDup ds ->
  drainAndExecute st d (map f ds) W None W' ->
  exists ws,
    run st (drainAndExecute_sequential (map f ds)) W = (None, ws) /\ same_outcome W' ws.
Proof.
  intros Hwithin Hnd Hrun.
  inversion Hrun as [res w' Hle Hseq | sched P Hgt Hacts Hdone Hres Hworld].
  - exists W'. split; [exact Hseq | apply same_outcome_refl].
  - destruct (pool_error_iff_sequential st f W ds Hwithin Hnd d sched P Hacts Hdone)
      as [Hiff _].
    destruct (run st (drainAndExecute_sequential (map f ds)) W) as [r ws] eqn:Hseq.
    assert (r = None) as -> by (apply Hiff; exact Hres).
    exists ws. split; [rewrite ?Hres; reflexivity |].
    apply (pool_agrees st f W Hwithin d ds ws sched P Hnd Hseq Hacts Hdone).
Qed.

(** A run that ends with nil, however its passes were scheduled, ends as
    the run on one goroutine does, up to the order of the calls. *)
Lemma finished_run_matches_one_goroutine (st : Stubs) (d : Drifter) (w w' : World) :
  Drifter_Drift st d w None w' ->
  exists ws wc,
    run st (Drift_sequential d) w = (None, ws) /\ same_outcome w' ws /\
    run st summarize wc = (None, w').
Proof.
  intros Hrun.
  inversion Hrun as [| | | workspaces wa wb wc res w4 Hp Hd He Hs]; subst.
  destruct (pass_matches_sequential st d (runningFunc d workspaces) (SortedKeys workspaces)
              wa wb (within_runningFunc d workspaces) (SortedKeys_NoDup workspaces) Hd)
    as (wbs & Hds & Hb).
  assert (exists wcs,
             run st (FindExtraWorkspaces_sequential d workspaces) wbs = (None, wcs) /\
             same_outcome wc wcs) as (wcs & Hes & Hc).
  { unfold FindExtraWorkspaces in He. unfold FindExtraWorkspaces_sequential.
    destruct (SkipWorkspaceCheck d).
    - destruct He as [_ ->]. exists wbs. split; [reflexivity | exact Hb].
    - destruct (pass_matches_sequential st d (runFunc d workspaces) (SortedKeys workspaces)
                  wb wc (within_runFunc d workspaces) (SortedKeys_NoDup workspaces) He)
        as (wcs0 & Hes0 & Hc0).
      destruct (run_same_outcome st (drainAndExecute_sequential (extraRuns d workspaces))
                  wb wbs Hb) as [Hr Ho].
      unfold extraRuns in Hr, Ho. rewrite Hes0 in Hr, Ho. cbn [fst snd] in Hr, Ho.
      destruct (run st (drainAndExecute_sequential (map (runFunc d workspaces)
                                                      (SortedKeys workspaces))) wbs)
        as [r wcs] eqn:Hrun2.
      cbn [fst snd] in Hr, Ho. subst r. exists wcs. split; [exact Hrun2 |].
      eapply same_outcome_trans; eassumption. }
  destruct (run_same_outcome st summarize wc wcs Hc) as [Hr Ho].
  rewrite Hs in Hr, Ho. cbn [fst snd] in Hr, Ho.
  destruct (run st summarize wcs) as [r ws] eqn:Hss. cbn [fst snd] in Hr, Ho. subst r.
  exists ws, wc. split; [| split; [exact Ho | exact Hs]].
  unfold Drift_sequential. rewrite run_bind, Hp, run_bind.
  unfold FindDriftedWorkspaces_sequential, driftRuns. rewrite Hds, run_bind, Hes.
  exact Hss.
Qed.

(** C1 (as amended).  A run that starts without earlier calls and ends
    without an error, on one goroutine or on a pool of workers however
    scheduled, has sent exactly one summary; the summary is the last call
    of the run and carries one value, the counter at the end of the run;
    the counter has been incremented once for each drift notification of
    the run, so from 0 it is their number (below 2^31). *)
Theorem one_summary_with_the_drifted_count (st : Stubs) (d : Drifter) (w w' : World)
    (Hfresh : trace w = [])
    (Hrun : Drifter_Drift st d w None w') :
  List.filter isSummary (trace w') =
    [NotifyWorkspaceDriftSummary [DriftedWorkspaceCount w']] /\
  last (trace w') = Some (NotifyWorkspaceDriftSummary [DriftedWorkspaceCount w']) /\
  DriftedWorkspaceCount w' =
    bumped (length (List.filter isPlanDrift (trace w'))) (DriftedWorkspaceCount w) /\
  (DriftedWorkspaceCount w = 0 ->
   Z.of_nat (length (List.filter isPlanDrift (trace w'))) < 2 ^ 31 ->
   DriftedWorkspaceCount w' = Z.of_nat (length (List.filter isPlanDrift (trace w')))).
Proof.
  destruct (finished_run_matches_one_goroutine st d w w' Hrun)
    as (ws & wc & Hseq & (_ & _ & Hcount & Htrace) & Hs).
  destruct (sequential_run_one_summary st d w ws Hseq) as (T & Hcalls & Hquiet).
  assert (Hws : trace ws = calls_of st (Drift_sequential d) w).
  { pose proof (trace_run st (Drift_sequential d) w) as Ht.
    rewrite Hseq, Hfresh in Ht. exact Ht. }
  assert (Hsent : length (List.filter isPlanDrift (trace w')) =
                  length (List.filter isPlanDrift (calls_of st (Drift_sequential d) w))).
  { rewrite <- Hws. apply Permutation_length, List_filter_Permutation, Htrace. }
  assert (Hbumped : DriftedWorkspaceCount w' =
                    bumped (length (List.filter isPlanDrift (trace w')))
                           (DriftedWorkspaceCount w)).
  { rewrite Hsent, Hcount.
    pose proof (run_counted st (Drift_sequential d) w) as Hc. rewrite Hseq in Hc.
    cbn [snd] in Hc. rewrite Hc. apply paired_Drift_sequential. }
  split; [| split; [| split]].
  - assert (List.filter isSummary (trace ws) =
            [NotifyWorkspaceDriftSummary [DriftedWorkspaceCount ws]]) as Hone.
    { rewrite Hws, Hcalls, List.filter_app.
      replace (List.filter isSummary T) with (@nil op).
      - reflexivity.
      - symmetry. clear Hcalls. induction Hquiet as [| o l Ho _ IH]; [reflexivity |].
        simpl. rewrite Ho. exact IH. }
    apply (List_filter_Permutation isSummary) in Htrace. rewrite Hone in Htrace.
    symmetry in Htrace. apply Permutation_length_1_inv in Htrace.
    rewrite Htrace, Hcount. reflexivity.
  - pose proof (trace_run st summarize wc) as Ht. rewrite Hs in Ht. cbn [snd] in Ht.
    pose proof (run_counted st summarize wc) as Hc. rewrite Hs in Hc. cbn [snd] in Hc.
    change (calls_of st summarize wc)
      with [NotifyWorkspaceDriftSummary [DriftedWorkspaceCount wc]] in Ht, Hc.
    cbn in Hc. rewrite Ht, Hc. apply last_snoc.
  - exact Hbumped.
  - intros Hzero Hsmall. rewrite Hbumped, Hzero. rewrite bumped_small; lia.
Qed.

Lemma one_summary_with_the_drifted_count_witness :
  List.filter isSummary (trace calmEnd) =
    [NotifyWorkspaceDriftSummary [DriftedWorkspaceCount calmEnd]] /\
  last (trace calmEnd) = Some (NotifyWorkspaceDriftSummary [DriftedWorkspaceCount calmEnd]) /\
  DriftedWorkspaceCount calmEnd =
    bumped (length (List.filter isPlanDrift (trace calmEnd)))
           (DriftedWorkspaceCount emptyWorld) /\
  (DriftedWorkspaceCount emptyWorld = 0 ->
   Z.of_nat (length (List.filter isPlanDrift (trace calmEnd))) < 2 ^ 31 ->
   DriftedWorkspaceCount calmEnd =
     Z.of_nat (length (List.filter isPlanDrift (trace calmEnd)))).
Proof.
  apply (one_summary_with_the_drifted_count calm (drifter 1) emptyWorld calmEnd).
  - reflexivity.
  - apply Drift_sequential_outcome; [vm_compute; discriminate |].
    vm_compute. reflexivity.
Defined.


(** ** The pool is never stuck *)

Lemma Exists_Exited_insert (wks : list worker) (i : nat) (wk : worker) :
  Exists (fun x => x = Exited) (<[i := wk]> wks) ->
  wk = Exited \/ Exists (fun x => x = Exited) wks.
Proof.
  revert i. induction wks as [| y wks IH]; intros i H; simpl in H.
  - inversion H.
  - destruct i as [| i]; simpl in H.
    + apply Exists_cons in H. destruct H as [H | H]; [left; exact H |].
      right. apply Exists_cons. right. exact H.
    + apply Exists_cons in H. destruct H as [H | H].
      * right. apply Exists_cons. left. exact H.
      * destruct (IH i H) as [Hw | He]; [left; exact Hw |].
        right. apply Exists_cons. right. exact He.
Qed.

Lemma keep_first_set (old : option error) (e : error) : keep_first old e <> None.
Proof. destruct old; discriminate. Qed.

Lemma pool_sound_init (d : Drifter) (toRun : list errFunc) (w : World) :
  1 < ParallelRuns d -> pool_sound (pool_init d toRun w).
Proof.
  intros Hn. unfold pool_sound. simpl.
  split; [discriminate |]. split; [discriminate |]. split.
  - intros H. apply Exists_exists in H. destruct H as (wk & Hin & ->).
    apply elem_of_replicate in Hin. destruct Hin as [Hbad _]. discriminate.
  - rewrite length_replicate. lia.
Qed.

Lemma pool_sound_act (st : Stubs) (a : action) (P P' : pool) :
  pool_sound P -> pool_act st a P = Some P' -> pool_sound P'.
Proof.
  intros (Hclosed & Hfeeder & Hexit & Hlen) Hstep.
  destruct a as [i | | | i | i | i]; simpl in Hstep.
  - destruct (feeder P) as [[| r rest] |] eqn:Hf; try discriminate.
    destruct (workers P !! i) as [[| |] |] eqn:Hi; try discriminate.
    injection Hstep as <-. unfold pool_sound. simpl.
    split; [intros Hc; apply Hclosed in Hc; discriminate |].
    split; [discriminate |].
    split; [| rewrite length_insert; exact Hlen].
    intros H. apply Exists_Exited_insert in H. destruct H as [H | H]; [discriminate | auto].
  - destruct (feeder P) as [[| r rest] |] eqn:Hf; try discriminate.
    injection Hstep as <-. unfold pool_sound. simpl. auto.
  - destruct (feeder P) as [l |] eqn:Hf; [| discriminate].
    destruct (firstErr P) as [e |] eqn:He; [| discriminate].
    injection Hstep as <-. unfold pool_sound. simpl.
    split; [auto |]. split; [intros _; right; discriminate |].
    split; [intros _; right; discriminate | exact Hlen].
  - destruct (workers P !! i) as [[| |] |] eqn:Hi; try discriminate.
    destruct (closed P) eqn:Hc; [| discriminate].
    injection Hstep as <-. unfold pool_sound. simpl.
    split; [exact Hclosed |]. split; [auto |].
    split; [auto | rewrite length_insert; exact Hlen].
  - destruct (workers P !! i) as [[| |] |] eqn:Hi; try discriminate.
    destruct (firstErr P) as [e |] eqn:He; [| discriminate].
    injection Hstep as <-. unfold pool_sound. simpl.
    split; [exact Hclosed |]. split; [intros _; right; discriminate |].
    split; [intros _; right; discriminate | rewrite length_insert; exact Hlen].
  - destruct (workers P !! i) as [[| [[err |] | o k] |] |] eqn:Hi; try discriminate.
    + injection Hstep as <-. unfold pool_sound. simpl.
      split; [exact Hclosed |].
      split; [intros _; right; apply keep_first_set |].
      split; [intros _; right; apply keep_first_set | rewrite length_insert; exact Hlen].
    + injection Hstep as <-. unfold pool_sound. simpl.
      split; [exact Hclosed |]. split; [exact Hfeeder |].
      split; [| rewrite length_insert; exact Hlen].
      intros H. apply Exists_Exited_insert in H. destruct H as [H | H]; [discriminate | auto].
    + destruct (handle st o (world P)) as [x W'].
      injection Hstep as <-. unfold pool_sound. simpl.
      split; [exact Hclosed |]. split; [exact Hfeeder |].
      split; [| rewrite length_insert; exact Hlen].
      intros H. apply Exists_Exited_insert in H. destruct H as [H | H]; [discriminate | auto].
Qed.

Lemma pool_sound_acts (st : Stubs) (sched : list action) (P P' : pool) :
  pool_sound P -> pool_acts st sched P = Some P' -> pool_sound P'.
Proof.
  revert P. induction sched as [| a sched IH]; intros P Hs Hrun; simpl in Hrun.
  - injection Hrun as <-. exact Hs.
  - destruct (pool_act st a P) as [P1 |] eqn:Ha; [| discriminate].
    eapply IH; [eapply pool_sound_act; eassumption | exact Hrun].
Qed.

(** A busy worker can always be taken to the end of its work function. *)
Lemma worker_completes (st : Stubs) (p : errFunc) (i : nat) (P : pool) :
  workers P !! i = Some (Busy p) ->
  exists sched P' wk,
    pool_acts st sched P = Some P' /\
    feeder P' = feeder P /\ closed P' = closed P /\
    workers P' = <[i := wk]> (workers P) /\ busy_prog wk = None.
Proof.
  revert P. induction p as [r | o k IH]; intros P Hi.
  - destruct r as [err |].
    + exists [Step i]. eexists. exists Exited. simpl. rewrite Hi. simpl. auto.
    + exists [Step i]. eexists. exists Idle. simpl. rewrite Hi. simpl. auto.
  - destruct (handle st o (world P)) as [x W1] eqn:Hh.
    destruct (IH x {| feeder := feeder P; closed := closed P;
                      workers := <[i := Busy (k x)]> (workers P);
                      firstErr := firstErr P; world := W1 |})
      as (sched & P' & wk & Hs & Hf & Hc & Hw & Hb).
    { simpl. apply list_lookup_insert_eq. eapply lookup_lt_Some. exact Hi. }
    exists (Step i :: sched), P', wk. simpl. rewrite Hi, Hh.
    simpl in Hf, Hc, Hw. rewrite list_insert_insert_eq in Hw. auto.
Qed.

(** Every busy worker can be taken to the end of its work function. *)
Lemma pool_quiesces (st : Stubs) (n : nat) (P : pool) :
  length (omap busy_prog (workers P)) = n ->
  exists sched P',
    pool_acts st sched P = Some P' /\
    feeder P' = feeder P /\ closed P' = closed P /\
    omap busy_prog (workers P') = [].
Proof.
  revert P. induction n as [| n IH]; intros P Hn.
  - exists [], P. simpl. repeat split; auto. apply nil_length_inv. exact Hn.
  - destruct (omap busy_prog (workers P)) as [| p rest] eqn:Hbusy; [discriminate |].
    assert (Hin : p ∈ omap busy_prog (workers P)) by (rewrite Hbusy; left).
    apply list_elem_of_omap in Hin. destruct Hin as (wk0 & Hin & Hp).
    destruct wk0 as [| p0 |]; try discriminate. injection Hp as ->.
    apply list_elem_of_lookup in Hin. destruct Hin as [i Hi].
    destruct (worker_completes st p i P Hi) as (s1 & P1 & wk & Hs1 & Hf1 & Hc1 & Hw1 & Hb1).
    destruct (busy_insert_busy _ i p Hi) as (rest' & Hrest' & _ & Hstop).
    assert (Hlen : length (omap busy_prog (workers P1)) = n).
    { rewrite Hw1, (Hstop wk Hb1).
      rewrite Hbusy in Hrest'. apply Permutation_length in Hrest'. simpl in *. lia. }
    destruct (IH P1 Hlen) as (s2 & P2 & Hs2 & Hf2 & Hc2 & Hq).
    exists (s1 ++ s2)%list, P2. rewrite pool_acts_app, Hs1.
    repeat split; [exact Hs2 | congruence | congruence | exact Hq].
Qed.

(** Idle workers return once the channel is closed or the context is
    cancelled. *)
Lemma idle_workers_exit (st : Stubs) (rest done : list worker) (P : pool) :
  workers P = (done ++ rest)%list ->
  omap busy_prog rest = [] ->
  closed P = true \/ firstErr P <> None ->
  exists sched P',
    pool_acts st sched P = Some P' /\
    feeder P' = feeder P /\
    workers P' = (done ++ replicate (length rest) Exited)%list.
Proof.
  revert done P. induction rest as [| wk rest IH]; intros done P Hw Hb Hwhy.
  - exists [], P. simpl. rewrite app_nil_r in *. auto.
  - destruct wk as [| p |]; [| discriminate |].
    + (* idle: it takes the closed channel or the cancellation *)
      assert (Hi : workers P !! length done = Some Idle).
      { rewrite Hw. apply list_lookup_middle. reflexivity. }
      assert (Hins : <[length done := Exited]> (workers P) =
                     ((done ++ [Exited]) ++ rest)%list).
      { rewrite Hw, (insert_app_r_alt done _ (length done)) by lia.
        rewrite Nat.sub_diag. simpl. rewrite <- app_assoc. reflexivity. }
      assert (Hstep : exists a P1,
                pool_act st a P = Some P1 /\ feeder P1 = feeder P /\
                closed P1 = closed P /\ firstErr P1 = firstErr P /\
                workers P1 = ((done ++ [Exited]) ++ rest)%list).
      { destruct (closed P) eqn:Hc.
        - exists (RecvClosed (length done)). eexists. simpl. rewrite Hi, Hc. simpl.
          repeat split; auto.
        - destruct Hwhy as [Hbad | Herr]; [discriminate |].
          destruct (firstErr P) as [e |] eqn:He; [| contradiction].
          exists (WorkerCancelled (length done)). eexists. simpl. rewrite Hi, He. simpl.
          repeat split; auto. }
      destruct Hstep as (a & P1 & Ha & Hf1 & Hc1 & He1 & Hw1).
      destruct (IH (done ++ [Exited])%list P1 Hw1 Hb) as (sched & P' & Hs & Hf & Hw').
      { rewrite Hc1, He1. exact Hwhy. }
      exists (a :: sched), P'. simpl. rewrite Ha.
      repeat split; [exact Hs | congruence |].
      rewrite Hw', <- app_assoc. reflexivity.
    + (* already returned *)
      destruct (IH (done ++ [Exited])%list P) as (sched & P' & Hs & Hf & Hw').
      { rewrite Hw, <- app_assoc. reflexivity. }
      { exact Hb. }
      { exact Hwhy. }
      exists sched, P'. repeat split; [exact Hs | exact Hf |].
      rewrite Hw', <- app_assoc. reflexivity.
Qed.

Lemma all_exit (st : Stubs) (P : pool) :
  feeder P = None ->
  omap busy_prog (workers P) = [] ->
  closed P = true \/ firstErr P <> None ->
  exists sched P', pool_acts st sched P = Some P' /\ pool_done P'.
Proof.
  intros Hf Hb Hwhy.
  destruct (idle_workers_exit st (workers P) [] P eq_refl Hb Hwhy) as (sched & P' & Hs & Hf' & Hw).
  exists sched, P'. split; [exact Hs |]. split; [congruence |].
  rewrite Hw. simpl. apply Forall_forall. intros wk Hin.
  apply elem_of_replicate in Hin. apply Hin.
Qed.

(** A pool in which an error has been kept winds down. *)
Lemma cancelled_pool_finishes (st : Stubs) (P : pool) :
  firstErr P <> None ->
  omap busy_prog (workers P) = [] ->
  exists sched P', pool_acts st sched P = Some P' /\ pool_done P'.
Proof.
  intros Herr Hb.
  destruct (feeder P) as [l |] eqn:Hf.
  - destruct (firstErr P) as [e |] eqn:He; [| contradiction].
    destruct (all_exit st {| feeder := None; closed := closed P; workers := workers P;
                             firstErr := Some e; world := world P |})
      as (sched & P' & Hs & Hdone); [reflexivity | exact Hb | right; discriminate |].
    exists (FeederCancelled :: sched), P'. simpl. rewrite Hf, He. auto.
  - apply all_exit; auto.
Qed.

Lemma pool_acts_cons (st : Stubs) (a : action) (sched : list action) (P : pool) :
  pool_acts st (a :: sched) P =
  match pool_act st a P with
  | Some P1 => pool_acts st sched P1
  | None => None
  end.
Proof. reflexivity. Qed.

(** A quiet pool (no worker inside a work function) can finish. *)
Lemma quiet_pool_finishes (st : Stubs) (items : list errFunc) (P : pool) :
  pool_sound P ->
  omap busy_prog (workers P) = [] ->
  feeder P = Some items ->
  exists sched P', pool_acts st sched P = Some P' /\ pool_done P'.
Proof.
  revert P. induction items as [| r items IH]; intros P Hsound Hb Hf.
  - (* the feeder closes the channel *)
    destruct (all_exit st {| feeder := None; closed := true; workers := workers P;
                             firstErr := firstErr P; world := world P |})
      as (sched & P' & Hs & Hdone); [reflexivity | exact Hb | left; reflexivity |].
    exists (Close :: sched), P'. simpl. rewrite Hf. auto.
  - destruct (firstErr P) as [e |] eqn:He.
    { apply cancelled_pool_finishes; [rewrite He; discriminate | exact Hb]. }
    (* no error so far: every worker is idle, worker 0 takes the item *)
    destruct Hsound as (Hclosed & Hfeeder & Hexit & Hlen).
    assert (Hi : workers P !! 0%nat = Some Idle).
    { destruct (workers P) as [| wk wks] eqn:Hw; [simpl in Hlen; lia |].
      destruct wk as [| p |]; [reflexivity | discriminate Hb |].
      exfalso. destruct Hexit as [Hc | Hbad];
        [apply Exists_cons; left; reflexivity | | rewrite He in Hbad; contradiction].
      apply Hclosed in Hc. congruence. }
    assert (Hsend : pool_act st (Send 0) P =
                    Some {| feeder := Some items; closed := closed P;
                            workers := <[0%nat := Busy r]> (workers P);
                            firstErr := firstErr P; world := world P |}).
    { simpl. rewrite Hf, Hi. reflexivity. }
    destruct (worker_completes st r 0
                {| feeder := Some items; closed := closed P;
                   workers := <[0%nat := Busy r]> (workers P);
                   firstErr := firstErr P; world := world P |})
      as (s1 & P1 & wk & Hs1 & Hf1 & Hc1 & Hw1 & Hb1).
    { simpl. apply list_lookup_insert_eq. eapply lookup_lt_Some. exact Hi. }
    simpl in Hf1, Hc1, Hw1. rewrite list_insert_insert_eq in Hw1.
    assert (Hsound1 : pool_sound P1).
    { eapply (pool_sound_acts st (Send 0 :: s1) P).
      - unfold pool_sound. auto.
      - rewrite pool_acts_cons, Hsend. exact Hs1. }
    assert (Hq1 : omap busy_prog (workers P1) = []).
    { rewrite Hw1, (busy_insert_same _ 0 Idle wk Hi eq_refl Hb1). exact Hb. }
    destruct (IH P1 Hsound1 Hq1 Hf1) as (s2 & P2 & Hs2 & Hdone).
    exists (Send 0 :: s1 ++ s2)%list, P2. rewrite pool_acts_cons, Hsend.
    rewrite pool_acts_app, Hs1. auto.
Qed.

(** X10.  With more than one worker, from every state that the goroutines
    of [drainAndExecute] can reach there is a way on to the state in which
    the feeder and every worker have returned: the pool cannot deadlock, and
    [eg.Wait()] can always return. *)
Theorem pool_never_stuck (st : Stubs) (d : Drifter) (toRun : list errFunc) (w : World)
    (sched : list action) (P : pool) :
  1 < ParallelRuns d ->
  pool_acts st sched (pool_init d toRun w) = Some P ->
  exists sched' P', pool_acts st sched' P = Some P' /\ pool_done P'.
Proof.
  intros Hn Hreach.
  pose proof (pool_sound_acts st sched _ P (pool_sound_init d toRun w Hn) Hreach) as Hsound.
  destruct (pool_quiesces st _ P eq_refl) as (s1 & P1 & Hs1 & Hf1 & Hc1 & Hq1).
  pose proof (pool_sound_acts st s1 P P1 Hsound Hs1) as Hsound1.
  assert (Hfin : exists s2 P2, pool_acts st s2 P1 = Some P2 /\ pool_done P2).
  { destruct (feeder P1) as [items |] eqn:Hfeed.
    - eapply quiet_pool_finishes; eassumption.
    - apply all_exit; [exact Hfeed | exact Hq1 |].
      destruct Hsound1 as (_ & Hfeeder & _). apply Hfeeder, Hfeed. }
  destruct Hfin as (s2 & P2 & Hs2 & Hdone).
  exists (s1 ++ s2)%list, P2. rewrite pool_acts_app, Hs1. auto.
Qed.

Lemma pool_never_stuck_witness :
  1 < ParallelRuns (with_ParallelRuns 2 (drifter 1)) /\
  exists P,
    pool_acts brokenDb [Send 0; Send 1; Step 1; Step 0]
      (pool_init (with_ParallelRuns 2 (drifter 1))
         (driftRuns (with_ParallelRuns 2 (drifter 1)) twoDirectories) parsedWorld) = Some P /\
    exists sched' P', pool_acts brokenDb sched' P = Some P' /\ pool_done P'.
Proof.
  assert (Hn : 1 < ParallelRuns (with_ParallelRuns 2 (drifter 1))) by (vm_compute; reflexivity).
  split; [exact Hn |].
  destruct (pool_acts brokenDb [Send 0; Send 1; Step 1; Step 0]
              (pool_init (with_ParallelRuns 2 (drifter 1))
                 (driftRuns (with_ParallelRuns 2 (drifter 1)) twoDirectories) parsedWorld))
    as [P |] eqn:HP.
  - exists P. split; [reflexivity |].
    apply (pool_never_stuck brokenDb (with_ParallelRuns 2 (drifter 1))
             (driftRuns (with_ParallelRuns 2 (drifter 1)) twoDirectories) parsedWorld
             [Send 0; Send 1; Step 1; Step 0] P Hn HP).
  - exfalso. revert HP.
    unfold driftRuns.
    replace (SortedKeys twoDirectories) with ["infra/db"; "infra/network"]
      by (vm_compute; reflexivity).
    simpl. discriminate.
Defined.
(** ** The notification sinks *)

Section Sinks.
Import notification.
Local Open Scope list_scope.

Lemma fanOut_app (a b : list sinkM) (o : Outside) :
  fanOut (a ++ b) o =
  match fanOut a o with
  | (Some err, o') => (Some err, o')
  | (None, o') => fanOut b o'
  end.
Proof.
  revert o. induction a as [|c a IH]; intros o; simpl.
  - destruct (fanOut b o) as [[err|] o']; reflexivity.
  - destruct (c o) as [[err|] o1]; [reflexivity|]. apply IH.
Qed.

Lemma invoke_Multi (ns : list Notification) (c : call) :
  invoke (Multi ns) c = fanOut (map (fun n => invoke n c) ns).
Proof. destruct c; reflexivity. Qed.

Lemma invoke_Multi_cons (n : Notification) (ns : list Notification) (c : call)
    (o : Outside) :
  invoke (Multi (n :: ns)) c o =
  match invoke n c o with
  | (Some err, o') => (Some err, o')
  | (None, o') => invoke (Multi ns) c o'
  end.
Proof. rewrite !invoke_Multi. reflexivity. Qed.

Lemma invoke_Multi_app (a b : list Notification) (c : call) (o : Outside) :
  invoke (Multi (a ++ b)) c o =
  match invoke (Multi a) c o with
  | (Some err, o') => (Some err, o')
  | (None, o') => invoke (Multi b) c o'
  end.
Proof. rewrite !invoke_Multi, map_app. apply fanOut_app. Qed.

(** X11. A [Multi] whose members are themselves [Multi]s behaves, on every
    call and from every state, as the one [Multi] of all their members in
    order: it returns the same error and leaves the same lines and
    requests. *)
Theorem multi_of_multis_is_flat (groups : list (list Notification)) (c : call)
    (o : Outside) :
  invoke (Multi (map Multi groups)) c o = invoke (Multi (concat groups)) c o.
Proof.
  revert o. induction groups as [|g groups IH]; intros o; [reflexivity|].
  cbn [map concat]. rewrite invoke_Multi_cons, invoke_Multi_app.
  destruct (invoke (Multi g) c o) as [[err|] o1]; [reflexivity|]. apply IH.
Qed.

Lemma all_accept_Multi (c : call) (ns : list Notification) (o o' : Outside) :
  all_accept c ns o o' -> invoke (Multi ns) c o = (None, o').
Proof.
  induction 1 as [o|n ns o o1 o2 Hn _ IH].
  - rewrite invoke_Multi. reflexivity.
  - rewrite invoke_Multi_cons, Hn. exact IH.
Qed.

(** X12. What a call on a [Multi] returns, in full: it returns nil exactly
    when every member, called in order on what the one before left, returned
    nil; it returns an error exactly when some member returned that error
    after all members before it had returned nil, and then no later member
    has been called: what is outside is what the refusing member left. *)
Theorem multi_stops_at_first_refusal (ns : list Notification) (c : call)
    (o o' : Outside) (r : option error) :
  invoke (Multi ns) c o = (r, o') <->
  (r = None /\ all_accept c ns o o') \/
  (exists pre n post err o1,
      r = Some err /\ ns = (pre ++ n :: post)%list /\
      all_accept c pre o o1 /\ invoke n c o1 = (Some err, o')).
Proof.
  split.
  - revert o. induction ns as [|n ns IH]; intros o H.
    + rewrite invoke_Multi in H. simpl in H. injection H as <- <-.
      left. split; [reflexivity | constructor].
    + rewrite invoke_Multi_cons in H.
      destruct (invoke n c o) as [[err|] o1] eqn:Hn.
      * injection H as <- <-. right. exists [], n, ns, err, o.
        repeat split; [constructor | exact Hn].
      * destruct (IH _ H) as [[-> Hall] | (pre & m & post & err & o2 & -> & -> & Hall & Hm)].
        -- left. split; [reflexivity | econstructor; eassumption].
        -- right. exists (n :: pre), m, post, err, o2.
           repeat split; [econstructor; eassumption | exact Hm].
  - intros [[-> Hall] | (pre & n & post & err & o1 & -> & -> & Hall & Hn)].
    + apply all_accept_Multi, Hall.
    + rewrite invoke_Multi_app, (all_accept_Multi _ _ _ _ Hall).
      rewrite invoke_Multi_cons, Hn. reflexivity.
Qed.

(** X13. A Slack message is accepted exactly when it could be marshalled,
    the request could be built and the webhook answered with status 200.
    A request goes out only once both first steps succeeded, and then it is
    the only one; the log is never written. *)
Theorem slack_message_accepted_iff_200 (web : Web) (s : SlackWebhook) (msg : string)
    (o : Outside) :
  ((sendSlackMessage web s msg o).1 = None <->
   exists b, jsonMarshal web msg = Ok b /\ newRequest web (WebhookURL s) b = None /\
             clientDo web (WebhookURL s) b = Ok StatusOK) /\
  lines (sendSlackMessage web s msg o).2 = lines o /\
  requests (sendSlackMessage web s msg o).2 =
    match jsonMarshal web msg with
    | Ok b => match newRequest web (WebhookURL s) b with
              | None => requests o ++ [(WebhookURL s, b)]
              | Some _ => requests o
              end
    | Err _ => requests o
    end.
Proof.
  unfold sendSlackMessage.
  destruct (jsonMarshal web msg) as [b|e] eqn:Hm; cbn [fst snd].
  2:{ repeat split; try discriminate. intros (b & Hb & _). discriminate. }
  destruct (newRequest web (WebhookURL s) b) as [e|] eqn:Hr; cbn [fst snd].
  { repeat split; try discriminate. intros (b' & [= <-] & Hb & _). congruence. }
  destruct (clientDo web (WebhookURL s) b) as [status|e] eqn:Hd; cbn [fst snd].
  2:{ repeat split; try discriminate. intros (b' & [= <-] & _ & Hb). congruence. }
  destruct (status =? StatusOK) eqn:Hs; cbn [negb fst snd lines requests].
  - apply Z.eqb_eq in Hs. subst status. repeat split. intros _. exists b. auto.
  - apply Z.eqb_neq in Hs. repeat split; try discriminate.
    intros (b' & [= <-] & _ & Hb). congruence.
Qed.

(** X14. When the webhook answers with a status other than 200, the error
    of [sendSlackMessage] is the same for every such status, says nothing
    of the status and has no cause to unwrap: it is the text of [%w]
    applied to nil. *)
Theorem refused_status_error_has_no_cause (web : Web) (s : SlackWebhook)
    (msg b : string) (status : Z) (o : Outside)
    (Hmarshal : jsonMarshal web msg = Ok b)
    (Hrequest : newRequest web (WebhookURL s) b = None)
    (Hdo : clientDo web (WebhookURL s) b = Ok status)
    (Hstatus : status <> StatusOK) :
  exists err,
    (sendSlackMessage web s msg o).1 = Some err /\
    error_Error err = "failed to send slack webhook request: %!w(<nil>)" /\
    (forall cause, unwraps_to err cause -> cause = err) /\
    errors_As_Temporary err = false.
Proof.
  unfold sendSlackMessage. rewrite Hmarshal, Hrequest, Hdo.
  apply Z.eqb_neq in Hstatus. rewrite Hstatus. cbn [negb fst].
  eexists. split; [reflexivity|]. split; [reflexivity|]. split; [|reflexivity].
  intros cause [<- | []]. reflexivity.
Qed.

Lemma refused_status_error_has_no_cause_witness :
  exists err,
    (sendSlackMessage web500 hook "drift" nothingYet).1 = Some err /\
    error_Error err = "failed to send slack webhook request: %!w(<nil>)" /\
    (forall cause, unwraps_to err cause -> cause = err) /\
    errors_As_Temporary err = false.
Proof.
  apply (refused_status_error_has_no_cause web500 hook "drift" "{text:drift}" 500 nothingYet);
    [reflexivity | reflexivity | reflexivity | discriminate].
Defined.

Lemma occurs_in_here (sub post : string) : occurs_in sub (sub +:+ post).
Proof. exists "", post. reflexivity. Qed.

Lemma occurs_in_later (sub pre s : string) : occurs_in sub s -> occurs_in sub (pre +:+ s).
Proof.
  intros (a & b & ->). exists (pre +:+ a), b.
  induction pre as [|ch pre IH]; [reflexivity|].
  change (String ch (pre +:+ a +:+ sub +:+ b) = String ch ((pre +:+ a) +:+ sub +:+ b)).
  rewrite IH. reflexivity.
Qed.

(** X15. The text Slack gets for a drift names the directory and carries
    the plan summary in each of its four layouts, and names the workspace
    whenever one is given. *)
Theorem drift_message_names_its_subject (dir workspace cliffnote : string) :
  occurs_in dir (planDriftMessage dir workspace cliffnote) /\
  occurs_in cliffnote (planDriftMessage dir workspace cliffnote) /\
  (workspace <> "" -> occurs_in workspace (planDriftMessage dir workspace cliffnote)).
Proof.
  unfold planDriftMessage.
  destruct workspace as [|ch workspace];
    cbn [String.length Nat.eqb];
    destruct (50 <? String.length cliffnote)%nat;
    (split; [|split]);
    try (intros H; try (exfalso; apply H; reflexivity));
    repeat first [apply occurs_in_here | apply occurs_in_later].
Qed.

(** X16. The logging sink never returns an error and never sends a
    request.  It writes one line that carries the directory and the
    workspace for every call but the summary, for which it writes
    nothing. *)
Theorem zap_sink_never_fails (c : call) (o : Outside) :
  (invoke Zap c o).1 = None /\
  requests (invoke Zap c o).2 = requests o /\
  match c with
  | CallSummary _ _ _ => lines (invoke Zap c o).2 = lines o
  | CallExtra dir workspace | CallMissing dir workspace
  | CallPlanDrift dir workspace _ | CallTemporary dir workspace _ =>
      exists line,
        lines (invoke Zap c o).2 = lines o ++ [line] /\
        fields line !! 0%nat = Some ("dir"%string, dir) /\
        fields line !! 1%nat = Some ("workspace"%string, workspace)
  end.
Proof.
  destruct c; (split; [reflexivity|]); (split; [reflexivity|]);
    try reflexivity; eexists; (split; [reflexivity|]); split; reflexivity.
Qed.

End Sinks.

(** ** Generation of the Atlantis configuration *)

Section Autogen.
Import autogen.
Local Open Scope list_scope.

Lemma insert_middle {A : Type} (pre post : list A) (x y : A) (n : nat) :
  n = length pre -> <[n := y]> (pre ++ x :: post) = pre ++ y :: post.
Proof.
  intros ->. rewrite insert_app_r_alt by lia. rewrite Nat.sub_diag. reflexivity.
Qed.

Lemma swap_ends (pre mid post : text) (x y : rune) :
  swap (pre ++ x :: mid ++ y :: post) (Z.of_nat (length pre))
       (Z.of_nat (length pre + length mid) + 1) =
  Some (pre ++ y :: mid ++ x :: post).
Proof.
  unfold swap.
  replace (Z.of_nat (length pre) <? 0) with false by (symmetry; apply Z.ltb_ge; lia).
  replace (Z.of_nat (length pre + length mid) + 1 <? 0) with false
    by (symmetry; apply Z.ltb_ge; lia).
  cbn [orb].
  replace (Z.to_nat (Z.of_nat (length pre))) with (length pre) by lia.
  replace (Z.to_nat (Z.of_nat (length pre + length mid) + 1))
    with (length (pre ++ x :: mid)) by (rewrite length_app; simpl; lia).
  rewrite (list_lookup_middle pre _ x (length pre)) by reflexivity.
  replace (pre ++ x :: mid ++ y :: post) with ((pre ++ x :: mid) ++ y :: post)
    by (rewrite <- app_assoc; reflexivity).
  rewrite (list_lookup_middle (pre ++ x :: mid) post y) by reflexivity.
  rewrite <- app_assoc. cbn [app].
  rewrite (insert_middle pre _ x y) by reflexivity.
  replace (pre ++ y :: mid ++ y :: post) with ((pre ++ y :: mid) ++ y :: post)
    by (rewrite <- app_assoc; reflexivity).
  rewrite (insert_middle (pre ++ y :: mid) post y x)
    by (rewrite !length_app; simpl; lia).
  rewrite <- app_assoc. reflexivity.
Qed.

Lemma reverse_loop_done (fuel : nat) (r : text) (i j : Z) :
  j <= i -> reverse_loop fuel r i j = Some r.
Proof.
  intros H. destruct fuel; simpl;
    replace (i <? j) with false by (symmetry; apply Z.ltb_ge; lia); reflexivity.
Qed.

Lemma reverse_loop_middle (fuel : nat) :
  forall (mid pre post : text),
    (length mid <= fuel)%nat ->
    reverse_loop fuel (pre ++ mid ++ post) (Z.of_nat (length pre))
                 (Z.of_nat (length pre + length mid) - 1) =
    Some (pre ++ reverse mid ++ post).
Proof.
  induction fuel as [|fuel IH]; intros mid pre post Hfuel.
  - destruct mid; [|simpl in Hfuel; lia].
    rewrite reverse_loop_done by (cbn [length]; lia). reflexivity.
  - destruct mid as [|x mid].
    { rewrite reverse_loop_done by (cbn [length]; lia). reflexivity. }
    destruct mid as [|y mid _] using rev_ind.
    { rewrite reverse_loop_done by (cbn [length]; lia). reflexivity. }
    rewrite length_cons, length_app in *. cbn [length] in *.
    cbn [reverse_loop].
    replace (Z.of_nat (length pre) <? Z.of_nat (length pre + S (length mid + 1)) - 1)
      with true by (symmetry; apply Z.ltb_lt; lia).
    replace (Z.of_nat (length pre + S (length mid + 1)) - 1)
      with (Z.of_nat (length pre + length mid) + 1) by lia.
    replace (pre ++ (x :: mid ++ [y]) ++ post) with (pre ++ x :: mid ++ y :: post)
      by (cbn [app]; rewrite <- app_assoc; reflexivity).
    rewrite swap_ends.
    replace (pre ++ y :: mid ++ x :: post) with ((pre ++ [y]) ++ mid ++ (x :: post))
      by (rewrite <- app_assoc; reflexivity).
    replace (Z.of_nat (length pre) + 1) with (Z.of_nat (length (pre ++ [y])))
      by (rewrite length_app; simpl; lia).
    replace (Z.of_nat (length pre + length mid) + 1 - 1)
      with (Z.of_nat (length (pre ++ [y]) + length mid) - 1)
      by (rewrite length_app; simpl; lia).
    rewrite IH by lia.
    rewrite reverse_cons, reverse_app, reverse_singleton.
    rewrite <- !app_assoc. reflexivity.
Qed.

Lemma reverseString_eq (s : text) : reverseString s = Some (reverse s).
Proof.
  unfold reverseString.
  pose proof (reverse_loop_middle (length s) s [] [] (le_n _)) as H.
  rewrite !app_nil_r in H. exact H.
Qed.

(** X17. [reverseString] never runs out of its index range and returns the
    runes of its argument in reverse order: the loop of swaps from both
    ends is list reversal. *)
Theorem reverseString_reverses (s : text) : reverseString s = Some (reverse s).
Proof. apply reverseString_eq. Qed.

Lemma strings_Cut_sound (s : text) (sep : rune) :
  forall before after,
    strings_Cut s sep = Some (before, after) ->
    s = before ++ sep :: after /\ sep ∉ before.
Proof.
  induction s as [|c s IH]; intros before after; simpl; [discriminate|].
  destruct (c =? sep) eqn:Hc.
  - apply Z.eqb_eq in Hc. subst c. intros [= <- <-].
    split; [reflexivity | apply not_elem_of_nil].
  - apply Z.eqb_neq in Hc.
    destruct (strings_Cut s sep) as [[b a]|] eqn:Hcut; [|discriminate].
    intros [= <- <-]. destruct (IH _ _ eq_refl) as [-> Hb].
    split; [reflexivity|].
    intros [?|?]%elem_of_cons; [congruence | contradiction].
Qed.

Lemma strings_Cut_complete (before after : text) (sep : rune) :
  sep ∉ before -> strings_Cut (before ++ sep :: after) sep = Some (before, after).
Proof.
  induction before as [|c before IH]; intros Hnot; simpl.
  - rewrite Z.eqb_refl. reflexivity.
  - apply not_elem_of_cons in Hnot as [Hc Hnot].
    replace (c =? sep) with false by (symmetry; apply Z.eqb_neq; congruence).
    rewrite IH by exact Hnot. reflexivity.
Qed.

Lemma strings_Cut_None (s : text) (sep : rune) :
  sep ∉ s -> strings_Cut s sep = None.
Proof.
  induction s as [|c s IH]; intros Hnot; simpl; [reflexivity|].
  apply not_elem_of_cons in Hnot as [Hc Hnot].
  replace (c =? sep) with false by (symmetry; apply Z.eqb_neq; congruence).
  rewrite IH by exact Hnot. reflexivity.
Qed.

Lemma rootModuleOf_cut (file : text) :
  rootModuleOf file =
  match strings_Cut (reverse file) slash with
  | Some (_, after) => Some (reverse after)
  | None => None
  end.
Proof.
  unfold rootModuleOf, strings_SplitN_2. rewrite reverseString_eq.
  destruct (strings_Cut (reverse file) slash) as [[before after]|]; simpl.
  - apply reverseString_eq.
  - reflexivity.
Qed.

Lemma rootModuleOf_Some (file dir : text) :
  rootModuleOf file = Some dir <->
  exists base, (slash ∉ base) /\ file = dir ++ slash :: base.
Proof.
  rewrite rootModuleOf_cut. split.
  - destruct (strings_Cut (reverse file) slash) as [[before after]|] eqn:Hcut;
      [|discriminate].
    intros [= <-]. apply strings_Cut_sound in Hcut as [Hrev Hnot].
    exists (reverse before). split.
    + rewrite elem_of_reverse. exact Hnot.
    + rewrite <- (reverse_involutive file), Hrev.
      rewrite reverse_app, reverse_cons, <- app_assoc. reflexivity.
  - intros (base & Hnot & ->).
    rewrite reverse_app, reverse_cons, <- app_assoc. cbn [app].
    rewrite strings_Cut_complete by (rewrite elem_of_reverse; exact Hnot).
    rewrite reverse_involutive. reflexivity.
Qed.

Lemma rootModuleOf_None (file : text) :
  rootModuleOf file = None <-> slash ∉ file.
Proof.
  rewrite rootModuleOf_cut. split.
  - destruct (strings_Cut (reverse file) slash) as [[before after]|] eqn:Hcut;
      [discriminate|].
    intros _ Hin. apply elem_of_reverse in Hin.
    apply list_elem_of_split_l in Hin as (a & b & Hab & Hnot).
    rewrite Hab, strings_Cut_complete in Hcut by exact Hnot. discriminate.
  - intros Hnot. rewrite strings_Cut_None; [reflexivity|].
    rewrite elem_of_reverse. exact Hnot.
Qed.

(** X18. The directory [findTerraformRootModules] takes for a file is what
    stands before the last slash of its path, and the three lines that
    compute it panic exactly on a path without a slash. *)
Theorem root_module_is_parent_directory (file : text) :
  (forall dir, rootModuleOf file = Some dir <->
               exists base, (slash ∉ base) /\ file = dir ++ slash :: base) /\
  (rootModuleOf file = None <-> slash ∉ file).
Proof. split; [intros dir; apply rootModuleOf_Some | apply rootModuleOf_None]. Qed.

Lemma rootModuleOf_slash (file : text) :
  slash ∈ file -> exists dir, rootModuleOf file = Some dir.
Proof.
  intros Hin. destruct (rootModuleOf file) as [dir|] eqn:H; [eauto|].
  apply rootModuleOf_None in H. contradiction.
Qed.

Lemma rootModules_from_ok (fs : Files) (pattern : string -> bool) (files : list text) :
  forall acc,
    (forall file, file ∈ files -> exists content, readFile fs file = Ok content) ->
    (forall file, file ∈ files -> slash ∈ file) ->
    exists dirs,
      rootModules_from fs pattern acc files = Returns (Ok dirs) /\
      forall d, d ∈ dirs <->
                d ∈ acc \/
                exists file base content,
                  file ∈ files /\ readFile fs file = Ok content /\
                  pattern content = true /\ file = d ++ slash :: base /\ slash ∉ base.
Proof.
  induction files as [|file files IH]; intros acc Hread Hslash; simpl.
  - exists acc. split; [reflexivity|]. intros d. split; [auto|].
    intros [H | (f & _ & _ & Hin & _)]; [exact H|]. inversion Hin.
  - destruct (Hread file) as [content Hc]; [left|]. rewrite Hc.
    assert (forall f, f ∈ files -> exists content, readFile fs f = Ok content) as Hread'.
    { intros f Hf. apply Hread. right. exact Hf. }
    assert (forall f, f ∈ files -> slash ∈ f) as Hslash'.
    { intros f Hf. apply Hslash. right. exact Hf. }
    destruct (pattern content) eqn:Hp.
    + destruct (rootModuleOf_slash file) as [dir Hdir]; [apply Hslash; left|].
      rewrite Hdir.
      destruct (IH ({[dir]} ∪ acc) Hread' Hslash') as (dirs & -> & Hdirs).
      exists dirs. split; [reflexivity|]. intros d. rewrite Hdirs.
      apply rootModuleOf_Some in Hdir as (base & Hbase & Hfile).
      split.
      * intros [[Hd | Hd]%elem_of_union | (f & b & c & Hf & Hrest)].
        -- apply elem_of_singleton in Hd. subst d. right.
           exists file, base, content. repeat split; try assumption. left.
        -- left. exact Hd.
        -- right. exists f, b, c. split; [right; exact Hf | exact Hrest].
      * intros [Hd | (f & b & c & Hf & Hfc & Hpc & Hfd & Hb)].
        -- left. apply elem_of_union. right. exact Hd.
        -- apply elem_of_cons in Hf as [-> | Hf].
           ++ left. apply elem_of_union. left. apply elem_of_singleton.
              assert (rootModuleOf file = Some d) as H1
                by (apply rootModuleOf_Some; exists b; auto).
              assert (rootModuleOf file = Some dir) as H2
                by (apply rootModuleOf_Some; exists base; auto).
              congruence.
           ++ right. exists f, b, c. auto.
    + destruct (IH acc Hread' Hslash') as (dirs & -> & Hdirs).
      exists dirs. split; [reflexivity|]. intros d. rewrite Hdirs. split.
      * intros [Hd | (f & b & c & Hf & Hrest)]; [left; exact Hd|].
        right. exists f, b, c. split; [right; exact Hf | exact Hrest].
      * intros [Hd | (f & b & c & Hf & Hfc & Hpc & Hfd & Hb)]; [left; exact Hd|].
        apply elem_of_cons in Hf as [-> | Hf]; [congruence|].
        right. exists f, b, c. auto.
Qed.

(** X19. When every file can be read and every path has a slash,
    [findTerraformRootModules] returns, without error or panic, exactly the
    parent directories of the files whose content matches the pattern. *)
Theorem root_modules_are_parents_of_matching_files (fs : Files)
    (pattern : string -> bool) (files : list text)
    (Hread : forall file, file ∈ files -> exists content, readFile fs file = Ok content)
    (Hslash : forall file, file ∈ files -> slash ∈ file) :
  exists dirs,
    findTerraformRootModules fs files pattern = Returns (Ok dirs) /\
    forall d, d ∈ dirs <->
              exists file base content,
                file ∈ files /\ readFile fs file = Ok content /\
                pattern content = true /\ file = d ++ slash :: base /\ slash ∉ base.
Proof.
  destruct (rootModules_from_ok fs pattern files ∅ Hread Hslash) as (dirs & H & Hdirs).
  exists dirs. split; [exact H|]. intros d. rewrite Hdirs. split; [|auto].
  intros [Hd | Hd]; [|exact Hd]. apply elem_of_empty in Hd. contradiction.
Qed.

Lemma rootModules_from_app (fs : Files) (pattern : string -> bool) (pre rest : list text) :
  forall acc,
    (forall file, file ∈ pre -> exists content, readFile fs file = Ok content) ->
    (forall file, file ∈ pre -> slash ∈ file) ->
    exists acc',
      rootModules_from fs pattern acc (pre ++ rest) = rootModules_from fs pattern acc' rest.
Proof.
  induction pre as [|file pre IH]; intros acc Hread Hslash; cbn [app].
  - exists acc. reflexivity.
  - cbn [rootModules_from].
    destruct (Hread file) as [content Hc]; [left|]. rewrite Hc.
    assert (forall f, f ∈ pre -> exists content, readFile fs f = Ok content) as Hread'.
    { intros f Hf. apply Hread. right. exact Hf. }
    assert (forall f, f ∈ pre -> slash ∈ f) as Hslash'.
    { intros f Hf. apply Hslash. right. exact Hf. }
    destruct (pattern content).
    + destruct (rootModuleOf_slash file) as [dir ->]; [apply Hslash; left|].
      apply IH; assumption.
    + apply IH; assumption.
Qed.

(** X20. The first file that cannot be read ends [findTerraformRootModules]:
    it returns an error that wraps the cause and names the file, the files
    after it are neither read nor matched, and no directory is returned. *)
Theorem unreadable_file_ends_root_module_search (fs : Files) (pattern : string -> bool)
    (pre post : list text) (file : text) (cause : error)
    (Hread : forall f, f ∈ pre -> exists content, readFile fs f = Ok content)
    (Hslash : forall f, f ∈ pre -> slash ∈ f)
    (Hfile : readFile fs file = Err cause) :
  exists err,
    findTerraformRootModules fs (pre ++ file :: post) pattern = Returns (Err err) /\
    unwraps_to err cause /\
    occurs_in (string_of_runes file) (error_Error err).
Proof.
  unfold findTerraformRootModules.
  destruct (rootModules_from_app fs pattern pre (file :: post) ∅ Hread Hslash) as [acc' ->].
  cbn [rootModules_from]. rewrite Hfile.
  eexists. split; [reflexivity|]. split.
  - apply unwraps_fmt_Errorf.
  - exists "error reading tf file "%string, (": " +:+ error_Error cause)%string.
    reflexivity.
Qed.

(** X21. A file whose content matches the pattern and whose path has no
    slash makes [findTerraformRootModules] panic, once the files before it
    have been read. *)
Theorem matching_file_without_slash_panics (fs : Files) (pattern : string -> bool)
    (pre post : list text) (file : text) (content : string)
    (Hread : forall f, f ∈ pre -> exists content, readFile fs f = Ok content)
    (Hslash : forall f, f ∈ pre -> slash ∈ f)
    (Hfile : readFile fs file = Ok content)
    (Hmatch : pattern content = true)
    (Hbare : slash ∉ file) :
  findTerraformRootModules fs (pre ++ file :: post) pattern = Panics.
Proof.
  unfold findTerraformRootModules.
  destruct (rootModules_from_app fs pattern pre (file :: post) ∅ Hread Hslash) as [acc' ->].
  cbn [rootModules_from]. rewrite Hfile, Hmatch.
  apply rootModuleOf_None in Hbare. rewrite Hbare. reflexivity.
Qed.

Lemma text_leb_total (a : text) : forall b, text_leb a b = true \/ text_leb b a = true.
Proof.
  induction a as [|x a IH]; intros [|y b]; simpl; auto.
  destruct (Z.ltb_spec x y), (Z.ltb_spec y x), (Z.eqb_spec x y), (Z.eqb_spec y x);
    auto; try lia.
Qed.

Lemma text_leb_trans (a : text) :
  forall b c, text_leb a b = true -> text_leb b c = true -> text_leb a c = true.
Proof.
  induction a as [|x a IH]; intros [|y b] [|z c]; simpl; auto; try discriminate.
  destruct (Z.ltb_spec x y), (Z.ltb_spec y z), (Z.ltb_spec x z),
           (Z.eqb_spec x y), (Z.eqb_spec y z), (Z.eqb_spec x z);
    auto; try discriminate; try lia.
  apply IH.
Qed.

Lemma text_leb_antisym (a : text) :
  forall b, text_leb a b = true -> text_leb b a = true -> a = b.
Proof.
  induction a as [|x a IH]; intros [|y b]; simpl; auto; try discriminate.
  destruct (Z.ltb_spec x y), (Z.ltb_spec y x), (Z.eqb_spec x y), (Z.eqb_spec y x);
    try discriminate; try lia.
  intros H1 H2. subst y. f_equal. apply IH; assumption.
Qed.

#[local] Instance text_le_trans : Transitive text_le.
Proof. intros a b c. apply text_leb_trans. Qed.

#[local] Instance text_le_antisym : AntiSymm (=) text_le.
Proof. intros a b. apply text_leb_antisym. Qed.

Lemma insert_text_perm (x : text) (l : list text) : insert_text x l ≡ₚ x :: l.
Proof.
  induction l as [|y l IH]; simpl; [reflexivity|].
  destruct (text_leb x y); [reflexivity|].
  rewrite IH. apply Permutation_swap.
Qed.

Lemma insert_text_Sorted (x : text) (l : list text) :
  Sorted text_le l -> Sorted text_le (insert_text x l).
Proof.
  induction l as [|y l IH]; intros Hs; simpl.
  - repeat constructor.
  - destruct (text_leb x y) eqn:Hxy.
    + constructor; [exact Hs | constructor; exact Hxy].
    + apply Sorted_inv in Hs as [Hs Hhd]. constructor; [apply IH, Hs|].
      assert (text_le y x) as Hyx.
      { destruct (text_leb_total x y) as [H|H]; [congruence | exact H]. }
      destruct l as [|z l]; simpl; [constructor; exact Hyx|].
      destruct (text_leb x z); constructor; [exact Hyx|].
      inversion Hhd; assumption.
Qed.

Lemma sort_Texts_perm (l : list text) : sort_Texts l ≡ₚ l.
Proof.
  induction l as [|x l IH]; simpl; [reflexivity|].
  rewrite insert_text_perm, IH. reflexivity.
Qed.

Lemma sort_Texts_Sorted (l : list text) : Sorted text_le (sort_Texts l).
Proof.
  induction l as [|x l IH]; simpl; [constructor | apply insert_text_Sorted, IH].
Qed.

Lemma sort_Texts_unique (l1 l2 : list text) : l1 ≡ₚ l2 -> sort_Texts l1 = sort_Texts l2.
Proof.
  intros H. apply (Sorted_unique text_le); try apply sort_Texts_Sorted.
  rewrite !sort_Texts_perm. exact H.
Qed.

(** X22. The YAML that is generated does not depend on the order in which
    the range loop yields the root modules: two runs that see the keys of
    the same map in different orders marshal the same configuration. *)
Theorem generated_yaml_ignores_range_order (fs : Files)
    (order : gset text -> list text) (Directory : text) (directories : gset text)
    (Hrange : rangeOrder fs directories ≡ₚ elements directories)
    (Horder : order directories ≡ₚ elements directories) :
  generateAtlantisRepoYaml (with_rangeOrder fs order) Directory directories =
  generateAtlantisRepoYaml fs Directory directories.
Proof.
  unfold generateAtlantisRepoYaml, configOf. cbn [with_rangeOrder rangeOrder yamlMarshal].
  rewrite (sort_Texts_unique (order directories) (rangeOrder fs directories)).
  - reflexivity.
  - rewrite Hrange, Horder. reflexivity.
Qed.

(** X23. The configuration handed to [yaml.Marshal] has version 3,
    parallel plans and one project for each root module, in the ascending
    order of the module paths and without a module twice. *)
Theorem projects_sorted_one_per_root_module (fs : Files) (Directory : text)
    (directories : gset text)
    (Hrange : rangeOrder fs directories ≡ₚ elements directories) :
  exists dirList,
    StronglySorted text_le dirList /\
    NoDup dirList /\
    (forall dir, dir ∈ dirList <-> dir ∈ directories) /\
    generateAtlantisRepoYaml fs Directory directories =
    match yamlMarshal fs {| version := 3; parallelPlan := true;
                            projects := map (projectOf Directory) dirList |} with
    | Err err => Err (fmt_Errorf ["error marshalling to YAML"%string] err)
    | Ok yamlDataBytes => Ok yamlDataBytes
    end.
Proof.
  exists (sort_Texts (rangeOrder fs directories)).
  assert (sort_Texts (rangeOrder fs directories) ≡ₚ elements directories) as Hperm
    by (rewrite sort_Texts_perm; exact Hrange).
  split; [|split; [|split]].
  - apply Sorted_StronglySorted; [apply text_le_trans | apply sort_Texts_Sorted].
  - rewrite Hperm. apply NoDup_elements.
  - intros dir. rewrite Hperm. apply elem_of_elements.
  - reflexivity.
Qed.

Lemma strip_prefix_app (prefix rest : text) : strip_prefix prefix (prefix ++ rest) = Some rest.
Proof.
  induction prefix as [|p prefix IH]; simpl; [destruct rest; reflexivity|].
  rewrite Z.eqb_refl. exact IH.
Qed.

Lemma strip_prefix_length (prefix : text) :
  forall s rest, strip_prefix prefix s = Some rest -> (length prefix <= length s)%nat.
Proof.
  induction prefix as [|p prefix IH]; intros [|c s] rest; simpl; try lia; try discriminate.
  destruct (p =? c); [|discriminate]. intros H. apply IH in H. lia.
Qed.

Lemma strings_Replace_1_unfold (s old new : text) :
  strings_Replace_1 s old new =
  match strip_prefix old s with
  | Some rest => new ++ rest
  | None =>
      match s with
      | [] => []
      | c :: s' => c :: strings_Replace_1 s' old new
      end
  end.
Proof. destruct s; reflexivity. Qed.

Lemma strings_Replace_1_short (s old new : text) :
  (length s < length old)%nat -> strings_Replace_1 s old new = s.
Proof.
  induction s as [|c s IH]; intros Hlen.
  - simpl. destruct (strip_prefix old []) eqn:H; [|reflexivity].
    apply strip_prefix_length in H. simpl in *. lia.
  - cbn [strings_Replace_1].
    destruct (strip_prefix old (c :: s)) eqn:H.
    + apply strip_prefix_length in H. lia.
    + rewrite IH by (simpl in Hlen; lia). reflexivity.
Qed.

(** X24. A root module below the checkout directory is named by its path
    relative to that directory, as name and as dir of its project; a root
    module that is the checkout directory itself keeps the full path of
    the checkout. *)
Theorem project_named_relative_to_checkout (Directory rel : text) :
  projectName (projectOf Directory (Directory ++ slash :: rel)) = rel /\
  projectDir (projectOf Directory (Directory ++ slash :: rel)) = rel /\
  projectName (projectOf Directory Directory) = Directory /\
  projectDir (projectOf Directory Directory) = Directory.
Proof.
  assert (relativeDir Directory (Directory ++ slash :: rel) = rel) as Hrel.
  { unfold relativeDir.
    replace (Directory ++ slash :: rel) with ((Directory ++ [slash]) ++ rel)
      by (rewrite <- app_assoc; reflexivity).
    rewrite strings_Replace_1_unfold, strip_prefix_app. reflexivity. }
  assert (relativeDir Directory Directory = Directory) as Hroot.
  { unfold relativeDir. apply strings_Replace_1_short. rewrite length_app. simpl. lia. }
  cbn [projectOf projectName projectDir]. auto.
Qed.

Lemma errorf_v_flat (prefix : string) (err : error) :
  (forall cause, unwraps_to (errorf_v prefix err) cause -> cause = errorf_v prefix err) /\
  errors_As_Temporary (errorf_v prefix err) = false.
Proof.
  split; [|reflexivity]. intros cause [<- | []]. reflexivity.
Qed.

(** X25. An error of [generateAtlantisProjectsFile] carries the text of
    what went wrong but not the value: nothing can be unwrapped from it
    and it is never temporary.  When it is returned, no file has been
    written, unless it is the error of the write itself. *)
Theorem generation_error_is_flat (fs : Files) (Directory AtlantisRepoYmlPath : text)
    (err : error) (written : option (text * string))
    (Hrun : generateAtlantisProjectsFile fs Directory AtlantisRepoYmlPath =
            Returns (Some err, written)) :
  (forall cause, unwraps_to err cause -> cause = err) /\
  errors_As_Temporary err = false /\
  (written = None \/
   exists yamlOutputBytes writeErr,
     written = Some (Directory ++ [slash] ++ AtlantisRepoYmlPath, yamlOutputBytes) /\
     writeFile fs (Directory ++ [slash] ++ AtlantisRepoYmlPath) yamlOutputBytes =
       Some writeErr).
Proof.
  unfold generateAtlantisProjectsFile in Hrun.
  destruct (findTFFiles fs Directory) as [files [e|]].
  { injection Hrun as <- <-.
    destruct (errorf_v_flat "error finding tf files" e). auto. }
  destruct (findTerraformRootModules fs files (backendPattern fs)) as [[dirs|e]|];
    [| |discriminate].
  2:{ injection Hrun as <- <-.
      destruct (errorf_v_flat "error processing files" e). auto. }
  destruct (generateAtlantisRepoYaml fs Directory dirs) as [bytes|e].
  2:{ injection Hrun as <- <-.
      destruct (errorf_v_flat "error generating YAML" e). auto. }
  cbv zeta in Hrun.
  destruct (writeFile fs (Directory ++ [slash] ++ AtlantisRepoYmlPath) bytes)
    as [writeErr|] eqn:Hw; [|discriminate].
  injection Hrun as <- <-.
  destruct (errorf_v_flat "error writing Atlantis yaml config file" writeErr).
  split; [assumption|]. split; [assumption|]. right. eauto.
Qed.

Lemma checkout_readable (file : text) :
  file ∈ [runes "/r/a/main.tf"; runes "/r/b/vars.tf"] ->
  exists content, readFile checkoutFiles file = Ok content.
Proof.
  intros Hin. cbn [checkoutFiles readFile].
  destruct (bool_decide (file = runes "/r/a/main.tf")); eauto.
Qed.

Lemma checkout_slashes (file : text) :
  file ∈ [runes "/r/a/main.tf"; runes "/r/b/vars.tf"] -> slash ∈ file.
Proof.
  intros [-> | [-> | Hin]%elem_of_cons]%elem_of_cons.
  - left.
  - left.
  - inversion Hin.
Qed.

Lemma root_modules_are_parents_of_matching_files_witness :
  exists dirs,
    findTerraformRootModules checkoutFiles
      [runes "/r/a/main.tf"; runes "/r/b/vars.tf"] (backendPattern checkoutFiles) =
      Returns (Ok dirs) /\
    forall d, d ∈ dirs <->
              exists file base content,
                file ∈ [runes "/r/a/main.tf"; runes "/r/b/vars.tf"] /\
                readFile checkoutFiles file = Ok content /\
                backendPattern checkoutFiles content = true /\
                file = d ++ slash :: base /\ slash ∉ base.
Proof.
  apply (root_modules_are_parents_of_matching_files checkoutFiles
           (backendPattern checkoutFiles) [runes "/r/a/main.tf"; runes "/r/b/vars.tf"]).
  - exact checkout_readable.
  - exact checkout_slashes.
Defined.

Lemma unreadable_file_ends_root_module_search_witness :
  exists err,
    findTerraformRootModules unreadableFiles
      ([runes "/r/a/main.tf"] ++ runes "/r/b/vars.tf" :: []) (backendPattern unreadableFiles) =
      Returns (Err err) /\
    unwraps_to err diskError /\
    occurs_in (string_of_runes (runes "/r/b/vars.tf")) (error_Error err).
Proof.
  apply (unreadable_file_ends_root_module_search unreadableFiles
           (backendPattern unreadableFiles) [runes "/r/a/main.tf"] []
           (runes "/r/b/vars.tf") diskError).
  - intros f ->%list_elem_of_singleton. eexists. reflexivity.
  - intros f ->%list_elem_of_singleton. left.
  - reflexivity.
Defined.

Lemma matching_file_without_slash_panics_witness :
  findTerraformRootModules lonelyFiles ([] ++ runes "main.tf" :: [runes "/r/b/vars.tf"])
    (backendPattern lonelyFiles) = Panics.
Proof.
  apply (matching_file_without_slash_panics lonelyFiles (backendPattern lonelyFiles)
           [] [runes "/r/b/vars.tf"] (runes "main.tf") "terraform { backend s3 }"%string).
  - intros f Hin. inversion Hin.
  - intros f Hin. inversion Hin.
  - reflexivity.
  - reflexivity.
  - apply rootModuleOf_None. vm_compute. reflexivity.
Defined.

Lemma generated_yaml_ignores_range_order_witness :
  generateAtlantisRepoYaml
    (with_rangeOrder checkoutFiles (fun directories => reverse (elements directories)))
    (runes "/r") {[runes "/r/a"; runes "/r/b"]} =
  generateAtlantisRepoYaml checkoutFiles (runes "/r") {[runes "/r/a"; runes "/r/b"]}.
Proof.
  apply (generated_yaml_ignores_range_order checkoutFiles
           (fun directories => reverse (elements directories))).
  - reflexivity.
  - apply reverse_Permutation.
Defined.

Lemma projects_sorted_one_per_root_module_witness :
  exists dirList,
    StronglySorted text_le dirList /\
    NoDup dirList /\
    (forall dir, dir ∈ dirList <-> dir ∈ ({[runes "/r/a"; runes "/r/b"]} : gset text)) /\
    generateAtlantisRepoYaml checkoutFiles (runes "/r") {[runes "/r/a"; runes "/r/b"]} =
    match yamlMarshal checkoutFiles
            {| version := 3; parallelPlan := true;
               projects := map (projectOf (runes "/r")) dirList |} with
    | Err err => Err (fmt_Errorf ["error marshalling to YAML"%string] err)
    | Ok yamlDataBytes => Ok yamlDataBytes
    end.
Proof.
  apply (projects_sorted_one_per_root_module checkoutFiles (runes "/r")
           {[runes "/r/a"; runes "/r/b"]}).
  reflexivity.
Defined.

Lemma generation_error_is_flat_witness :
  (forall cause,
      unwraps_to
        (errorf_v "error processing files"
           (fmt_Errorf ["error reading tf file "%string; "/r/b/vars.tf"%string] diskError))
        cause ->
      cause = errorf_v "error processing files"
                (fmt_Errorf ["error reading tf file "%string; "/r/b/vars.tf"%string]
                   diskError)) /\
  errors_As_Temporary
    (errorf_v "error processing files"
       (fmt_Errorf ["error reading tf file "%string; "/r/b/vars.tf"%string] diskError)) =
    false /\
  ((None : option (text * string)) = None \/
   exists yamlOutputBytes writeErr,
     None = Some (runes "/r" ++ [slash] ++ runes "atlantis.yaml", yamlOutputBytes) /\
     writeFile unreadableFiles (runes "/r" ++ [slash] ++ runes "atlantis.yaml")
       yamlOutputBytes = Some writeErr).
Proof.
  apply (generation_error_is_flat unreadableFiles (runes "/r") (runes "atlantis.yaml")).
  reflexivity.
Defined.

Lemma walk_from_paths (P : text -> Prop) (visits : list Visit) :
  forall files,
    (forall f, f ∈ files -> P f) ->
    (forall v, v ∈ visits -> P (visitPath v)) ->
    forall f, f ∈ (walk_from files visits).1 -> P f.
Proof.
  induction visits as [|v visits IH]; intros files Hfiles Hvisits; cbn [walk_from].
  - exact Hfiles.
  - assert (forall v', v' ∈ visits -> P (visitPath v')) as Hrest.
    { intros v' Hv'. apply Hvisits. right. exact Hv'. }
    destruct (visitErr v); [exact Hfiles|].
    destruct (negb (visitIsDir v) && strings_HasSuffix (visitName v) (runes ".tf")).
    + apply IH; [|exact Hrest].
      intros f [Hf | ->%list_elem_of_singleton]%elem_of_app; [apply Hfiles, Hf|].
      apply Hvisits. left.
    + apply IH; assumption.
Qed.

Lemma rootModules_from_returns (fs : Files) (pattern : string -> bool) (files : list text) :
  forall acc,
    (forall file, file ∈ files -> slash ∈ file) ->
    exists r, rootModules_from fs pattern acc files = Returns r.
Proof.
  induction files as [|file files IH]; intros acc Hslash; cbn [rootModules_from].
  - eauto.
  - assert (forall f, f ∈ files -> slash ∈ f) as Hslash'.
    { intros f Hf. apply Hslash. right. exact Hf. }
    destruct (readFile fs file) as [content|err]; [|eauto].
    destruct (pattern content); [|apply IH, Hslash'].
    destruct (rootModuleOf_slash file) as [dir ->]; [apply Hslash; left|].
    apply IH, Hslash'.
Qed.

(** X26. When the path of the checkout directory has a slash and the walk
    only visits paths that start with the checkout directory,
    [generateAtlantisProjectsFile] does not panic: it returns, with nil or
    with an error, whatever the files hold and whichever of them cannot be
    read. *)
Theorem generation_returns_in_rooted_checkout (fs : Files)
    (Directory AtlantisRepoYmlPath : text)
    (Hrooted : slash ∈ Directory)
    (Hwalk : forall v, v ∈ walkDir fs Directory -> Directory `prefix_of` visitPath v) :
  exists r, generateAtlantisProjectsFile fs Directory AtlantisRepoYmlPath = Returns r.
Proof.
  unfold generateAtlantisProjectsFile.
  pose proof (walk_from_paths (fun f => slash ∈ f) (walkDir fs Directory) []) as Hfiles.
  unfold findTFFiles.
  destruct (walk_from [] (walkDir fs Directory)) as [files [e|]]; [eauto|].
  cbn [fst] in Hfiles.
  assert (forall f, f ∈ files -> slash ∈ f) as Hslash.
  { apply Hfiles.
    - intros f Hf. inversion Hf.
    - intros v Hv. destruct (Hwalk v Hv) as [rest ->].
      apply elem_of_app. left. exact Hrooted. }
  unfold findTerraformRootModules.
  destruct (rootModules_from_returns fs (backendPattern fs) files ∅ Hslash) as [r ->].
  destruct r as [dirs|e]; [|eauto].
  destruct (generateAtlantisRepoYaml fs Directory dirs); [|eauto].
  cbv zeta. destruct (writeFile fs _ _); eauto.
Qed.

Lemma generation_returns_in_rooted_checkout_witness :
  exists r, generateAtlantisProjectsFile checkoutFiles (runes "/r") (runes "atlantis.yaml") =
            Returns r.
Proof.
  apply (generation_returns_in_rooted_checkout checkoutFiles (runes "/r")
           (runes "atlantis.yaml")).
  - left.
  - intros v Hv. cbn [checkoutFiles walkDir] in Hv.
    repeat (apply elem_of_cons in Hv as [-> | Hv]);
      [| | | | | inversion Hv]; cbn [visitPath].
    + exists []. rewrite app_nil_r. reflexivity.
    + eexists. reflexivity.
    + eexists. reflexivity.
    + eexists. reflexivity.
    + eexists. reflexivity.
Defined.

End Autogen.

